(** * ssh-proxy: the chat server's session registry, nickname negotiation,
      line sanitizing and broadcast, embedded from the server script.

    JavaScript strings are sequences of UTF-16 code units; regular
    expressions without the [u] flag, [length], [substring] and [trim] all
    work on code units, so a string is modelled as the list of its units. *)

From Stdlib Require Import String Ascii NArith ZArith Lia DecimalNat.
From stdpp Require Import base numbers option list gmap.

Local Open Scope N_scope.
Local Open Scope nat_scope.

(** ** Strings *)

Abbreviation jsstring := (list N) (only parsing).

Fixpoint str (s : string) : jsstring :=
  match s with
  | EmptyString => []
  | String a s' => N_of_ascii a :: str s'
  end.

(** [a === b] on two strings. *)
Definition str_eqb (a b : jsstring) : bool := bool_decide (a = b).

(** Decimal rendering of a non-negative integer, as string concatenation
    with a number produces it. *)
Fixpoint digits_of_uint (d : Decimal.uint) : jsstring :=
  match d with
  | Decimal.Nil => []
  | Decimal.D0 d => 48%N :: digits_of_uint d
  | Decimal.D1 d => 49%N :: digits_of_uint d
  | Decimal.D2 d => 50%N :: digits_of_uint d
  | Decimal.D3 d => 51%N :: digits_of_uint d
  | Decimal.D4 d => 52%N :: digits_of_uint d
  | Decimal.D5 d => 53%N :: digits_of_uint d
  | Decimal.D6 d => 54%N :: digits_of_uint d
  | Decimal.D7 d => 55%N :: digits_of_uint d
  | Decimal.D8 d => 56%N :: digits_of_uint d
  | Decimal.D9 d => 57%N :: digits_of_uint d
  end.

Definition decimal (n : nat) : jsstring := digits_of_uint (Nat.to_uint n).

(** ** A backtracking matcher for the regular expression [RE_SPECIAL]

    A matcher receives the text at the current position and a continuation
    for the rest of the pattern; it answers with the text left after the
    whole match, or [None]. Alternatives are tried in the order in which
    they are written, quantifiers are greedy. *)

Module Regex.

Definition matcher := jsstring -> (jsstring -> option jsstring) -> option jsstring.

Definition or_else {A} (a b : option A) : option A :=
  match a with Some _ => a | None => b end.

(** one code unit of a character class *)
Definition cls (p : N -> bool) : matcher := fun s k =>
  match s with
  | c :: s' => if p c then k s' else None
  | [] => None
  end.

Definition eps : matcher := fun s k => k s.
Definition seq (m1 m2 : matcher) : matcher := fun s k => m1 s (fun s' => m2 s' k).
Definition alt (m1 m2 : matcher) : matcher := fun s k => or_else (m1 s k) (m2 s k).
(** [m?] *)
Definition opt (m : matcher) : matcher := alt m eps.
(** [m{1,2}] *)
Definition rep12 (m : matcher) : matcher := seq m (opt m).

(** [[p]+]: one unit of the class, then as many more as possible, giving
    them back one at a time when the rest of the pattern fails. *)
Fixpoint plus_cls (p : N -> bool) (s : jsstring) (k : jsstring -> option jsstring)
  : option jsstring :=
  match s with
  | c :: s' => if p c then or_else (plus_cls p s' k) (k s') else None
  | [] => None
  end.

(** [exec m s]: the number of units the match of [m] at the start of [s]
    consumes. *)
Definition exec (m : matcher) (s : jsstring) : option nat :=
  match m s Some with
  | Some rest => Some (length s - length rest)
  | None => None
  end.

(** [s.replace(re, "")] for a global [re] whose matches are never empty:
    scan from the left, drop each match, keep every unit at which no match
    starts. [skip] counts the units of the current match still to drop. *)
Fixpoint remove_from (m : matcher) (skip : nat) (s : jsstring) : jsstring :=
  match s with
  | [] => []
  | c :: s' =>
      match skip with
      | S n => remove_from m n s'
      | O =>
          match exec m s with
          | Some (S n) => remove_from m n s'
          | _ => c :: remove_from m 0 s'
          end
      end
  end.

Definition remove_all (m : matcher) (s : jsstring) : jsstring := remove_from m 0 s.

End Regex.

(** [[\x00-\x1F\x7F]] *)
Definition is_control (c : N) : bool := (c <=? 31)%N || (c =? 127)%N.
(** [[0-9]] *)
Definition is_digit (c : N) : bool := (48 <=? c)%N && (c <=? 57)%N.
(** [[m|K]]: inside a class the bar is a literal *)
Definition is_mK (c : N) : bool := (c =? 109)%N || (c =? 124)%N || (c =? 75)%N.
Definition is_unit (u c : N) : bool := (c =? u)%N.

(** The second alternative of [RE_SPECIAL]:
    [\x1B\[([0-9]{1,2}(;[0-9]{1,2})?)?[m|K]] *)
Definition RE_ANSI : Regex.matcher :=
  Regex.seq (Regex.cls (is_unit 27))
   (Regex.seq (Regex.cls (is_unit 91))
     (Regex.seq
        (Regex.opt
           (Regex.seq (Regex.rep12 (Regex.cls is_digit))
              (Regex.opt (Regex.seq (Regex.cls (is_unit 59))
                                    (Regex.rep12 (Regex.cls is_digit))))))
        (Regex.cls is_mK))).

(** [/[\x00-\x1F\x7F]+|(?:\x1B\[([0-9]{1,2}(;[0-9]{1,2})?)?[m|K])/g] *)
Definition RE_SPECIAL : Regex.matcher :=
  Regex.alt (Regex.plus_cls is_control) RE_ANSI.

Definition MAX_MSG_LEN : nat := 128.
Definition MAX_NAME_LEN : nat := 10.

(** ** [String.prototype.trim]

    The units ECMAScript counts as white space or line terminators. *)
Definition is_space (c : N) : bool :=
  ((9 <=? c)%N && (c <=? 13)%N) || (c =? 32)%N || (c =? 160)%N || (c =? 5760)%N
  || ((8192 <=? c)%N && (c <=? 8202)%N) || (c =? 8232)%N || (c =? 8233)%N
  || (c =? 8239)%N || (c =? 8287)%N || (c =? 12288)%N || (c =? 65279)%N.

Fixpoint trimStart (s : jsstring) : jsstring :=
  match s with
  | c :: s' => if is_space c then trimStart s' else s
  | [] => []
  end.

Definition trimEnd (s : jsstring) : jsstring := rev (trimStart (rev s)).
Definition trim (s : jsstring) : jsstring := trimEnd (trimStart s).

(** [s.substring(0, n)] *)
Definition substring0 (n : nat) (s : jsstring) : jsstring := take n s.

(** ** The sanitizing steps of the submit handler

    [line = line.replace(RE_SPECIAL, "").trim();
     if (line.length > MAX_MSG_LEN) line = line.substring(0, MAX_MSG_LEN);] *)
Definition sanitize (line : jsstring) : jsstring :=
  let line := trim (Regex.remove_all RE_SPECIAL line) in
  if MAX_MSG_LEN <? length line then substring0 MAX_MSG_LEN line else line.

Definition ESC : N := 27%N.
Definition LF : jsstring := [10%N].

(** ** Data model

    Stream objects live in a heap and are named by reference: the array
    [users] and a connection's closure variable [stream] alias the same
    object, and [===] and [indexOf] compare references. *)

Abbreviation ref := nat (only parsing).

Inductive error := TypeError | SinkError.

Inductive completion (A : Type) :=
  | Normal (a : A)
  | Throw (e : error).
Arguments Normal {A} a.
Arguments Throw {A} e.

(** The [blessed.log] widget a stream writes to, as far as the server uses
    it: the lines added so far and the [parseTags] flag. The widget belongs
    to the rendering library; [writable] records whether its [add]
    currently returns ([true]) or raises ([false]). *)
Record Log := mkLog {
  lines : list jsstring;
  parseTags : bool;
  writable : bool
}.

Record Stream := mkStream {
  name : option jsstring;
  rows : N;
  columns : N;
  output : Log;
  ended : bool
}.

(** Where the transport is with a connection. *)
Inductive phase := Authenticating | Prompting | Ready | Closed.

(** The variables a connection's handlers close over ([None] is
    [undefined]), the transport's phase, and whether the once-only [pty]
    listener has fired. *)
Record Conn := mkConn {
  c_phase : phase;
  c_stream : option ref;
  c_name : option jsstring;
  c_rows : option N;
  c_cols : option N;
  c_term : option jsstring;
  c_pty : bool
}.

Record State := mkState {
  users : list ref;
  heap : list Stream;
  conns : list Conn
}.

Definition new_conn : Conn := mkConn Authenticating None None None None None false.
Definition init : State := mkState [] [] [].

Definition set_users (f : list ref -> list ref) (st : State) : State :=
  mkState (f (users st)) (heap st) (conns st).
Definition set_heap (f : list Stream -> list Stream) (st : State) : State :=
  mkState (users st) (f (heap st)) (conns st).
Definition set_conns (f : list Conn -> list Conn) (st : State) : State :=
  mkState (users st) (heap st) (f (conns st)).

Definition set_output (f : Log -> Log) (s : Stream) : Stream :=
  mkStream (name s) (rows s) (columns s) (f (output s)) (ended s).
Definition set_geometry (r c : N) (s : Stream) : Stream :=
  mkStream (name s) r c (output s) (ended s).
Definition set_ended (s : Stream) : Stream :=
  mkStream (name s) (rows s) (columns s) (output s) true.

Definition add_line (l : jsstring) (o : Log) : Log :=
  mkLog (lines o ++ [l]) (parseTags o) (writable o).
Definition set_parseTags (b : bool) (o : Log) : Log :=
  mkLog (lines o) b (writable o).
Definition set_writable (b : bool) (o : Log) : Log :=
  mkLog (lines o) (parseTags o) b.

Definition set_phase (p : phase) (c : Conn) : Conn :=
  mkConn p (c_stream c) (c_name c) (c_rows c) (c_cols c) (c_term c) (c_pty c).
Definition set_stream (r : ref) (c : Conn) : Conn :=
  mkConn (c_phase c) (Some r) (c_name c) (c_rows c) (c_cols c) (c_term c) (c_pty c).
Definition set_name (n : jsstring) (c : Conn) : Conn :=
  mkConn (c_phase c) (c_stream c) (Some n) (c_rows c) (c_cols c) (c_term c) (c_pty c).
Definition set_size (r k : N) (c : Conn) : Conn :=
  mkConn (c_phase c) (c_stream c) (c_name c) (Some r) (Some k) (c_term c) (c_pty c).
Definition set_pty (r k : N) (t : jsstring) (c : Conn) : Conn :=
  mkConn (c_phase c) (c_stream c) (c_name c) (Some r) (Some k) (Some t) true.

(** ** Handlers run in a state monad whose exceptions keep the mutations
    made before the throw. *)

Definition M (A : Type) : Type := State -> State * completion A.

#[export] Instance M_ret : MRet M := fun A a st => (st, Normal a).
#[export] Instance M_bind : MBind M := fun A B k m st =>
  match m st with
  | (st', Normal a) => k a st'
  | (st', Throw e) => (st', Throw e)
  end.
Definition ret {A} (a : A) : M A := mret a.
Definition throw {A} (e : error) : M A := fun st => (st, Throw e).
Definition get : M State := fun st => (st, Normal st).
Definition modify (f : State -> State) : M unit := fun st => (f st, Normal tt).

(** [for (const x of l) body] for a body that neither breaks nor changes
    the array it walks. *)
Fixpoint for_of {X} (l : list X) (body : X -> M unit) : M unit :=
  match l with
  | [] => ret tt
  | x :: l' => body x;; for_of l' body
  end.

(** Reading the object behind a reference; a missing object behaves as
    [undefined] does on property access. *)
Definition deref (r : ref) : M Stream := fun st =>
  match heap st !! r with
  | Some s => (st, Normal s)
  | None => (st, Throw TypeError)
  end.

Definition update (r : ref) (f : Stream -> Stream) : M unit :=
  deref r;; modify (set_heap (alter f r)).

(** [output.add(line)] *)
Definition add (r : ref) (line : jsstring) : M unit :=
  s ← deref r;
  if writable (output s) then update r (set_output (add_line line))
  else throw SinkError.

(** String coercion of a possibly undefined name in a concatenation. *)
Definition to_str (o : option jsstring) : jsstring :=
  match o with Some s => s | None => str "undefined" end.

(** [x || d] on a number that may be undefined. *)
Definition or_default (x : option N) (d : N) : N :=
  match x with
  | Some v => if (v =? 0)%N then d else v
  | None => d
  end.

(** [array.indexOf(x)] *)
Fixpoint indexOf (x : ref) (l : list ref) : Z :=
  match l with
  | [] => (-1)%Z
  | y :: l' =>
      if Nat.eqb y x then 0%Z
      else match indexOf x l' with
           | Z.neg _ => (-1)%Z
           | i => (i + 1)%Z
           end
  end.

(** [array.splice(start, deleteCount)]: a negative [start] counts from the
    end, and both numbers are clamped to the array. *)
Definition splice (start deleteCount : Z) (l : list ref) : list ref :=
  let len := Z.of_nat (length l) in
  let actualStart :=
    if (start <? 0)%Z then Z.max (len + start) 0 else Z.min start len in
  let actualDeleteCount := Z.min (Z.max deleteCount 0) (len - actualStart) in
  take (Z.to_nat actualStart) l
    ++ drop (Z.to_nat actualStart + Z.to_nat actualDeleteCount) l.

Definition PROMPT_NAME : jsstring :=
  str "Enter a nickname to use (max " ++ decimal MAX_NAME_LEN ++ str " chars): ".
Definition MSG_IN_USE : jsstring := str "That nickname is already in use." ++ LF ++ PROMPT_NAME.
Definition MSG_REQUIRED : jsstring := str "A nickname is required." ++ LF ++ PROMPT_NAME.
Definition MSG_TOO_LONG : jsstring := str "That nickname is too long." ++ LF ++ PROMPT_NAME.
Definition KEYBOARD_INTERACTIVE : jsstring := str "keyboard-interactive".

(** What an authentication context is told. *)
Inductive auth_action :=
  | Accept
  | Reject (methods : list jsstring)
  | Prompt (text : jsstring).

Inductive event :=
  | Connect
  | Authentication (c : nat) (username method : jsstring)
  | Answers (c : nat) (answers : list jsstring)
  | Pty (c : nat) (info_rows info_cols : N) (info_term : jsstring)
  | WindowChange (c : nat) (info_rows info_cols : N)
  | Shell (c : nat)
  | Submit (c : nat) (line : jsstring)
  | Close (c : nat)
  | SinkState (r : ref) (ok : bool).

Section Server.

(** [String.prototype.toLowerCase] and the tag parser of the rendering
    library (which may render differently per widget) are built-ins the
    server calls; the development holds for any such functions. *)
Variable toLowerCase : jsstring -> jsstring.
Variable _parseTags : ref -> jsstring -> jsstring.

Definition formatMessage (msg : jsstring) (out : ref) : M jsstring :=
  update out (set_output (set_parseTags true));;
  let msg := _parseTags out msg in
  update out (set_output (set_parseTags false));;
  ret msg.

Definition userBroadcast (msg : jsstring) (source : ref) : M unit :=
  let sourceMsg := str "> " ++ msg in
  src ← deref source;
  let name := str "{cyan-fg}{bold}" ++ to_str (name src) ++ str "{/}" in
  let msg := str ": " ++ msg in
  st ← get;
  for_of (users st) (fun user =>
    if Nat.eqb source user then add user sourceMsg
    else n ← formatMessage name user; add user (n ++ msg)).

Definition localMessage (msg : jsstring) (source : ref) : M unit :=
  m ← formatMessage msg source; add source m.

(** The loops of the authentication handlers over [users]: is some
    member's lowered name equal to [lowered]? *)
Fixpoint name_in_use (lowered : jsstring) (us : list ref) (h : list Stream)
  : completion bool :=
  match us with
  | [] => Normal false
  | user :: us' =>
      match h !! user with
      | Some s =>
          match name s with
          | Some n =>
              if str_eqb (toLowerCase n) lowered then Normal true
              else name_in_use lowered us' h
          | None => Throw TypeError
          end
      | None => Throw TypeError
      end
  end.

Definition in_use (lowered : jsstring) : M bool := fun st =>
  (st, name_in_use lowered (users st) (heap st)).

(** [name = nick] in the closure of connection [c] *)
Definition assign_name (c : nat) (n : jsstring) : M unit :=
  modify (set_conns (alter (set_name n) c)).

(** The answer to the method check and the prompt that follow a candidate
    that was not accepted. *)
Definition challenge (method prompt : jsstring) : M auth_action :=
  if negb (str_eqb method KEYBOARD_INTERACTIVE)
  then ret (Reject [KEYBOARD_INTERACTIVE])
  else ret (Prompt prompt).

(** [client.on("authentication", ...)] *)
Definition on_authentication (c : nat) (username method : jsstring) : M auth_action :=
  let nick := username in
  if (0 <? length nick) && (length nick <=? MAX_NAME_LEN) then
    let lowered := toLowerCase nick in
    taken ← in_use lowered;
    if negb taken then assign_name c nick;; ret Accept
    else challenge method MSG_IN_USE
  else if length nick =? 0 then challenge method MSG_REQUIRED
  else challenge method MSG_TOO_LONG.

(** [retryPrompt(answers)] *)
Definition retryPrompt (c : nat) (answers : list jsstring) : M auth_action :=
  match answers with
  | [] => ret (Reject [KEYBOARD_INTERACTIVE])
  | nick :: _ =>
      if MAX_NAME_LEN <? length nick then ret (Prompt MSG_TOO_LONG)
      else if length nick =? 0 then ret (Prompt MSG_REQUIRED)
      else
        let lowered := toLowerCase nick in
        taken ← in_use lowered;
        if taken : bool then ret (Prompt MSG_IN_USE) : M auth_action
        else assign_name c nick;; ret Accept
  end.

(** [.once("pty", ...)] *)
Definition on_pty (c : nat) (info_rows info_cols : N) (info_term : jsstring) : M unit :=
  modify (set_conns (alter (set_pty info_rows info_cols info_term) c)).

(** [.on("window-change", ...)]; [cn] is the closure of connection [c] as
    the handler finds it. *)
Definition on_window_change (c : nat) (cn : Conn) (info_rows info_cols : N) : M unit :=
  modify (set_conns (alter (set_size info_rows info_cols) c));;
  match c_stream cn with
  | Some stream => update stream (set_geometry info_rows info_cols)
  | None => ret tt
  end.

Definition welcome (others : nat) : jsstring :=
  str "{blue-bg}{white-fg}{bold}Welcome to SSH Chat!{/}" ++ LF
  ++ str "There are {bold}" ++ decimal others ++ str "{/} other user(s) connected." ++ LF
  ++ str "Type /quit or /exit to exit the chat.".

(** The stream object as the shell handler has set it up when it first
    reads [users] again: name and geometry from the closure, a new log
    widget with nothing in it. *)
Definition new_stream (cn : Conn) : Stream :=
  mkStream (c_name cn) (or_default (c_rows cn) 24) (or_default (c_cols cn) 80)
           (mkLog [] false true) false.

Definition joined (name : option jsstring) (user : ref) : M jsstring :=
  a ← formatMessage (str "{green-fg}*** {bold}") user;
  b ← formatMessage (str "{/bold} has joined the chat{/}") user;
  ret (a ++ to_str name ++ b).

Definition left (name : option jsstring) (user : ref) : M jsstring :=
  a ← formatMessage (str "{magenta-fg}*** {bold}") user;
  b ← formatMessage (str "{/bold} has left the chat{/}") user;
  ret (a ++ to_str name ++ b).

(** [.once("shell", ...)]: [accept()] returns a new channel object, which
    is pushed on [users] and set up; the array has at least the new member
    when the greeting computes [users.length - 1]. *)
Definition on_shell (c : nat) (cn : Conn) : M unit :=
  st ← get;
  let stream := length (heap st) in
  modify (set_heap (fun h => h ++ [new_stream cn]));;
  modify (set_conns (alter (set_stream stream) c));;
  modify (set_users (fun us => us ++ [stream]));;
  st ← get;
  localMessage (welcome (length (users st) - 1)) stream;;
  for_of (users st) (fun user =>
    if Nat.eqb user stream then ret tt
    else line ← joined (c_name cn) user; add user line).

Definition QUIT : jsstring := str "/quit".
Definition EXIT : jsstring := str "/exit".

(** [input.on("submit", ...)] of the connection whose stream is [stream];
    [stream.end()] is recorded on the stream. *)
Definition on_submit (stream : ref) (line : jsstring) : M unit :=
  let line := sanitize line in
  if 0 <? length line then
    if str_eqb line QUIT || str_eqb line EXIT then update stream set_ended
    else userBroadcast line stream
  else ret tt.

(** [client.on("close", ...)] *)
Definition on_close (cn : Conn) : M unit :=
  match c_stream cn with
  | Some stream =>
      modify (set_users (fun us => splice (indexOf stream us) 1 us));;
      st ← get;
      for_of (users st) (fun user =>
        line ← left (c_name cn) user; add user line)
  | None => ret tt
  end.

(** ** The transport

    The events a connection can deliver, in the order the protocol engine
    allows them: authentication attempts until one is accepted, answers
    only to an outstanding prompt, session requests once ready (the [pty]
    and [shell] listeners fire once), one close. An exception leaves a
    handler with the state as mutated so far. *)

Definition settle (c : nat) (a : completion auth_action) : State -> State :=
  match a with
  | Normal Accept => set_conns (alter (set_phase Ready) c)
  | Normal (Reject _) => set_conns (alter (set_phase Authenticating) c)
  | Normal (Prompt _) => set_conns (alter (set_phase Prompting) c)
  | Throw _ => fun st => st
  end.

Definition is_ready (cn : Conn) : bool :=
  match c_phase cn with Ready => true | _ => false end.

Definition handle (e : event) (st : State) : option State :=
  match e with
  | Connect => Some (set_conns (fun cs => cs ++ [new_conn]) st)
  | Authentication c username method =>
      cn ← conns st !! c;
      match c_phase cn with
      | Authenticating | Prompting =>
          let '(st', a) := on_authentication c username method st in
          Some (settle c a st')
      | _ => None
      end
  | Answers c answers =>
      cn ← conns st !! c;
      match c_phase cn with
      | Prompting =>
          let '(st', a) := retryPrompt c answers st in
          Some (settle c a st')
      | _ => None
      end
  | Pty c info_rows info_cols info_term =>
      cn ← conns st !! c;
      if is_ready cn && negb (c_pty cn)
      then Some (on_pty c info_rows info_cols info_term st).1
      else None
  | WindowChange c info_rows info_cols =>
      cn ← conns st !! c;
      if is_ready cn
      then Some (on_window_change c cn info_rows info_cols st).1
      else None
  | Shell c =>
      cn ← conns st !! c;
      match c_stream cn with
      | None => if is_ready cn then Some (on_shell c cn st).1 else None
      | Some _ => None
      end
  | Submit c line =>
      cn ← conns st !! c;
      match c_stream cn with
      | Some stream => if is_ready cn then Some (on_submit stream line st).1 else None
      | None => None
      end
  | Close c =>
      cn ← conns st !! c;
      match c_phase cn with
      | Closed => None
      | _ => Some (set_conns (alter (set_phase Closed) c) (on_close cn st).1)
      end
  | SinkState r ok =>
      Some (set_heap (alter (set_output (set_writable ok)) r) st)
  end.

Fixpoint run (evs : list event) (st : State) : option State :=
  match evs with
  | [] => Some st
  | e :: evs' => st' ← handle e st; run evs' st'
  end.

Inductive reachable : State -> Prop :=
  | reachable_init : reachable init
  | reachable_step st e st' :
      reachable st -> handle e st = Some st' -> reachable st'.

(** ** Views of a state *)

Definition sink (st : State) (r : ref) : list jsstring :=
  match heap st !! r with
  | Some s => lines (output s)
  | None => []
  end.

Definition accepts_writes (st : State) (r : ref) : Prop :=
  exists s, heap st !! r = Some s /\ writable (output s) = true.

Definition member_name (st : State) (r : ref) : option jsstring :=
  s ← heap st !! r; name s.

(** ** Notions the properties are stated with *)

(** What a handler that only writes to sinks leaves alone: the registry,
    the closures, and of every stream all but the lines and the tag flag
    of its log. *)
Definition core (s : Stream) : option jsstring * N * N * bool * bool :=
  (name s, rows s, columns s, ended s, writable (output s)).

Definition same_frame (st st' : State) : Prop :=
  users st' = users st /\ conns st' = conns st /\ core <$> heap st' = core <$> heap st.

Definition framed {A} (m : M A) : Prop := forall st, same_frame st (m st).1.

Definition same_sinks (st st' : State) : Prop := forall r, sink st' r = sink st r.

Definition refuses_writes (st : State) (r : ref) : Prop :=
  exists s, heap st !! r = Some s /\ writable (output s) = false.

Definition joined_text (n : option jsstring) (user : ref) : jsstring :=
  _parseTags user (str "{green-fg}*** {bold}") ++ to_str n
  ++ _parseTags user (str "{/bold} has joined the chat{/}").

Definition left_text (n : option jsstring) (user : ref) : jsstring :=
  _parseTags user (str "{magenta-fg}*** {bold}") ++ to_str n
  ++ _parseTags user (str "{/bold} has left the chat{/}").

Definition names (st : State) : list (option jsstring) := name <$> heap st.

Definition same_skeleton (st st' : State) : Prop :=
  users st' = users st /\ conns st' = conns st /\ names st' = names st.

(** The state in which the shell handler starts to write. *)
Definition shell_setup (c : nat) (cn : Conn) (st : State) : State :=
  mkState (users st ++ [length (heap st)]) (heap st ++ [new_stream cn])
          (alter (set_stream (length (heap st))) c (conns st)).

Definition join_body (cn : Conn) (stream : ref) (user : ref) : M unit :=
  if Nat.eqb user stream then ret tt
  else line ← joined (c_name cn) user; add user line.

Definition leave_body (cn : Conn) (user : ref) : M unit :=
  line ← left (c_name cn) user; add user line.

Definition valid_length (n : jsstring) : Prop := 1 <= length n <= MAX_NAME_LEN.

Definition negotiating (p : phase) : Prop := p = Authenticating \/ p = Prompting.

Inductive effect (st st' : State) : Prop :=
  | eff_connect :
      users st' = users st -> names st' = names st ->
      conns st' = conns st ++ [new_conn] -> effect st st'
  | eff_closure c cn f :
      users st' = users st -> names st' = names st ->
      conns st !! c = Some cn -> conns st' = alter f c (conns st) ->
      c_stream (f cn) = c_stream cn -> c_name (f cn) = c_name cn ->
      (c_phase (f cn) = c_phase cn \/
       (negotiating (c_phase cn) /\ negotiating (c_phase (f cn)))) ->
      effect st st'
  | eff_accept c cn n :
      users st' = users st -> heap st' = heap st ->
      conns st !! c = Some cn -> negotiating (c_phase cn) ->
      conns st' = alter (set_phase Ready) c (alter (set_name n) c (conns st)) ->
      valid_length n ->
      name_in_use (toLowerCase n) (users st) (heap st) = Normal false ->
      effect st st'
  | eff_shell c cn :
      conns st !! c = Some cn -> c_stream cn = None -> c_phase cn = Ready ->
      users st' = users st ++ [length (heap st)] ->
      names st' = names st ++ [c_name cn] ->
      conns st' = alter (set_stream (length (heap st))) c (conns st) ->
      effect st st'
  | eff_close c cn :
      conns st !! c = Some cn -> c_phase cn <> Closed ->
      users st' = match c_stream cn with
                  | Some stream => splice (indexOf stream (users st)) 1 (users st)
                  | None => users st
                  end ->
      names st' = names st ->
      conns st' = alter (set_phase Closed) c (conns st) ->
      effect st st'
  | eff_sinks :
      users st' = users st -> names st' = names st -> conns st' = conns st ->
      effect st st'.

Record Inv (st : State) : Prop := mkInv {
  inv_nodup : NoDup (users st);
  inv_member : forall r, r ∈ users st -> r < length (names st);
  inv_stream : forall c cn r,
    conns st !! c = Some cn -> c_stream cn = Some r ->
    names st !! r = Some (c_name cn) /\ ~ negotiating (c_phase cn) /\
    (c_phase cn = Ready -> r ∈ users st);
  inv_stream_inj : forall c c' cn cn' r,
    conns st !! c = Some cn -> conns st !! c' = Some cn' ->
    c_stream cn = Some r -> c_stream cn' = Some r -> c = c';
  inv_ready : forall c cn,
    conns st !! c = Some cn -> c_phase cn = Ready -> is_Some (c_name cn);
  inv_conn_name : forall c cn n,
    conns st !! c = Some cn -> c_name cn = Some n -> valid_length n;
  inv_names : forall r o,
    names st !! r = Some o -> exists n, o = Some n /\ valid_length n
}.

Definition broadcast_line (msg : jsstring) (source : ref) (src : Stream) (user : ref)
  : jsstring :=
  if Nat.eqb source user then str "> " ++ msg
  else _parseTags user (str "{cyan-fg}{bold}" ++ to_str (name src) ++ str "{/}")
       ++ str ": " ++ msg.

Definition broadcast_body (msg : jsstring) (source : ref) (src : Stream) (user : ref)
  : M unit :=
  if Nat.eqb source user then add user (str "> " ++ msg)
  else n ← formatMessage (str "{cyan-fg}{bold}" ++ to_str (name src) ++ str "{/}") user;
       add user (n ++ str ": " ++ msg).

(** Accepted by the negotiator, shell not yet set up. *)
Definition awaiting (cn : Conn) : Prop := c_phase cn = Ready /\ c_stream cn = None.

Definition names_distinct (st : State) : Prop :=
  forall r1 r2 n1 n2,
    r1 ∈ users st -> r2 ∈ users st -> r1 <> r2 ->
    member_name st r1 = Some n1 -> member_name st r2 = Some n2 ->
    toLowerCase n1 <> toLowerCase n2.

Definition awaiting_distinct (st : State) : Prop :=
  forall c1 c2 cn1 cn2 n1 n2,
    c1 <> c2 -> conns st !! c1 = Some cn1 -> conns st !! c2 = Some cn2 ->
    awaiting cn1 -> awaiting cn2 ->
    c_name cn1 = Some n1 -> c_name cn2 = Some n2 ->
    toLowerCase n1 <> toLowerCase n2.

Definition member_awaiting_distinct (st : State) : Prop :=
  forall r c cn n1 n2,
    r ∈ users st -> member_name st r = Some n1 ->
    conns st !! c = Some cn -> awaiting cn -> c_name cn = Some n2 ->
    toLowerCase n1 <> toLowerCase n2.

(** The states reached without two sessions that were accepted under
    names equal up to case and both still wait for their shell. *)
Inductive reachable_unraced : State -> Prop :=
  | unraced_init : reachable_unraced init
  | unraced_step st e st' :
      reachable_unraced st -> handle e st = Some st' -> awaiting_distinct st' ->
      reachable_unraced st'.

(** The names under which accepted sessions wait for their shell. *)
Definition awaiting_names (st : State) : list jsstring :=
  omap (fun cn => if is_ready cn && bool_decide (c_stream cn = None)
                  then c_name cn else None) (conns st).

Fixpoint run_unraced (evs : list event) (st : State) : option State :=
  match evs with
  | [] => Some st
  | e :: evs' =>
      st' ← handle e st;
      if bool_decide (NoDup (toLowerCase <$> awaiting_names st'))
      then run_unraced evs' st' else None
  end.

(** Does the event record a terminal size in the closure of connection [c]? *)
Definition records_size (c : nat) (e : event) : bool :=
  match e with
  | Pty c' _ _ _ | WindowChange c' _ _ => Nat.eqb c' c
  | _ => false
  end.

Definition no_size_recorded (st : State) (c : nat) : Prop :=
  forall cn, conns st !! c = Some cn -> c_rows cn = None /\ c_cols cn = None.

(** ** Further notions *)

(** Some member goes under a name that lowers to [lowered]. *)
Definition name_taken (st : State) (lowered : jsstring) : Prop :=
  exists r n, r ∈ users st /\ member_name st r = Some n /\ toLowerCase n = lowered.

(** The prompt that tells why a candidate was not accepted. *)
Definition refusal (nick : jsstring) : jsstring :=
  if length nick =? 0 then MSG_REQUIRED
  else if MAX_NAME_LEN <? length nick then MSG_TOO_LONG
  else MSG_IN_USE.

(** The connection whose shell set the stream up, still open. *)
Definition owner (st : State) (r : ref) (c : nat) : Prop :=
  exists cn, conns st !! c = Some cn /\ c_stream cn = Some r /\ c_phase cn = Ready.

Definition owned (st : State) : Prop :=
  forall r, r ∈ users st -> exists c, owner st r c.

(** Lines made of control units and white space only. *)
Definition blank (line : jsstring) : Prop :=
  Forall (fun c => is_control c || is_space c = true) line.

End Server.

(** ** Reading a count

    The number a text of decimal digits stands for. *)

Definition digit_value (c : N) : option nat :=
  if is_digit c then Some (N.to_nat (c - 48)) else None.

Fixpoint digits_value (acc : nat) (s : jsstring) : option nat :=
  match s with
  | [] => Some acc
  | c :: s' => d ← digit_value c; digits_value (10 * acc + d) s'
  end.

Definition reads_as (s : jsstring) (n : nat) : Prop :=
  s <> [] /\ digits_value 0 s = Some n.

(** ** The sanitizer seen step by step *)

Definition not_control (c : N) : bool := negb (is_control c).

(** Number of control units at the start of a text. *)
Fixpoint control_run (s : jsstring) : nat :=
  match s with
  | c :: s' => if is_control c then S (control_run s') else 0
  | [] => 0
  end.

Definition starts_clean (s : jsstring) : Prop :=
  match s with c :: _ => is_space c = false | [] => True end.

Definition ends_in_space (s : jsstring) : bool :=
  match last s with Some c => is_space c | None => false end.

Definition cut (s : jsstring) : jsstring :=
  if MAX_MSG_LEN <? length s then substring0 MAX_MSG_LEN s else s.

(** The line of 127 letters, a blank and one more letter. *)
Definition long_line : jsstring := repeat 97%N 127 ++ str " b".

(** ** Concrete runs *)

(** A lowering of the ASCII letters, to run examples with. *)
Definition ascii_lower (s : jsstring) : jsstring :=
  map (fun c => if (65 <=? c)%N && (c <=? 90)%N then (c + 32)%N else c) s.
Definition plain_tags (_ : ref) (s : jsstring) : jsstring := s.

Definition geometry (st : State) (r : ref) : option (N * N) :=
  s ← heap st !! r; Some (rows s, columns s).

Definition ann : jsstring := str "ann".
Definition bob : jsstring := str "bob".
Definition cy : jsstring := str "cy".
Definition none : jsstring := str "none".

Definition three_join : list event :=
  [Connect; Authentication 0 ann none; Shell 0;
   Connect; Authentication 1 bob none; Shell 1;
   Connect; Authentication 2 cy none; Shell 2].

(** Three members, all sinks in order. *)
Definition three_members : State :=
  Eval vm_compute in default init (run ascii_lower plain_tags three_join init).

(** Three members, the sink of the second one raises. *)
Definition second_sink_broken : State :=
  Eval vm_compute in
    default init (run ascii_lower plain_tags (three_join ++ [SinkState 1 false]) init).

(** One member, and a second session accepted and waiting for its shell. *)
Definition bob_waiting : State :=
  Eval vm_compute in
    default init (run ascii_lower plain_tags
      [Connect; Authentication 0 ann none; Shell 0;
       Connect; Authentication 1 bob none] init).

(** Two sessions negotiate "Alice" and "alice" before either has a shell. *)
Definition race : list event :=
  [Connect; Connect;
   Authentication 0 (str "Alice") none; Authentication 1 (str "alice") none;
   Shell 0; Shell 1].

Definition two_alices : State :=
  Eval vm_compute in default init (run ascii_lower plain_tags race init).

(** A session accepted, with a pseudo-terminal of 0 rows and 100 columns. *)
Definition zero_rows : State :=
  Eval vm_compute in
    default init (run ascii_lower plain_tags
      [Connect; Authentication 0 ann none; Pty 0 0%N 100%N (str "xterm")] init).

Definition bob_closure : Conn := mkConn Ready None (Some bob) None None None false.

Definition bob_chatting : Conn := mkConn Ready (Some 1) (Some bob) None None None false.

Definition ann_closure : Conn :=
  mkConn Ready None (Some ann) (Some 0%N) (Some 100%N) (Some (str "xterm")) true.

(** ** Start-up: [checkAuth], [loadHostKeys], [createServer]

    Whether the process runs as root and what [readFileSync] finds are
    given from outside: [files] maps a path to the content of the file, or
    to [None] where reading it throws. Each function returns the paths it
    has asked [readFileSync] for, in order, beside its completion.

    The constructor of the transport's [Server] and its [listen] are given
    from outside as well: [new_Server hostKeys] tells whether the
    constructor returns for these host keys or throws, [listen port]
    whether the port can be bound. A port that cannot be bound is reported
    by an [error] event of the server, for which the script installs no
    listener, so that the event ends the process. *)

Inductive startup_error :=
  | NotRoot (message : jsstring)
  | ReadFailed (path : jsstring)
  | ServerFailed
  | ListenFailed (port : N).

Inductive outcome (A : Type) :=
  | Returned (a : A)
  | Raised (e : startup_error).
Arguments Returned {A} a.
Arguments Raised {A} e.

Definition checkAuth (isRoot : bool) : outcome unit :=
  if negb isRoot then Raised (NotRoot (str "Please try root run app!"))
  else Returned tt.

(** [path.join(dir, key)] for a directory without a trailing separator and
    a plain file name. *)
Definition path_join (dir key : jsstring) : jsstring := dir ++ str "/" ++ key.

Definition HOST_KEY_DIR : jsstring := str "/etc/ssh".
Definition HOST_KEY_FILES : list jsstring :=
  [str "ssh_host_dsa_key"; str "ssh_host_ecdsa_key";
   str "ssh_host_ed25519_key"; str "ssh_host_rsa_key"].

(** [keys.map((key) => readFileSync(path.join(dir, key)))]: the first
    read that throws ends the map. *)
Fixpoint read_keys (files : jsstring -> option (list N)) (dir : jsstring)
    (keys : list jsstring) : list jsstring * outcome (list (list N)) :=
  match keys with
  | [] => ([], Returned [])
  | key :: keys' =>
      let p := path_join dir key in
      match files p with
      | None => ([p], Raised (ReadFailed p))
      | Some content =>
          let '(reads, r) := read_keys files dir keys' in
          (p :: reads,
           match r with
           | Returned contents => Returned (content :: contents)
           | Raised e => Raised e
           end)
      end
  end.

Definition loadHostKeys (isRoot : bool) (files : jsstring -> option (list N))
  : list jsstring * outcome (list (list N)) :=
  match checkAuth isRoot with
  | Raised e => ([], Raised e)
  | Returned _ => read_keys files HOST_KEY_DIR HOST_KEY_FILES
  end.

(** [new Server({ hostKeys: loadHostKeys() }, ...).listen(8888, ...)]: the
    host keys the server is made with and the port it listens on. The
    arguments are evaluated first, then the constructor runs, then
    [listen]. *)
Definition createServer (isRoot : bool) (files : jsstring -> option (list N))
    (new_Server : list (list N) -> bool) (listen : N -> bool)
  : list jsstring * outcome (list (list N) * N) :=
  match loadHostKeys isRoot files with
  | (reads, Returned hostKeys) =>
      if new_Server hostKeys then
        if listen 8888%N then (reads, Returned (hostKeys, 8888%N))
        else (reads, Raised (ListenFailed 8888%N))
      else (reads, Raised ServerFailed)
  | (reads, Raised e) => (reads, Raised e)
  end.

(** ** The bootstrap script: [isPipe], [stdioResult], [promiseSpawn] *)

(** The JavaScript values the script handles. *)
#[warnings="-register-all"]
Inductive jsval :=
  | VUndefined
  | VNull
  | VBool (b : bool)
  | VNumber (z : Z)
  | VString (s : jsstring)
  | VBuffer (bytes : list N)
  | VArray (items : list jsval).

(** What [||] and [? :] take for true. *)
Definition truthy (v : jsval) : bool :=
  match v with
  | VUndefined | VNull => false
  | VBool b => b
  | VNumber z => negb (z =? 0)%Z
  | VString s => match s with [] => false | _ => true end
  | VBuffer _ | VArray _ => true
  end.

(** [isPipe(stdio = "pipe", fd)]: an undefined argument, and so a missing
    array entry, takes the default. *)
Fixpoint isPipe (stdio : jsval) (fd : nat) : bool :=
  match stdio with
  | VUndefined => true
  | VNull => true
  | VString s => str_eqb s (str "pipe")
  | VArray items =>
      (fix entry (l : list jsval) (n : nat) : bool :=
         match l with
         | [] => true
         | v :: l' => match n with O => isPipe v fd | S n' => entry l' n' end
         end) items fd
  | _ => false
  end.

(** Objects, as far as their own properties go. *)
Abbreviation object := (gmap (list N) jsval) (only parsing).

(** The two options [stdioResult] reads; a field the caller left out is
    undefined. *)
Record StdioOpts := mkStdioOpts {
  stdioString : jsval;
  stdio : jsval
}.

(** What the child process reports. An error object is named by its
    reference: the object an [error] event carries, the object
    [Object.assign] writes to and the reason of the rejection are one and
    the same object, and the same object can be reported more than once. *)
Inductive proc_event :=
  | ProcError (er : ref)
  | StdoutData (c : list N)
  | StdoutError (er : ref)
  | StderrData (c : list N)
  | StderrError (er : ref)
  | ProcClose (code signal : jsval).

(** A promise is resolved with the object literal built at the close,
    which nothing else refers to, and rejected with an error object. *)
Inductive promise :=
  | Pending
  | Resolved (value : object)
  | Rejected (reason : ref).

(** The arrays [stdout] and [stderr] of chunks, the promise, and the error
    objects by reference. *)
Record Spawned := mkSpawned {
  out_chunks : list (list N);
  err_chunks : list (list N);
  settled : promise;
  objects : list object
}.

Section Bootstrap.

(** [Buffer.prototype.toString] is a built-in. *)
Variable toString : list N -> jsstring.

Definition stdioResult (stdout stderr : list (list N)) (opts : option StdioOpts)
  : object :=
  let stdioString := match opts with Some o => stdioString o | None => VUndefined end in
  let stdio := match opts with Some o => stdio o | None => VUndefined end in
  if truthy stdioString then
    <[str "stdout" := if isPipe stdio 1 then VString (toString (List.concat stdout))
                      else VNull]>
      (<[str "stderr" := if isPipe stdio 2 then VString (toString (List.concat stderr))
                         else VNull]> ∅)
  else
    <[str "stdout" := if isPipe stdio 1 then VBuffer (List.concat stdout) else VNull]>
      (<[str "stderr" := if isPipe stdio 2 then VBuffer (List.concat stderr)
                         else VNull]> ∅).

(** The arguments of [promiseSpawn] and whether the child has the streams
    [proc.stdout] and [proc.stderr]. *)
Variable cmd : jsstring.
Variable args : jsval.
Variable opts : option StdioOpts.
Variable extra : object.
Variable has_stdout has_stderr : bool.

(** The error objects the child and its streams may report, as they are
    before the script writes to them. *)
Variable errors : list object.

(** [resolve] and [reject] of a promise act once. *)
Definition settle_once (p : promise) (s : Spawned) : Spawned :=
  match settled s with
  | Pending => mkSpawned (out_chunks s) (err_chunks s) p (objects s)
  | _ => s
  end.

(** [Object.assign(target, source)]: the properties of the source are
    written to the object behind the reference. *)
Definition assign (target : ref) (source : object) (s : Spawned) : Spawned :=
  mkSpawned (out_chunks s) (err_chunks s) (settled s)
            (alter (fun o => source ∪ o) target (objects s)).

(** [new Error(...)], with the properties given: a new object. *)
Definition alloc (o : object) (s : Spawned) : Spawned :=
  mkSpawned (out_chunks s) (err_chunks s) (settled s) (objects s ++ [o]).

(** [{ cmd, args, ...stdioResult(stdout, stderr, opts), ...extra }]: a
    later source wins. *)
Definition described (s : Spawned) : object :=
  extra ∪ stdioResult (out_chunks s) (err_chunks s) opts
    ∪ <[str "cmd" := VString cmd]> (<[str "args" := args]> ∅).

(** [reject(er)]: [Object.assign(er, {...})], on every call, and [rej]
    with the object that was assigned to. *)
Definition reject (er : ref) (s : Spawned) : Spawned :=
  settle_once (Rejected er) (assign er (described s) s).

(** The object built when the child closes. *)
Definition closed_result (code signal : jsval) (s : Spawned) : object :=
  extra ∪ stdioResult (out_chunks s) (err_chunks s) opts
    ∪ <[str "cmd" := VString cmd]>
        (<[str "args" := args]>
           (<[str "code" := code]> (<[str "signal" := signal]> ∅))).

Definition COMMAND_FAILED : object :=
  <[str "message" := VString (str "command failed")]> ∅.

(** The listeners [promiseSpawn] installs. *)
Definition on_proc_event (e : proc_event) (s : Spawned) : Spawned :=
  match e with
  | ProcError er => reject er s
  | StdoutData c =>
      if has_stdout
      then mkSpawned (out_chunks s ++ [c]) (err_chunks s) (settled s) (objects s)
      else s
  | StdoutError er => if has_stdout then reject er (reject er s) else s
  | StderrData c =>
      if has_stderr
      then mkSpawned (out_chunks s) (err_chunks s ++ [c]) (settled s) (objects s)
      else s
  | StderrError er => if has_stderr then reject er (reject er s) else s
  | ProcClose code signal =>
      let result := closed_result code signal s in
      if truthy code || truthy signal
      then settle_once (Rejected (length (objects s))) (alloc (result ∪ COMMAND_FAILED) s)
      else settle_once (Resolved result) s
  end.

Definition spawned : Spawned := mkSpawned [] [] Pending errors.

Definition proc_run (evs : list proc_event) (s : Spawned) : Spawned :=
  foldl (fun s e => on_proc_event e s) s evs.

(** The events after which the promise is no longer pending. *)
Definition settles (e : proc_event) : bool :=
  match e with
  | ProcError _ | ProcClose _ _ => true
  | StdoutError _ => has_stdout
  | StderrError _ => has_stderr
  | StdoutData _ | StderrData _ => false
  end.

(** The events that call [reject] with the object [r]. *)
Definition rejects_with (r : ref) (e : proc_event) : bool :=
  match e with
  | ProcError er => Nat.eqb er r
  | StdoutError er => has_stdout && Nat.eqb er r
  | StderrError er => has_stderr && Nat.eqb er r
  | _ => false
  end.

(** The chunks a run of events leaves in the two arrays. *)
Definition stdout_of (evs : list proc_event) : list (list N) :=
  if has_stdout
  then omap (fun e => match e with StdoutData c => Some c | _ => None end) evs
  else [].

Definition stderr_of (evs : list proc_event) : list (list N) :=
  if has_stderr
  then omap (fun e => match e with StderrData c => Some c | _ => None end) evs
  else [].

End Bootstrap.

(** ** More concrete runs *)

(** Three members and a fourth connection that has not authenticated. *)
Definition one_negotiating : State :=
  Eval vm_compute in
    default init (run ascii_lower plain_tags (three_join ++ [Connect]) init).

Definition stranger : Conn := mkConn Authenticating None None None None None false.

(** File systems with every key file, and with none. *)
Definition all_readable (_ : jsstring) : option (list N) := Some [1%N].
Definition none_readable (_ : jsstring) : option (list N) := None.

(** A constructor that takes every key, one that takes none, and ports
    that are all free. *)
Definition any_keys (_ : list (list N)) : bool := true.
Definition no_keys (_ : list (list N)) : bool := false.
Definition free_port (_ : N) : bool := true.

(** A child process with both streams, spawned without options. *)
Definition latin1 (bytes : list N) : jsstring := bytes.
Definition sudo : jsstring := str "sudo".
Definition node_app : jsval := VArray [VString (str "node"); VString (str "app.js")].

Definition chatty_then_clean : list proc_event :=
  [StdoutData [104%N; 105%N]; StderrData [33%N]; ProcClose (VNumber 0) VNull].

(** An error object, and a child whose stdout reports it twice, with a
    chunk before each report. *)
Definition boom : gmap (list N) jsval := <[str "message" := VString (str "boom")]> ∅.

Definition fails_twice : list proc_event :=
  [StdoutData [104%N]; StdoutError 0; StdoutData [120%N]; StdoutError 0].

(** * Properties *)

(** ** The sanitizer *)

Module SanitizerFacts.

Lemma plus_cls_rest p s rest :
  Regex.plus_cls p s Some = Some rest -> length rest <= length s.
Proof.
  revert rest. induction s as [|c s IH]; intros rest; simpl; [done|].
  destruct (p c); [|done].
  destruct (Regex.plus_cls p s Some) as [r|] eqn:E; simpl.
  - intros [= <-]. specialize (IH r eq_refl). lia.
  - intros [= <-]. lia.
Qed.

Lemma exec_plus_control s :
  Regex.exec (Regex.plus_cls is_control) s =
  match control_run s with 0 => None | n => Some n end.
Proof.
  unfold Regex.exec.
  assert (H : forall s, Regex.plus_cls is_control s Some =
            match control_run s with 0 => None | _ => Some (drop (control_run s) s) end).
  { clear s. induction s as [|c s IH]; simpl; [done|].
    destruct (is_control c); [|done]. rewrite IH.
    destruct (control_run s); simpl; [by rewrite drop_0|done]. }
  rewrite H. assert (L : control_run s <= length s).
  { clear H. induction s as [|c s IH]; simpl; [lia|]. destruct (is_control c); simpl; lia. }
  destruct (control_run s) as [|n] eqn:E; [done|].
  rewrite length_drop. f_equal. lia.
Qed.

(** The second alternative starts with ESC, which the first alternative's
    class contains, so at no position is it the one that matches. *)
Lemma RE_ANSI_starts_with_control s k :
  control_run s = 0 -> RE_ANSI s k = None.
Proof.
  destruct s as [|c s]; [done|]. simpl. unfold RE_ANSI, Regex.seq, Regex.cls at 1.
  destruct (is_control c) eqn:C; [done|]. intros _.
  unfold is_unit. destruct (N.eqb_spec c 27) as [->|]; [done|done].
Qed.

Lemma exec_RE_SPECIAL s :
  Regex.exec RE_SPECIAL s = Regex.exec (Regex.plus_cls is_control) s.
Proof.
  unfold Regex.exec, RE_SPECIAL, Regex.alt, Regex.or_else.
  pose proof (exec_plus_control s) as E. unfold Regex.exec in E.
  destruct (Regex.plus_cls is_control s Some) eqn:P; [done|].
  rewrite RE_ANSI_starts_with_control; [done|].
  destruct (control_run s); [done|discriminate].
Qed.

Lemma remove_from_controls s n :
  n <= control_run s ->
  Regex.remove_from RE_SPECIAL n s = List.filter not_control s.
Proof.
  revert n. induction s as [|c s IH]; intros n Hn; [done|].
  simpl Regex.remove_from. simpl List.filter. unfold not_control at 1.
  destruct n as [|n].
  - rewrite exec_RE_SPECIAL, exec_plus_control. simpl control_run.
    destruct (is_control c); simpl.
    + apply IH. lia.
    + f_equal. apply IH. lia.
  - simpl in Hn. destruct (is_control c); simpl; [apply IH; lia | lia].
Qed.

(** What the replacement removes: every control unit, and nothing else. *)
Lemma remove_all_controls s :
  Regex.remove_all RE_SPECIAL s = List.filter not_control s.
Proof. apply remove_from_controls. lia. Qed.

Lemma filter_clean s :
  Forall (fun c => not_control c = true) s -> List.filter not_control s = s.
Proof. induction 1 as [|c s Hc _ IH]; simpl; [done|]. by rewrite Hc, IH. Qed.

Lemma filter_is_clean s : Forall (fun c => not_control c = true) (List.filter not_control s).
Proof.
  induction s as [|c s IH]; simpl; [constructor|].
  destruct (not_control c) eqn:E; [by constructor|done].
Qed.

(** *** Trimming *)

Lemma trimStart_starts_clean s : starts_clean (trimStart s).
Proof.
  induction s as [|c s IH]; simpl; [done|]. by destruct (is_space c) eqn:E.
Qed.

Lemma trimStart_id s : starts_clean s -> trimStart s = s.
Proof. destruct s as [|c s]; simpl; [done|]. by intros ->. Qed.

Lemma trimStart_Forall (P : N -> Prop) s : Forall P s -> Forall P (trimStart s).
Proof.
  induction 1 as [|c s Hc Hs IH]; simpl; [constructor|].
  destruct (is_space c); [done|by constructor].
Qed.

Lemma trimStart_snoc s c :
  trimStart (s ++ [c]) =
  match trimStart s with
  | [] => if is_space c then [] else [c]
  | r => r ++ [c]
  end.
Proof.
  induction s as [|a s IH]; simpl; [done|].
  destruct (is_space a); [done|done].
Qed.

(** [trimEnd] walks the text from its end; seen from the front: *)
Lemma trimEnd_cons c s :
  trimEnd (c :: s) =
  match trimEnd s with
  | [] => if is_space c then [] else [c]
  | r => c :: r
  end.
Proof.
  unfold trimEnd. simpl rev. rewrite trimStart_snoc.
  destruct (trimStart (rev s)) as [|a r]; simpl.
  - by destruct (is_space c).
  - rewrite rev_app_distr. simpl. by destruct (rev r ++ [a]) eqn:E; [destruct (rev r)|].
Qed.

Lemma trimEnd_nil : trimEnd [] = [].
Proof. done. Qed.

Lemma trimEnd_starts_clean s : starts_clean s -> starts_clean (trimEnd s).
Proof.
  destruct s as [|c s]; [done|]. simpl. intros Hc. rewrite trimEnd_cons.
  destruct (trimEnd s); [by rewrite Hc|done].
Qed.

Lemma trimEnd_Forall (P : N -> Prop) s : Forall P s -> Forall P (trimEnd s).
Proof.
  induction 1 as [|c s Hc Hs IH]; [constructor|]. rewrite trimEnd_cons.
  destruct (trimEnd s) as [|a r]; [destruct (is_space c); by repeat constructor|].
  by constructor.
Qed.

Lemma trimEnd_length s : length (trimEnd s) <= length s.
Proof.
  induction s as [|c s IH]; [done|]. rewrite trimEnd_cons.
  destruct (trimEnd s); [destruct (is_space c)|]; simpl in *; lia.
Qed.

Lemma trimEnd_id s : ends_in_space s = false -> trimEnd s = s.
Proof.
  unfold ends_in_space. induction s as [|c s IH]; [done|].
  rewrite trimEnd_cons. destruct s as [|a s].
  - simpl. by intros ->.
  - rewrite last_cons_cons. intros H. by rewrite (IH H).
Qed.

Lemma trimEnd_fixed s : trimEnd s = s -> ends_in_space s = false.
Proof.
  unfold ends_in_space. induction s as [|c s IH]; [done|].
  rewrite trimEnd_cons. destruct s as [|a s].
  - simpl. by destruct (is_space c).
  - rewrite last_cons_cons. destruct (trimEnd (a :: s)) eqn:E.
    + destruct (is_space c); [done|]. intros [=].
    + intros [= E1 E2]. apply IH. congruence.
Qed.

(** *** The whole pipeline *)

Lemma sanitize_unfold x :
  sanitize x = cut (trim (List.filter not_control x)).
Proof. unfold sanitize, cut. by rewrite remove_all_controls. Qed.

Lemma cut_length s : length (cut s) <= MAX_MSG_LEN.
Proof.
  unfold cut, substring0, MAX_MSG_LEN.
  destruct (Nat.ltb_spec 128 (length s)); [rewrite length_take|]; lia.
Qed.

Lemma cut_short s : length s <= MAX_MSG_LEN -> cut s = s.
Proof.
  unfold cut, MAX_MSG_LEN. intros H. destruct (Nat.ltb_spec 128 (length s)); [lia|done].
Qed.

Lemma cut_Forall (P : N -> Prop) s : Forall P s -> Forall P (cut s).
Proof.
  unfold cut, substring0. destruct (_ <? _); [apply Forall_take|done].
Qed.

Lemma cut_starts_clean s : starts_clean s -> starts_clean (cut s).
Proof.
  unfold cut, substring0, MAX_MSG_LEN. destruct (_ <? _); [|done].
  by destruct s.
Qed.

(** The truncation law. *)
Lemma sanitize_length x : length (sanitize x) <= MAX_MSG_LEN.
Proof. rewrite sanitize_unfold. apply cut_length. Qed.

Lemma sanitize_no_control x : Forall (fun c => not_control c = true) (sanitize x).
Proof.
  rewrite sanitize_unfold. apply cut_Forall, trimEnd_Forall, trimStart_Forall, filter_is_clean.
Qed.

Lemma sanitize_starts_clean x : starts_clean (sanitize x).
Proof.
  rewrite sanitize_unfold.
  apply cut_starts_clean, trimEnd_starts_clean, trimStart_starts_clean.
Qed.

(** A second pass can only take trailing white space off. *)
Lemma sanitize_twice x : sanitize (sanitize x) = trimEnd (sanitize x).
Proof.
  rewrite (sanitize_unfold (sanitize x)).
  rewrite (filter_clean _ (sanitize_no_control x)).
  unfold trim. rewrite (trimStart_id _ (sanitize_starts_clean x)).
  apply cut_short. etrans; [apply trimEnd_length|apply sanitize_length].
Qed.

Lemma trim_ends_clean s : ends_in_space (trim s) = false.
Proof.
  apply trimEnd_fixed. unfold trim.
  generalize (trimStart s). intros t. unfold trimEnd.
  rewrite rev_involutive. by rewrite (trimStart_id _ (trimStart_starts_clean _)).
Qed.

(** Texts that fit are left without trailing white space. *)
Lemma sanitize_short_ends_clean x :
  length (trim (Regex.remove_all RE_SPECIAL x)) <= MAX_MSG_LEN ->
  ends_in_space (sanitize x) = false.
Proof.
  intros H. rewrite sanitize_unfold. rewrite remove_all_controls in H.
  rewrite (cut_short _ H). apply trim_ends_clean.
Qed.

End SanitizerFacts.

(** C3, as stated, fails: the cut at 128 units comes after the trim, so it
    can leave a blank at the end, which a second pass trims off. *)
Lemma sanitize_not_idempotent :
  sanitize (sanitize long_line) <> sanitize long_line.
Proof. vm_compute. discriminate. Qed.

(** C3, amended: sanitizing is idempotent on every input whose sanitized
    text does not end in a white-space unit. *)
Theorem sanitize_idempotent_unless_cut_at_space (x : jsstring) :
  ends_in_space (sanitize x) = false ->
  sanitize (sanitize x) = sanitize x.
Proof.
  intros H. rewrite SanitizerFacts.sanitize_twice. by apply SanitizerFacts.trimEnd_id.
Qed.

(** C3, amended, on a short line with blanks around it. *)
Lemma sanitize_idempotent_witness :
  ends_in_space (sanitize (str "  hello world  ")) = false /\
  sanitize (sanitize (str "  hello world  ")) = sanitize (str "  hello world  ").
Proof.
  split; [reflexivity|].
  apply (sanitize_idempotent_unless_cut_at_space (str "  hello world  ")). reflexivity.
Defined.

(** C4: on a colour sequence the code removes only the ESC unit; the rest
    of the sequence stays in the text that is broadcast. *)
Theorem sanitize_leaves_ansi_parameters :
  sanitize (ESC :: str "[31mhi") = str "[31mhi".
Proof. reflexivity. Qed.

(** ** More on the sanitizer *)

Section SanitizerMore.

Import SanitizerFacts.

Lemma trimStart_all_space s :
  Forall (fun c => is_space c = true) s -> trimStart s = [].
Proof. induction 1 as [|c s Hc _ IH]; simpl; [done|]. by rewrite Hc. Qed.

Lemma trimEnd_trimEnd s : trimEnd (trimEnd s) = trimEnd s.
Proof.
  unfold trimEnd. rewrite rev_involutive.
  by rewrite (trimStart_id _ (trimStart_starts_clean _)).
Qed.

Lemma blank_sanitize line : blank line -> sanitize line = [].
Proof.
  intros B. rewrite sanitize_unfold.
  assert (H : Forall (fun c => is_space c = true) (List.filter not_control line)).
  { induction B as [|c s Hc _ IH]; simpl; [constructor|].
    unfold not_control at 1. destruct (is_control c) eqn:E; simpl; [done|].
    constructor; [|done]. exact Hc. }
  unfold trim. by rewrite (trimStart_all_space _ H).
Qed.

(** X2: what the three steps of the submit handler compute: the global
    replacement takes out exactly the control units (the alternative for
    ANSI sequences never matches), then the text is trimmed, then cut to
    its first 128 units. *)
Theorem sanitize_is_strip_trim_cut (x : jsstring) :
  sanitize x =
    let t := trim (List.filter (fun c => negb (is_control c)) x) in
    if 128 <? length t then take 128 t else t.
Proof. apply sanitize_unfold. Qed.

(** X3: the text that is broadcast has at most 128 units, contains no
    control unit, and does not start with white space. *)
Theorem sanitize_output_shape (x : jsstring) :
  length (sanitize x) <= 128 /\
  Forall (fun c => is_control c = false) (sanitize x) /\
  match head (sanitize x) with
  | Some c => is_space c = false
  | None => True
  end.
Proof.
  split; [apply sanitize_length|]. split.
  - eapply Forall_impl; [apply sanitize_no_control|].
    intros c. unfold not_control. by destruct (is_control c).
  - pose proof (sanitize_starts_clean x) as H. by destruct (sanitize x).
Qed.

(** X4: a text without control units, without white space at either end
    and of at most 128 units passes unchanged. *)
Theorem sanitize_keeps_clean_text (x : jsstring) :
  Forall (fun c => is_control c = false) x ->
  starts_clean x -> ends_in_space x = false -> length x <= 128 ->
  sanitize x = x.
Proof.
  intros C S E L. rewrite sanitize_unfold.
  rewrite filter_clean.
  - unfold trim. rewrite (trimStart_id _ S), (trimEnd_id _ E). by apply cut_short.
  - eapply Forall_impl; [exact C|]. intros c Hc. unfold not_control. by rewrite Hc.
Qed.

(** X5: two passes reach a fixed point: what a second pass returns is
    left unchanged by every further pass. *)
Theorem sanitize_twice_is_stable (x : jsstring) :
  sanitize (sanitize (sanitize x)) = sanitize (sanitize x).
Proof.
  rewrite (sanitize_twice (sanitize x)). rewrite (sanitize_twice x).
  apply trimEnd_trimEnd.
Qed.

End SanitizerMore.

(** ** The server *)

Section MonadFacts.

Lemma bind_unfold {A B} (m : M A) (k : A -> M B) st :
  (m ≫= k) st =
  match m st with
  | (st', Normal a) => k a st'
  | (st', Throw e) => (st', Throw e)
  end.
Proof. reflexivity. Qed.

Lemma bind_normal {A B} (m : M A) (k : A -> M B) st st' a :
  m st = (st', Normal a) -> (m ≫= k) st = k a st'.
Proof. intros H. by rewrite bind_unfold, H. Qed.

Lemma bind_throw {A B} (m : M A) (k : A -> M B) st st' e :
  m st = (st', Throw e) -> (m ≫= k) st = (st', Throw e).
Proof. intros H. by rewrite bind_unfold, H. Qed.

Lemma same_frame_refl st : same_frame st st.
Proof. done. Qed.

Lemma same_frame_trans st1 st2 st3 :
  same_frame st1 st2 -> same_frame st2 st3 -> same_frame st1 st3.
Proof. intros (?&?&?) (?&?&?). repeat split; congruence. Qed.

Lemma same_frame_lookup st st' r s' :
  same_frame st st' -> heap st' !! r = Some s' ->
  exists s, heap st !! r = Some s /\ core s = core s'.
Proof.
  intros (_&_&H) Hr.
  assert (E : (core <$> heap st) !! r = Some (core s')).
  { by rewrite <- H, list_lookup_fmap, Hr. }
  rewrite list_lookup_fmap in E. destruct (heap st !! r) as [s|]; [|done].
  exists s. split; [done|]. simpl in E. congruence.
Qed.

Lemma same_frame_sym st st' : same_frame st st' -> same_frame st' st.
Proof. intros (?&?&?). repeat split; congruence. Qed.

Lemma same_frame_length st st' : same_frame st st' -> length (heap st') = length (heap st).
Proof.
  intros (_&_&H). apply (f_equal length) in H. by rewrite !length_fmap in H.
Qed.

Lemma same_frame_accepts st st' r :
  same_frame st st' -> accepts_writes st r -> accepts_writes st' r.
Proof.
  intros F (s & Hs & W).
  destruct (same_frame_lookup st' st r s (same_frame_sym _ _ F) Hs) as (s' & Hs' & C).
  exists s'. split; [done|]. unfold core in C. congruence.
Qed.

Lemma framed_ret {A} (a : A) : framed (ret a).
Proof. intros st. apply same_frame_refl. Qed.

Lemma framed_throw {A} e : framed (@throw A e).
Proof. intros st. apply same_frame_refl. Qed.

Lemma framed_get : framed get.
Proof. intros st. apply same_frame_refl. Qed.

Lemma framed_bind {A B} (m : M A) (k : A -> M B) :
  framed m -> (forall a, framed (k a)) -> framed (m ≫= k).
Proof.
  intros Hm Hk st. rewrite bind_unfold. specialize (Hm st).
  destruct (m st) as [st' [a|e]]; simpl in *; [|done].
  eapply same_frame_trans; [done|apply Hk].
Qed.

Lemma framed_for_of {X} (l : list X) (body : X -> M unit) :
  (forall x, framed (body x)) -> framed (for_of l body).
Proof.
  intros H. induction l as [|x l IH]; simpl; [apply framed_ret|].
  apply framed_bind; [apply H|done].
Qed.

Lemma framed_deref r : framed (deref r).
Proof. intros st. unfold deref. destruct (heap st !! r); apply same_frame_refl. Qed.

Lemma alter_core (f : Stream -> Stream) r (h : list Stream) :
  (forall s, core (f s) = core s) -> core <$> alter f r h = core <$> h.
Proof.
  intros Hf. apply list_eq. intros i. rewrite !list_lookup_fmap, list_lookup_alter.
  destruct (decide (r = i)) as [->|]; [|done].
  destruct (h !! i); simpl; [by rewrite Hf|done].
Qed.

Lemma framed_update r f : (forall s, core (f s) = core s) -> framed (update r f).
Proof.
  intros Hf st. unfold update. rewrite bind_unfold. unfold deref.
  destruct (heap st !! r); simpl; [|done].
  repeat split. by apply alter_core.
Qed.

Lemma framed_add r l : framed (add r l).
Proof.
  unfold add. apply framed_bind; [apply framed_deref|]. intros s.
  destruct (writable (output s)); [by apply framed_update|apply framed_throw].
Qed.

Lemma lookup_sink st r s : heap st !! r = Some s -> sink st r = lines (output s).
Proof. unfold sink. by intros ->. Qed.

Lemma update_run st r s f :
  heap st !! r = Some s ->
  update r f st = (set_heap (alter f r) st, Normal tt).
Proof. intros H. unfold update. rewrite bind_unfold. unfold deref. by rewrite H. Qed.

Lemma sink_alter st r f q :
  sink (set_heap (alter f r) st) q =
  match heap st !! q with
  | Some s => lines (output (if decide (r = q) then f s else s))
  | None => []
  end.
Proof.
  unfold sink. simpl. destruct (decide (r = q)) as [<-|].
  - rewrite list_lookup_alter_eq. by destruct (heap st !! r).
  - rewrite list_lookup_alter_ne by done. by destruct (heap st !! q).
Qed.

Lemma sink_alter_lines st r f q :
  (forall s, lines (output (f s)) = lines (output s)) ->
  sink (set_heap (alter f r) st) q = sink st q.
Proof.
  intros Hf. rewrite sink_alter. unfold sink.
  destruct (heap st !! q); [|done]. by destruct (decide (r = q)).
Qed.

(** A successful [add] appends the line to that sink, and to no other. *)
Lemma add_run st r l :
  accepts_writes st r ->
  exists st', add r l st = (st', Normal tt) /\
    forall q, sink st' q = sink st q ++ (if decide (q = r) then [l] else []).
Proof.
  intros (s & Hs & W). eexists. split.
  - unfold add. rewrite bind_unfold. unfold deref at 1. rewrite Hs, W.
    by apply (update_run st r s).
  - intros q. rewrite sink_alter. unfold sink.
    destruct (decide (q = r)) as [->|].
    + rewrite Hs. by rewrite decide_True.
    + destruct (heap st !! q); rewrite ?decide_False by done; by rewrite app_nil_r.
Qed.

(** An [add] on a sink that raises changes nothing. *)
Lemma add_fails st r s l :
  heap st !! r = Some s -> writable (output s) = false ->
  add r l st = (st, Throw SinkError).
Proof.
  intros Hs W. unfold add. rewrite bind_unfold. unfold deref. by rewrite Hs, W.
Qed.

(** The loop that delivers: every body writes [new u] to the sink of [u]
    and to nothing else. *)
Lemma for_of_delivers (body : ref -> M unit) (new : ref -> list jsstring) us :
  (forall u, framed (body u)) ->
  (forall u st, u ∈ us -> accepts_writes st u ->
     exists st', body u st = (st', Normal tt) /\
       forall q, sink st' q = sink st q ++ (if decide (q = u) then new u else [])) ->
  forall st, NoDup us -> (forall u, u ∈ us -> accepts_writes st u) ->
  exists st', for_of us body st = (st', Normal tt) /\
    forall q, sink st' q = sink st q ++ (if decide (q ∈ us) then new q else []).
Proof.
  intros F. induction us as [|u us IH]; intros B st ND W.
  - exists st. split; [done|]. intros q. rewrite decide_False; [by rewrite app_nil_r|].
    apply not_elem_of_nil.
  - apply NoDup_cons in ND as [Hu ND].
    destruct (B u st) as (st1 & E1 & S1); [left|apply W; left|].
    destruct (IH (fun v st Hv => B v st (list_elem_of_further _ _ _ Hv)) st1 ND)
      as (st2 & E2 & S2).
    { intros v Hv. apply (same_frame_accepts st); [|apply W; by right].
      specialize (F u st). by rewrite E1 in F. }
    exists st2. split.
    { simpl. by rewrite (bind_normal _ _ _ _ _ E1). }
    intros q. rewrite S2, S1, <- app_assoc. f_equal.
    destruct (decide (q = u)) as [->|Hq].
    + rewrite decide_False by done. rewrite decide_True by left. by rewrite app_nil_r.
    + destruct (decide (q ∈ us)).
      * by rewrite decide_True by (by right).
      * rewrite decide_False; [done|]. by intros [?|?]%elem_of_cons.
Qed.

Lemma for_of_app {X} (l1 l2 : list X) (body : X -> M unit) st :
  for_of (l1 ++ l2) body st = (for_of l1 body ;; for_of l2 body) st.
Proof.
  revert st. induction l1 as [|x l1 IH]; intros st; simpl.
  - done.
  - rewrite !bind_unfold. destruct (body x st) as [st1 [[]|e]]; [|done].
    rewrite IH. by rewrite bind_unfold.
Qed.

End MonadFacts.

(** *** [indexOf] and [splice] *)

Section ArrayFacts.

Lemma indexOf_absent (x : ref) (l : list ref) : x ∉ l -> indexOf x l = (-1)%Z.
Proof.
  induction l as [|y l IH]; [done|]. intros [Hy Hl]%not_elem_of_cons. simpl.
  destruct (Nat.eqb_spec y x) as [->|_]; [done|]. by rewrite (IH Hl).
Qed.

Lemma indexOf_first (x : ref) (pre post : list ref) :
  x ∉ pre -> indexOf x (pre ++ x :: post) = Z.of_nat (length pre).
Proof.
  induction pre as [|y pre IH]; simpl.
  - intros _. by rewrite Nat.eqb_refl.
  - intros [Hy Hl]%not_elem_of_cons.
    destruct (Nat.eqb_spec y x) as [->|_]; [done|]. rewrite (IH Hl).
    destruct (length pre); simpl; [done|]. f_equal. lia.
Qed.

Lemma first_occurrence (x : ref) (l : list ref) :
  x ∈ l -> exists pre post, l = pre ++ x :: post /\ x ∉ pre.
Proof.
  induction l as [|y l IH]; [by intros ?%elem_of_nil|].
  destruct (decide (y = x)) as [->|Hy].
  - intros _. exists [], l. split; [done|apply not_elem_of_nil].
  - intros [?|Hl]%elem_of_cons; [congruence|].
    destruct (IH Hl) as (pre & post & -> & Hpre).
    exists (y :: pre), post. split; [done|]. apply not_elem_of_cons. split; congruence.
Qed.

Lemma splice_at (pre post : list ref) (x : ref) :
  splice (Z.of_nat (length pre)) 1 (pre ++ x :: post) = pre ++ post.
Proof.
  unfold splice. rewrite length_app. simpl length.
  destruct (Z.ltb_spec (Z.of_nat (length pre)) 0) as [?|_]; [lia|].
  rewrite Z.min_l by lia. rewrite Nat2Z.id.
  replace (Z.to_nat (Z.min (Z.max 1 0) _)) with 1 by lia.
  rewrite take_app_length. rewrite drop_app_add. done.
Qed.

(** A [start] of [-1] takes the last element out. *)
Lemma splice_minus_one (l : list ref) : splice (-1) 1 l = removelast l.
Proof.
  unfold splice. change (-1 <? 0)%Z with true. cbv iota.
  induction l as [|x l _] using rev_ind; [done|].
  rewrite removelast_last, length_app. simpl length.
  replace (Z.max (Z.of_nat (length l + 1) + -1) 0) with (Z.of_nat (length l)) by lia.
  rewrite Nat2Z.id.
  replace (Z.to_nat (Z.min (Z.max 1 0) _)) with 1 by lia.
  rewrite take_app_length, drop_app_add. simpl. by rewrite app_nil_r.
Qed.

End ArrayFacts.

Section ServerFacts.

Variable toLowerCase : jsstring -> jsstring.
Variable _parseTags : ref -> jsstring -> jsstring.

Local Abbreviation formatMessage := (formatMessage _parseTags).
Local Abbreviation localMessage := (localMessage _parseTags).
Local Abbreviation userBroadcast := (userBroadcast _parseTags).
Local Abbreviation joined := (joined _parseTags).
Local Abbreviation left := (left _parseTags).
Local Abbreviation on_shell := (on_shell _parseTags).
Local Abbreviation on_submit := (on_submit _parseTags).
Local Abbreviation on_close := (on_close _parseTags).
Local Abbreviation name_in_use := (name_in_use toLowerCase).
Local Abbreviation on_authentication := (on_authentication toLowerCase).
Local Abbreviation retryPrompt := (retryPrompt toLowerCase).
Local Abbreviation handle := (handle toLowerCase _parseTags).
Local Abbreviation run := (run toLowerCase _parseTags).
Local Abbreviation reachable := (reachable toLowerCase _parseTags).
Local Abbreviation joined_text := (joined_text _parseTags).
Local Abbreviation left_text := (left_text _parseTags).
Local Abbreviation join_body := (join_body _parseTags).
Local Abbreviation leave_body := (leave_body _parseTags).
Local Abbreviation broadcast_line := (broadcast_line _parseTags).
Local Abbreviation broadcast_body := (broadcast_body _parseTags).
Local Abbreviation effect := (effect toLowerCase).
Local Abbreviation eff_connect := (eff_connect toLowerCase).
Local Abbreviation eff_closure := (eff_closure toLowerCase).
Local Abbreviation eff_accept := (eff_accept toLowerCase).
Local Abbreviation eff_shell := (eff_shell toLowerCase).
Local Abbreviation eff_close := (eff_close toLowerCase).
Local Abbreviation eff_sinks := (eff_sinks toLowerCase).
Local Abbreviation names_distinct := (names_distinct toLowerCase).
Local Abbreviation awaiting_distinct := (awaiting_distinct toLowerCase).
Local Abbreviation member_awaiting_distinct := (member_awaiting_distinct toLowerCase).
Local Abbreviation reachable_unraced := (reachable_unraced toLowerCase _parseTags).
Local Abbreviation unraced_init := (unraced_init toLowerCase _parseTags).
Local Abbreviation unraced_step := (unraced_step toLowerCase _parseTags).

Lemma same_frame_valid st st' r :
  same_frame st st' -> is_Some (heap st !! r) -> is_Some (heap st' !! r).
Proof.
  intros F H. apply lookup_lt_is_Some. rewrite (same_frame_length _ _ F).
  by apply lookup_lt_is_Some.
Qed.

Lemma same_frame_refuses st st' r :
  same_frame st st' -> refuses_writes st r -> refuses_writes st' r.
Proof.
  intros F (s & Hs & W).
  destruct (same_frame_lookup st' st r s (same_frame_sym _ _ F) Hs) as (s' & Hs' & C).
  exists s'. split; [done|]. unfold core in C. congruence.
Qed.

Lemma accepts_valid st r : accepts_writes st r -> is_Some (heap st !! r).
Proof. intros (s & -> & _). by eexists. Qed.

Lemma framed_formatMessage msg r : framed (formatMessage msg r).
Proof.
  unfold formatMessage.
  apply framed_bind; [by apply framed_update|]. intros _.
  apply framed_bind; [by apply framed_update|]. intros _. apply framed_ret.
Qed.

(** [formatMessage] returns the parsed text and touches no line. *)
Lemma formatMessage_run msg r st :
  is_Some (heap st !! r) ->
  exists st', formatMessage msg r st = (st', Normal (_parseTags r msg)) /\ same_sinks st st'.
Proof.
  intros [s Hs]. unfold formatMessage. eexists. split.
  - rewrite bind_unfold, (update_run st r s) by done.
    rewrite bind_unfold. erewrite update_run; [done|].
    simpl. rewrite list_lookup_alter_eq, Hs. done.
  - intros q. by rewrite !sink_alter_lines.
Qed.

Lemma framed_joined n r : framed (joined n r).
Proof.
  unfold joined. apply framed_bind; [apply framed_formatMessage|]. intros a.
  apply framed_bind; [apply framed_formatMessage|]. intros b. apply framed_ret.
Qed.

Lemma framed_left n r : framed (left n r).
Proof.
  unfold left. apply framed_bind; [apply framed_formatMessage|]. intros a.
  apply framed_bind; [apply framed_formatMessage|]. intros b. apply framed_ret.
Qed.

Lemma same_sinks_trans st1 st2 st3 :
  same_sinks st1 st2 -> same_sinks st2 st3 -> same_sinks st1 st3.
Proof. intros H1 H2 q. by rewrite H2, H1. Qed.

Lemma joined_run n r st :
  is_Some (heap st !! r) ->
  exists st', joined n r st = (st', Normal (joined_text n r)) /\ same_sinks st st'.
Proof.
  intros V. destruct (formatMessage_run (str "{green-fg}*** {bold}") r st V) as (st1 & E1 & S1).
  assert (V1 : is_Some (heap st1 !! r)).
  { apply (same_frame_valid st); [|done].
    pose proof (framed_formatMessage (str "{green-fg}*** {bold}") r st) as F. by rewrite E1 in F. }
  destruct (formatMessage_run (str "{/bold} has joined the chat{/}") r st1 V1) as (st2 & E2 & S2).
  exists st2. split; [|by eapply same_sinks_trans].
  unfold joined. rewrite (bind_normal _ _ _ _ _ E1).
  by rewrite (bind_normal _ _ _ _ _ E2).
Qed.

Lemma left_run n r st :
  is_Some (heap st !! r) ->
  exists st', left n r st = (st', Normal (left_text n r)) /\ same_sinks st st'.
Proof.
  intros V. destruct (formatMessage_run (str "{magenta-fg}*** {bold}") r st V) as (st1 & E1 & S1).
  assert (V1 : is_Some (heap st1 !! r)).
  { apply (same_frame_valid st); [|done].
    pose proof (framed_formatMessage (str "{magenta-fg}*** {bold}") r st) as F. by rewrite E1 in F. }
  destruct (formatMessage_run (str "{/bold} has left the chat{/}") r st1 V1) as (st2 & E2 & S2).
  exists st2. split; [|by eapply same_sinks_trans].
  unfold left. rewrite (bind_normal _ _ _ _ _ E1).
  by rewrite (bind_normal _ _ _ _ _ E2).
Qed.

(** Rendering a line for a sink and adding it there. *)
Lemma render_then_add (render : M jsstring) (text : jsstring) (user : ref) st :
  framed render ->
  (forall st, is_Some (heap st !! user) ->
     exists st', render st = (st', Normal text) /\ same_sinks st st') ->
  accepts_writes st user ->
  exists st', (line ← render; add user line) st = (st', Normal tt) /\
    forall q, sink st' q = sink st q ++ (if decide (q = user) then [text] else []).
Proof.
  intros F R W. destruct (R st (accepts_valid _ _ W)) as (st1 & E1 & S1).
  assert (W1 : accepts_writes st1 user).
  { apply (same_frame_accepts st); [|done]. specialize (F st). by rewrite E1 in F. }
  destruct (add_run st1 user text W1) as (st2 & E2 & S2).
  exists st2. split; [by rewrite (bind_normal _ _ _ _ _ E1)|].
  intros q. by rewrite S2, S1.
Qed.

Lemma render_then_add_fails (render : M jsstring) (text : jsstring) (user : ref) st :
  framed render ->
  (forall st, is_Some (heap st !! user) ->
     exists st', render st = (st', Normal text) /\ same_sinks st st') ->
  refuses_writes st user ->
  exists st', (line ← render; add user line) st = (st', Throw SinkError) /\ same_sinks st st'.
Proof.
  intros F R W. assert (V : is_Some (heap st !! user)) by (destruct W as (s & -> & _); by eexists).
  destruct (R st V) as (st1 & E1 & S1).
  assert (W1 : refuses_writes st1 user).
  { apply (same_frame_refuses st); [|done]. specialize (F st). by rewrite E1 in F. }
  destruct W1 as (s1 & Hs1 & Hw1).
  exists st1. split; [|done].
  rewrite (bind_normal _ _ _ _ _ E1). by apply (add_fails st1 user s1).
Qed.

(** *** What each handler does to the registry, the names and the closures *)

Lemma same_frame_skeleton st st' : same_frame st st' -> same_skeleton st st'.
Proof.
  intros (U & C & H). repeat split; [done..|]. unfold names.
  assert (E : forall h : list Stream, name <$> h = (fun x => x.1.1.1.1) <$> (core <$> h)).
  { intros h. by rewrite <- list_fmap_compose. }
  by rewrite !E, H.
Qed.

Lemma alter_names (f : Stream -> Stream) r (h : list Stream) :
  (forall s, name (f s) = name s) -> name <$> alter f r h = name <$> h.
Proof.
  intros Hf. apply list_eq. intros i. rewrite !list_lookup_fmap, list_lookup_alter.
  destruct (decide (r = i)) as [->|]; [|done].
  destruct (h !! i); simpl; [by rewrite Hf|done].
Qed.

Lemma update_skeleton r f st :
  (forall s, name (f s) = name s) -> same_skeleton st (update r f st).1.
Proof.
  intros Hf. unfold update. rewrite bind_unfold. unfold deref.
  destruct (heap st !! r); simpl; [|done].
  repeat split. by apply alter_names.
Qed.

Lemma framed_localMessage msg r : framed (localMessage msg r).
Proof.
  unfold localMessage. apply framed_bind; [apply framed_formatMessage|].
  intros m. apply framed_add.
Qed.

Lemma framed_userBroadcast msg source : framed (userBroadcast msg source).
Proof.
  unfold userBroadcast. apply framed_bind; [apply framed_deref|]. intros src.
  apply framed_bind; [apply framed_get|]. intros st0.
  apply framed_for_of. intros user. destruct (Nat.eqb source user); [apply framed_add|].
  apply framed_bind; [apply framed_formatMessage|]. intros n. apply framed_add.
Qed.

Lemma on_shell_unfold c cn st :
  on_shell c cn st =
  (localMessage (welcome (length (users st ++ [length (heap st)]) - 1)) (length (heap st));;
   for_of (users st ++ [length (heap st)]) (join_body cn (length (heap st))))
    (shell_setup c cn st).
Proof. reflexivity. Qed.

Lemma framed_join_body cn stream user : framed (join_body cn stream user).
Proof.
  unfold join_body. destruct (Nat.eqb user stream); [apply framed_ret|].
  apply framed_bind; [apply framed_joined|]. intros l. apply framed_add.
Qed.

Lemma on_shell_frame c cn st : same_frame (shell_setup c cn st) (on_shell c cn st).1.
Proof.
  rewrite on_shell_unfold.
  apply (framed_bind (localMessage _ _)); [apply framed_localMessage|].
  intros _. apply framed_for_of. intros user. apply framed_join_body.
Qed.

Lemma on_close_unfold cn stream st :
  c_stream cn = Some stream ->
  on_close cn st =
  for_of (splice (indexOf stream (users st)) 1 (users st)) (leave_body cn)
    (set_users (fun us => splice (indexOf stream us) 1 us) st).
Proof. intros H. unfold on_close. by rewrite H. Qed.

Lemma framed_leave_body cn user : framed (leave_body cn user).
Proof.
  unfold leave_body. apply framed_bind; [apply framed_left|]. intros l. apply framed_add.
Qed.

Lemma on_close_skeleton cn st :
  users (on_close cn st).1 =
    match c_stream cn with
    | Some stream => splice (indexOf stream (users st)) 1 (users st)
    | None => users st
    end /\
  conns (on_close cn st).1 = conns st /\
  names (on_close cn st).1 = names st.
Proof.
  destruct (c_stream cn) as [stream|] eqn:E.
  - rewrite (on_close_unfold cn stream st E).
    pose proof (framed_for_of (splice (indexOf stream (users st)) 1 (users st))
                  (leave_body cn) (framed_leave_body cn)
                  (set_users (fun us => splice (indexOf stream us) 1 us) st)) as F.
    apply same_frame_skeleton in F. destruct F as (U & C & H). by rewrite U, C, H.
  - unfold on_close. by rewrite E.
Qed.

Lemma on_submit_skeleton stream line st :
  same_skeleton st (on_submit stream line st).1.
Proof.
  unfold on_submit. destruct (0 <? length (sanitize line)); [|done].
  destruct (_ || _).
  - by apply update_skeleton.
  - apply same_frame_skeleton, framed_userBroadcast.
Qed.

Lemma on_window_change_skeleton c cn r k st :
  users (on_window_change c cn r k st).1 = users st /\
  conns (on_window_change c cn r k st).1 = alter (set_size r k) c (conns st) /\
  names (on_window_change c cn r k st).1 = names st.
Proof.
  unfold on_window_change. rewrite bind_unfold. simpl.
  destruct (c_stream cn) as [stream|]; [|done].
  destruct (update_skeleton stream (set_geometry r k)
              (set_conns (alter (set_size r k) c) st)) as (U & C & H); [done|].
  by rewrite U, C, H.
Qed.

Lemma in_use_run lowered st : in_use toLowerCase lowered st = (st, name_in_use lowered (users st) (heap st)).
Proof. done. Qed.

(** The handler accepts only a candidate of valid length that no member
    uses, and then stores it; otherwise it leaves the state alone. *)
Lemma on_authentication_effect c username method st st' a :
  on_authentication c username method st = (st', a) ->
  users st' = users st /\ heap st' = heap st /\
  ((a = Normal Accept /\ conns st' = alter (set_name username) c (conns st) /\
    valid_length username /\
    name_in_use (toLowerCase username) (users st) (heap st) = Normal false) \/
   (a <> Normal Accept /\ conns st' = conns st)).
Proof.
  unfold on_authentication, challenge, valid_length, MAX_NAME_LEN.
  destruct (Nat.ltb_spec 0 (length username)); simpl.
  - destruct (Nat.leb_spec (length username) 10); simpl.
    + rewrite bind_unfold, in_use_run.
      destruct (name_in_use _ _ _) as [[|]|e] eqn:E; simpl.
      * destruct (negb _); intros [= <- <-]; repeat split; right; done.
      * intros [= <- <-]. repeat split. left. repeat split; [lia..|done].
      * intros [= <- <-]. repeat split. by right.
    + destruct (length username =? 0); destruct (negb _);
        intros [= <- <-]; repeat split; by right.
  - destruct (length username =? 0); destruct (negb _);
      intros [= <- <-]; repeat split; by right.
Qed.

Lemma retryPrompt_effect c answers st st' a :
  retryPrompt c answers st = (st', a) ->
  users st' = users st /\ heap st' = heap st /\
  ((exists nick, a = Normal Accept /\ head answers = Some nick /\
    conns st' = alter (set_name nick) c (conns st) /\
    valid_length nick /\
    name_in_use (toLowerCase nick) (users st) (heap st) = Normal false) \/
   (a <> Normal Accept /\ conns st' = conns st)).
Proof.
  unfold retryPrompt, valid_length, MAX_NAME_LEN.
  destruct answers as [|nick rest].
  { intros [= <- <-]. repeat split. by right. }
  destruct (Nat.ltb_spec 10 (length nick)).
  { intros [= <- <-]. repeat split. by right. }
  destruct (Nat.eqb_spec (length nick) 0).
  { intros [= <- <-]. repeat split. by right. }
  rewrite bind_unfold, in_use_run.
  destruct (name_in_use _ _ _) as [[|]|e] eqn:E; simpl.
  - intros [= <- <-]. repeat split. by right.
  - intros [= <- <-]. repeat split. left. exists nick. repeat split; [lia..|done].
  - intros [= <- <-]. repeat split. by right.
Qed.

(** *** The steps of the transport, seen on the skeleton of the state *)

Lemma alter_same {A} (f : A -> A) i (l : list A) x :
  l !! i = Some x -> f x = x -> alter f i l = l.
Proof.
  intros Hi Hf. apply list_eq. intros j. rewrite list_lookup_alter.
  destruct (decide (i = j)) as [<-|]; [|done]. by rewrite Hi; simpl; rewrite Hf.
Qed.

Lemma alter_alter {A} (f g : A -> A) i (l : list A) :
  alter f i (alter g i l) = alter (f ∘ g) i l.
Proof.
  apply list_eq. intros j. destruct (decide (i = j)) as [<-|].
  - rewrite !list_lookup_alter_eq. by destruct (l !! i).
  - by rewrite !list_lookup_alter_ne.
Qed.

Lemma settle_negotiation c cn st st0 st' a :
  conns st !! c = Some cn -> negotiating (c_phase cn) ->
  users st0 = users st -> heap st0 = heap st ->
  (exists n, a = Normal Accept /\ conns st0 = alter (set_name n) c (conns st) /\
     valid_length n /\ name_in_use (toLowerCase n) (users st) (heap st) = Normal false) \/
  (a <> Normal Accept /\ conns st0 = conns st) ->
  settle c a st0 = st' -> effect st st'.
Proof.
  intros Hc Hp U H [(n & -> & C & V & N)|[Na C]] <-; simpl.
  - eapply (eff_accept _ _ c cn n); simpl; try done. by rewrite C.
  - destruct a as [[| |]|e]; simpl; [done| | |].
    + apply (eff_closure _ _ c cn (set_phase Authenticating)); simpl;
        unfold names; simpl; try congruence. right. split; [done|by left].
    + apply (eff_closure _ _ c cn (set_phase Prompting)); simpl;
        unfold names; simpl; try congruence. right. split; [done|by right].
    + apply eff_sinks; unfold names; congruence.
Qed.

Lemma is_ready_true cn : is_ready cn = true -> c_phase cn = Ready.
Proof. unfold is_ready. by destruct (c_phase cn). Qed.

Lemma handle_effect e st st' : handle e st = Some st' -> effect st st'.
Proof.
  destruct e as [|c username method|c answers|c r k t|c r k|c|c line|c|r ok]; simpl.
  - intros [= <-]. by apply eff_connect.
  - destruct (conns st !! c) as [cn|] eqn:Hc; simpl; [|done].
    destruct (c_phase cn) eqn:Hp; try done;
      destruct (on_authentication c username method st) as [st0 a] eqn:E;
      intros [= S]; destruct (on_authentication_effect _ _ _ _ _ _ E) as (U & H & D);
      (eapply (settle_negotiation c cn st st0 st' a); try done;
       [unfold negotiating; rewrite Hp; tauto|]);
      (destruct D as [(-> & ? & ? & ?)|?]; [left; by exists username|by right]).
  - destruct (conns st !! c) as [cn|] eqn:Hc; simpl; [|done].
    destruct (c_phase cn) eqn:Hp; try done.
    destruct (retryPrompt c answers st) as [st0 a] eqn:E.
    intros [= S]. destruct (retryPrompt_effect _ _ _ _ _ E) as (U & H & D).
    eapply (settle_negotiation c cn st st0 st' a); try done.
    { unfold negotiating. rewrite Hp. tauto. }
    destruct D as [(nick & -> & _ & ? & ? & ?)|?]; [left; by exists nick|by right].
  - destruct (conns st !! c) as [cn|] eqn:Hc; simpl; [|done].
    destruct (is_ready cn && negb (c_pty cn)); [|done]. intros [= <-].
    apply (eff_closure _ _ c cn (set_pty r k t)); simpl; try done. by left.
  - destruct (conns st !! c) as [cn|] eqn:Hc; simpl; [|done].
    destruct (is_ready cn); [|done]. intros [= <-].
    destruct (on_window_change_skeleton c cn r k st) as (U & C & H).
    apply (eff_closure _ _ c cn (set_size r k)); simpl; try done. by left.
  - destruct (conns st !! c) as [cn|] eqn:Hc; simpl; [|done].
    destruct (c_stream cn) eqn:Hs; [done|].
    destruct (is_ready cn) eqn:Hr; [|done]. intros [= <-].
    destruct (same_frame_skeleton _ _ (on_shell_frame c cn st)) as (U & C & H).
    apply (eff_shell _ _ c cn); try done; [by apply is_ready_true|..].
    + unfold names in *. rewrite H. simpl. by rewrite fmap_app.
  - destruct (conns st !! c) as [cn|] eqn:Hc; simpl; [|done].
    destruct (c_stream cn) as [stream|] eqn:Hs; [|done].
    destruct (is_ready cn); [|done]. intros [= <-].
    destruct (on_submit_skeleton stream line st) as (U & C & H).
    by apply eff_sinks.
  - destruct (conns st !! c) as [cn|] eqn:Hc; simpl; [|done].
    destruct (on_close_skeleton cn st) as (U & C & H).
    destruct (c_phase cn) eqn:Hp; [| | |done]; intros [= <-];
      (apply (eff_close _ _ c cn); simpl; [done|by rewrite Hp|done|done|by rewrite C]).
  - intros [= <-]. apply eff_sinks; simpl; try done.
    unfold names. simpl. by apply alter_names.
Qed.

(** *** The invariant of the reachable states *)

Lemma lookup_alter_cases {A} (f : A -> A) c (l : list A) c0 x :
  alter f c l !! c0 = Some x ->
  (c0 = c /\ exists y, l !! c = Some y /\ x = f y) \/ (c0 <> c /\ l !! c0 = Some x).
Proof.
  destruct (decide (c = c0)) as [<-|Hne].
  - rewrite list_lookup_alter_eq. destruct (l !! c) as [y|]; [|done].
    intros [= <-]. left. split; [done|]. by exists y.
  - rewrite list_lookup_alter_ne by done. intros H. right. split; [congruence|done].
Qed.

Lemma Inv_init : Inv init.
Proof.
  split; simpl; try (intros; by rewrite ?lookup_nil in * ); try done.
  - constructor.
  - by intros r ?%elem_of_nil.
Qed.

Lemma Inv_connect st st' :
  Inv st -> users st' = users st -> names st' = names st ->
  conns st' = conns st ++ [new_conn] -> Inv st'.
Proof.
  intros I U N C.
  assert (L : forall c cn, conns st' !! c = Some cn ->
            conns st !! c = Some cn \/ cn = new_conn).
  { intros c cn. rewrite C. intros [[_ ?]|[_ ?]]%lookup_snoc_Some; [by left|by right]. }
  split; rewrite ?U, ?N.
  - apply I.
  - apply I.
  - intros c cn r [Hc| ->]%L; [|done]. by apply (inv_stream st I c).
  - intros c c' cn cn' r Hc Hc' Hs Hs'.
    destruct (L _ _ Hc) as [Hc0| ->]; [|done].
    destruct (L _ _ Hc') as [Hc0'| ->]; [|done].
    by apply (inv_stream_inj st I c c' cn cn' r).
  - intros c cn [Hc| ->]%L; [|done]. by apply (inv_ready st I c).
  - intros c cn n [Hc| ->]%L; [|done]. by apply (inv_conn_name st I c).
  - apply I.
Qed.

Lemma negotiating_not_ready : ~ negotiating Ready.
Proof. by intros [?|?]. Qed.

(** A step that rewrites one closure: it keeps the stream, and either
    keeps the name and does not leave or enter the negotiation, or ends
    the negotiation with a valid name. *)
Lemma Inv_closure st st' c cn f :
  Inv st -> users st' = users st -> names st' = names st ->
  conns st !! c = Some cn -> conns st' = alter f c (conns st) ->
  c_stream (f cn) = c_stream cn ->
  (c_name (f cn) = c_name cn /\
   (c_phase (f cn) = c_phase cn \/
    (negotiating (c_phase cn) /\ negotiating (c_phase (f cn))))) \/
  (negotiating (c_phase cn) /\ exists n, c_name (f cn) = Some n /\ valid_length n) ->
  Inv st'.
Proof.
  intros I U N Hc C Fs F.
  assert (L : forall c0 cn0, conns st' !! c0 = Some cn0 ->
            (c0 = c /\ cn0 = f cn) \/ (c0 <> c /\ conns st !! c0 = Some cn0)).
  { intros c0 cn0. rewrite C. intros [[-> (y & Hy & ->)]|?]%lookup_alter_cases; [|by right].
    left. split; [done|]. congruence. }
  split; rewrite ?U, ?N.
  - apply I.
  - apply I.
  - intros c0 cn0 r [[-> ->]|[_ H0]]%L; [|by apply (inv_stream st I c0)].
    rewrite Fs. intros Hs. destruct (inv_stream st I c cn r Hc Hs) as (H1 & H2 & H3).
    destruct F as [[-> [->|[? _]]]|[? _]]; done.
  - intros c1 c2 cn1 cn2 r [[-> ->]|[? H1]]%L [[-> ->]|[? H2]]%L; [done|..].
    + rewrite Fs. intros. by apply (inv_stream_inj st I c c2 cn cn2 r).
    + rewrite Fs. intros. by apply (inv_stream_inj st I c1 c cn1 cn r).
    + by apply (inv_stream_inj st I c1 c2 cn1 cn2 r).
  - intros c0 cn0 [[-> ->]|[_ H0]]%L; [|by apply (inv_ready st I c0)].
    intros Hr. destruct F as [[-> [E|[_ E]]]|[_ (n & -> & _)]]; [| |done].
    + apply (inv_ready st I c cn Hc). congruence.
    + rewrite Hr in E. by destruct negotiating_not_ready.
  - intros c0 cn0 n [[-> ->]|[_ H0]]%L; [|by apply (inv_conn_name st I c0)].
    destruct F as [[-> _]|[_ (n' & -> & V)]]; [by apply (inv_conn_name st I c)|].
    by intros [= <-].
  - apply I.
Qed.

Lemma Inv_shell st st' c cn :
  Inv st -> conns st !! c = Some cn -> c_stream cn = None -> c_phase cn = Ready ->
  users st' = users st ++ [length (heap st)] ->
  names st' = names st ++ [c_name cn] ->
  conns st' = alter (set_stream (length (heap st))) c (conns st) ->
  Inv st'.
Proof.
  intros I Hc Hs Hp U N C.
  assert (Len : length (heap st) = length (names st)) by (unfold names; by rewrite length_fmap).
  assert (L : forall c0 cn0, conns st' !! c0 = Some cn0 ->
            (c0 = c /\ cn0 = set_stream (length (heap st)) cn) \/
            (c0 <> c /\ conns st !! c0 = Some cn0)).
  { intros c0 cn0. rewrite C. intros [[-> (y & Hy & ->)]|?]%lookup_alter_cases; [|by right].
    left. split; [done|]. congruence. }
  assert (Fresh : length (heap st) ∉ users st).
  { intros H%(inv_member st I). lia. }
  split; rewrite ?U, ?N.
  - apply NoDup_app. split; [apply I|]. split; [|apply NoDup_singleton].
    intros r Hr ->%list_elem_of_singleton. done.
  - intros r [H%(inv_member st I)| ->%list_elem_of_singleton]%elem_of_app;
      rewrite length_app; simpl; lia.
  - intros c0 cn0 r [[-> ->]|[_ H0]]%L; simpl.
    + intros [= <-]. rewrite Len, list_lookup_middle by done. split; [done|].
      split; [rewrite Hp; apply negotiating_not_ready|].
      intros _. apply elem_of_app. right. by apply list_elem_of_singleton.
    + intros Hs0. destruct (inv_stream st I c0 cn0 r H0 Hs0) as (H1 & H2 & H3).
      split; [by apply lookup_app_l_Some|]. split; [done|].
      intros Hr. apply elem_of_app. left. by apply H3.
  - assert (Old : forall c0 cn0, conns st !! c0 = Some cn0 ->
              c_stream cn0 = Some (length (heap st)) -> False).
    { intros c0 cn0 H0 Hs0. destruct (inv_stream st I c0 cn0 _ H0 Hs0) as (H1 & _).
      apply lookup_lt_Some in H1. lia. }
    intros c1 c2 cn1 cn2 r [[-> ->]|[? H1]]%L [[-> ->]|[? H2]]%L; [done|..]; simpl.
    + intros [= <-] Hs2. by destruct (Old c2 cn2).
    + intros Hs1 [= <-]. by destruct (Old c1 cn1).
    + by apply (inv_stream_inj st I c1 c2 cn1 cn2 r).
  - intros c0 cn0 [[-> ->]|[_ H0]]%L; [|by apply (inv_ready st I c0)].
    simpl. intros _. by apply (inv_ready st I c cn).
  - intros c0 cn0 n [[-> ->]|[_ H0]]%L; [|by apply (inv_conn_name st I c0)].
    simpl. by apply (inv_conn_name st I c cn).
  - intros r o [[_ H]|[_ <-]]%lookup_snoc_Some; [by apply (inv_names st I r)|].
    destruct (inv_ready st I c cn Hc Hp) as [n Hn]. exists n. split; [done|].
    by apply (inv_conn_name st I c cn).
Qed.

(** Closing a connection whose stream is a member takes that member out,
    and no other. *)
Lemma close_member (us : list ref) (stream : ref) :
  NoDup us -> stream ∈ us ->
  exists pre post, us = pre ++ stream :: post /\
    splice (indexOf stream us) 1 us = pre ++ post /\
    stream ∉ pre ++ post.
Proof.
  intros ND (pre & post & -> & Hpre)%first_occurrence.
  exists pre, post. split; [done|]. rewrite indexOf_first by done.
  split; [apply splice_at|].
  apply NoDup_app in ND as (_ & D & [Hpost _]%NoDup_cons).
  intros [?|?]%elem_of_app; done.
Qed.

Lemma Inv_close st st' c cn :
  Inv st -> conns st !! c = Some cn -> c_phase cn <> Closed ->
  users st' = match c_stream cn with
              | Some stream => splice (indexOf stream (users st)) 1 (users st)
              | None => users st
              end ->
  names st' = names st ->
  conns st' = alter (set_phase Closed) c (conns st) ->
  Inv st'.
Proof.
  intros I Hc Hp U N C.
  assert (L : forall c0 cn0, conns st' !! c0 = Some cn0 ->
            (c0 = c /\ cn0 = set_phase Closed cn) \/
            (c0 <> c /\ conns st !! c0 = Some cn0)).
  { intros c0 cn0. rewrite C. intros [[-> (y & Hy & ->)]|?]%lookup_alter_cases; [|by right].
    left. split; [done|]. congruence. }
  assert (K : NoDup (users st') /\ (forall r, r ∈ users st' -> r ∈ users st) /\
              forall c0 cn0 r, c0 <> c -> conns st !! c0 = Some cn0 ->
                c_stream cn0 = Some r -> r ∈ users st -> r ∈ users st').
  { destruct (c_stream cn) as [stream|] eqn:Hs; [|rewrite U; split; [apply I|done]].
    destruct (inv_stream st I c cn stream Hc Hs) as (_ & Hn & Hm).
    assert (R : c_phase cn = Ready).
    { destruct (c_phase cn); [destruct Hn; by left|destruct Hn; by right|done|done]. }
    destruct (close_member (users st) stream (inv_nodup st I) (Hm R))
      as (pre & post & E & S & Hout).
    rewrite U, S. split; [|split].
    - pose proof (inv_nodup st I) as ND. rewrite E in ND.
      apply NoDup_app in ND as (N1 & D & [_ N2]%NoDup_cons).
      apply NoDup_app. split; [done|]. split; [|done].
      intros x Hx Hx'. apply (D x Hx). by right.
    - intros r. rewrite E, !elem_of_app, elem_of_cons. tauto.
    - intros c0 cn0 r Hne H0 Hs0. rewrite E, !elem_of_app, elem_of_cons.
      intros [?|[->|?]]; [tauto| |tauto].
      destruct Hne. by apply (inv_stream_inj st I c0 c cn0 cn stream). }
  destruct K as (K1 & K2 & K3).
  split; rewrite ?N.
  - done.
  - intros r Hr. by apply (inv_member st I), K2.
  - intros c0 cn0 r [[-> ->]|[Hne H0]]%L; simpl.
    + intros Hs. destruct (inv_stream st I c cn r Hc Hs) as (H1 & _).
      split; [done|]. split; [by intros [?|?]|done].
    + intros Hs0. destruct (inv_stream st I c0 cn0 r H0 Hs0) as (H1 & H2 & H3).
      split; [done|]. split; [done|]. intros Hr. by apply (K3 c0 cn0), H3.
  - intros c1 c2 cn1 cn2 r [[-> ->]|[? H1]]%L [[-> ->]|[? H2]]%L; [done|..]; simpl.
    + intros. by apply (inv_stream_inj st I c c2 cn cn2 r).
    + intros. by apply (inv_stream_inj st I c1 c cn1 cn r).
    + by apply (inv_stream_inj st I c1 c2 cn1 cn2 r).
  - intros c0 cn0 [[-> ->]|[_ H0]]%L; [done|by apply (inv_ready st I c0)].
  - intros c0 cn0 n [[-> ->]|[_ H0]]%L; [|by apply (inv_conn_name st I c0)].
    simpl. by apply (inv_conn_name st I c cn).
  - apply I.
Qed.

Lemma Inv_effect st st' : Inv st -> effect st st' -> Inv st'.
Proof.
  intros I [U N C|c cn f U N Hc C Fs Fn Fp|c cn n U H Hc Hp C V Nu
            |c cn Hc Hs Hp U N C|c cn Hc Hp U N C|U N C].
  - by apply (Inv_connect st).
  - apply (Inv_closure st st' c cn f); try done. by left.
  - rewrite alter_alter in C.
    apply (Inv_closure st st' c cn (set_phase Ready ∘ set_name n)); try done.
    + unfold names. by rewrite H.
    + right. split; [done|]. by exists n.
  - by apply (Inv_shell st st' c cn).
  - by apply (Inv_close st st' c cn).
  - destruct I as [I1 I2 I3 I4 I5 I6 I7]. split; rewrite ?U, ?N, ?C; done.
Qed.

Lemma reachable_effect_ind (P : State -> Prop) :
  P init -> (forall st st', reachable st -> P st -> effect st st' -> P st') ->
  forall st, reachable st -> P st.
Proof.
  intros H0 Hs st R. induction R as [|st e st' R IH H]; [done|].
  apply (Hs st st' R IH). by apply (handle_effect e).
Qed.

Lemma reachable_Inv st : reachable st -> Inv st.
Proof.
  apply reachable_effect_ind; [apply Inv_init|].
  intros s s' _ I E. by apply (Inv_effect s).
Qed.

Lemma run_reachable evs st st' : reachable st -> run evs st = Some st' -> reachable st'.
Proof.
  revert st. induction evs as [|e evs IH]; intros st R; simpl.
  - by intros [= <-].
  - destruct (handle e st) as [st1|] eqn:E; simpl; [|done].
    apply IH. by apply (reachable_step _ _ st e).
Qed.

Lemma member_name_names st r : member_name st r = names st !! r ≫= id.
Proof.
  unfold member_name, names. rewrite list_lookup_fmap. by destruct (heap st !! r).
Qed.

(** ** Negotiation *)

(** C9: a retry prompt answered with no answers at all is rejected, with
    keyboard-interactive as the only method to go on with, and no further
    prompt; an answer that is the empty string is asked again with the
    "required" text. *)
Theorem retry_without_answers_rejects (c : nat) (st : State) :
  retryPrompt c [] st = (st, Normal (Reject [str "keyboard-interactive"])) /\
  forall rest,
    retryPrompt c ([] :: rest) st =
      (st, Normal (Prompt (str "A nickname is required." ++ LF ++ PROMPT_NAME))).
Proof. split; [reflexivity|]. intros rest. reflexivity. Qed.

(** C6: whatever the negotiator accepts, at the first attempt or from an
    answer, has 1 to 10 units, and in every reachable state every member
    of the registry carries such a name. *)
Theorem accepted_names_have_valid_length (st : State) :
  reachable st ->
  (forall c username method st',
     on_authentication c username method st = (st', Normal Accept) ->
     1 <= length username <= 10) /\
  (forall c answers st',
     retryPrompt c answers st = (st', Normal Accept) ->
     exists nick, head answers = Some nick /\ 1 <= length nick <= 10) /\
  (forall c cn n,
     conns st !! c = Some cn -> c_name cn = Some n -> 1 <= length n <= 10) /\
  (forall r, r ∈ users st ->
     exists n, member_name st r = Some n /\ 1 <= length n <= 10).
Proof.
  intros R. pose proof (reachable_Inv st R) as I. repeat split.
  - destruct (on_authentication_effect _ _ _ _ _ _ H) as (_ & _ & [(_ & _ & V & _)|[? _]]);
      [apply V|done].
  - destruct (on_authentication_effect _ _ _ _ _ _ H) as (_ & _ & [(_ & _ & V & _)|[? _]]);
      [apply V|done].
  - intros c answers st' H.
    destruct (retryPrompt_effect _ _ _ _ _ H) as (_ & _ & [(nick & _ & Hh & _ & V & _)|[? _]]);
      [|done].
    by exists nick.
  - by apply (inv_conn_name st I c cn n).
  - by apply (inv_conn_name st I c cn n).
  - intros r Hr. pose proof (inv_member st I r Hr) as Hlt.
    apply lookup_lt_is_Some in Hlt as [o Ho].
    destruct (inv_names st I r o Ho) as (n & -> & V).
    exists n. split; [|done]. by rewrite member_name_names, Ho.
Qed.

(** ** Leaving *)

Lemma on_close_without_stream cn st :
  c_stream cn = None -> on_close cn st = (st, Normal tt).
Proof. intros H. unfold on_close. by rewrite H. Qed.

(** The handler hands the answer of [indexOf] to [splice] as it is. Were
    it run with a stream that is not in [users], the [-1] would take the
    last member out; the guard on [stream] and the single close of a
    connection keep the reachable states away from this, as the next
    theorem shows. *)
Lemma splice_of_absent_stream (st : State) (cn : Conn) (stream : ref) :
  c_stream cn = Some stream -> stream ∉ users st ->
  users (on_close cn st).1 = removelast (users st).
Proof.
  intros Hs Hn. destruct (on_close_skeleton cn st) as (U & _). rewrite U, Hs.
  rewrite indexOf_absent by done. apply splice_minus_one.
Qed.

(** C2: in every reachable state, the close of a connection whose session
    is not a member of the registry leaves the registry as it is, so no
    other member is taken out, and writes to no sink: such a connection
    has no stream yet, and the handler does nothing without one. *)
Theorem close_of_non_member_keeps_registry (st st' : State) (c : nat) (cn : Conn) :
  reachable st ->
  conns st !! c = Some cn ->
  (forall r, c_stream cn = Some r -> r ∉ users st) ->
  handle (Close c) st = Some st' ->
  c_stream cn = None /\
  users st' = users st /\ heap st' = heap st /\
  conns st' = alter (set_phase Closed) c (conns st).
Proof.
  intros R Hc Hn. pose proof (reachable_Inv st R) as I.
  assert (Hs : c_phase cn <> Closed -> c_stream cn = None).
  { intros Hp. destruct (c_stream cn) as [r|] eqn:E; [|done]. exfalso.
    destruct (inv_stream st I c cn r Hc E) as (_ & Hneg & Hm).
    apply (Hn r eq_refl). apply Hm.
    destruct (c_phase cn); [destruct Hneg; by left|destruct Hneg; by right|done|done]. }
  simpl. rewrite Hc. simpl.
  destruct (c_phase cn) eqn:Hp; [| | |done];
    (rewrite (on_close_without_stream cn st) by (apply Hs; congruence);
     intros [= <-]; split; [apply Hs; congruence|done]).
Qed.

(** ** Terminal size *)

Lemma on_shell_stream c cn st :
  exists s, heap (on_shell c cn st).1 !! length (heap st) = Some s /\
            core s = core (new_stream cn).
Proof.
  pose proof (on_shell_frame c cn st) as F.
  assert (H0 : heap (shell_setup c cn st) !! length (heap st) = Some (new_stream cn)).
  { simpl. by apply list_lookup_middle. }
  destruct (same_frame_lookup _ _ _ _ (same_frame_sym _ _ F) H0) as (s & Hs & C).
  by exists s.
Qed.

Lemma on_shell_geometry st st' c cn :
  conns st !! c = Some cn -> handle (Shell c) st = Some st' ->
  exists s, heap st' !! length (heap st) = Some s /\
    (exists cn', conns st' !! c = Some cn' /\ c_stream cn' = Some (length (heap st))) /\
    rows s = or_default (c_rows cn) 24 /\ columns s = or_default (c_cols cn) 80.
Proof.
  intros Hc. simpl. rewrite Hc. simpl.
  destruct (c_stream cn); [done|]. destruct (is_ready cn); [|done]. intros [= <-].
  destruct (on_shell_stream c cn st) as (s & Hs & C). exists s. split; [done|].
  split.
  - destruct (on_shell_frame c cn st) as (_ & -> & _). simpl.
    rewrite list_lookup_alter_eq, Hc. by eexists.
  - unfold core in C. simpl in C. by injection C as _ -> -> _ _.
Qed.

(** C10, amended: when the shell is set up each dimension is decided on
    its own from what the closure holds (from the pseudo-terminal request
    or a window change before the shell): 24 rows when no number of rows
    was recorded or it is 0, else that number; 80 columns when no number of
    columns was recorded or it is 0, else that number. *)
Theorem shell_geometry_per_dimension (st st' : State) (c : nat) (cn : Conn) :
  conns st !! c = Some cn -> handle (Shell c) st = Some st' ->
  exists s, heap st' !! length (heap st) = Some s /\
    (exists cn', conns st' !! c = Some cn' /\ c_stream cn' = Some (length (heap st))) /\
    rows s = match c_rows cn with
             | Some v => if (v =? 0)%N then 24%N else v
             | None => 24%N
             end /\
    columns s = match c_cols cn with
                | Some v => if (v =? 0)%N then 80%N else v
                | None => 80%N
                end.
Proof. apply on_shell_geometry. Qed.

Lemma pty_records st st' c r k t :
  handle (Pty c r k t) st = Some st' ->
  exists cn', conns st' !! c = Some cn' /\ c_rows cn' = Some r /\ c_cols cn' = Some k.
Proof.
  simpl. destruct (conns st !! c) as [cn|] eqn:Hc; simpl; [|done].
  destruct (_ && _); [|done]. intros [= <-]. simpl.
  rewrite list_lookup_alter_eq, Hc. by eexists.
Qed.

Lemma window_change_records st st' c r k :
  handle (WindowChange c r k) st = Some st' ->
  exists cn', conns st' !! c = Some cn' /\ c_rows cn' = Some r /\ c_cols cn' = Some k.
Proof.
  simpl. destruct (conns st !! c) as [cn|] eqn:Hc; simpl; [|done].
  destruct (is_ready cn); [|done]. intros [= <-].
  destruct (on_window_change_skeleton c cn r k st) as (_ & -> & _).
  rewrite list_lookup_alter_eq, Hc. by eexists.
Qed.

Lemma settle_conns c a st :
  exists p, conns (settle c a st) = alter (set_phase p) c (conns st) \/
            conns (settle c a st) = conns st.
Proof.
  destruct a as [[| |]|]; simpl; [exists Ready|exists Authenticating|exists Prompting|exists Ready];
    tauto.
Qed.

Lemma no_size_recorded_alter st st' c c' f :
  conns st' = alter f c' (conns st) ->
  (c' = c -> forall cn, c_rows (f cn) = c_rows cn /\ c_cols (f cn) = c_cols cn) ->
  no_size_recorded st c -> no_size_recorded st' c.
Proof.
  intros C F H cn'. rewrite C.
  intros [[-> (cn & Hc & ->)]|[_ Hc]]%lookup_alter_cases; [|by apply H].
  destruct (F eq_refl cn) as [-> ->]. by apply H.
Qed.

Lemma no_size_recorded_same st st' c :
  conns st' = conns st -> no_size_recorded st c -> no_size_recorded st' c.
Proof. intros C H cn'. rewrite C. apply H. Qed.

Lemma no_size_recorded_step e st st' c :
  handle e st = Some st' -> records_size c e = false ->
  no_size_recorded st c -> no_size_recorded st' c.
Proof.
  destruct e as [|c' username method|c' answers|c' r k t|c' r k|c'|c' line|c'|r ok]; simpl.
  - intros [= <-] _ H cn'. simpl.
    intros [[_ ?]|[_ <-]]%lookup_snoc_Some; [by apply H|done].
  - destruct (conns st !! c') as [cn|] eqn:Hc; simpl; [|done].
    destruct (c_phase cn); try done;
      destruct (on_authentication c' username method st) as [st0 a] eqn:E;
      intros [= <-] _ H; destruct (on_authentication_effect _ _ _ _ _ _ E) as (_ & _ & D);
      (assert (H0 : no_size_recorded st0 c);
       [destruct D as [(_ & C & _)|[_ C]];
        [by apply (no_size_recorded_alter st st0 c c' _ C)
        |by apply (no_size_recorded_same st st0 c C)]|]);
      (destruct (settle_conns c' a st0) as (p & [C|C]);
       [by apply (no_size_recorded_alter st0 _ c c' _ C)
       |by apply (no_size_recorded_same st0 _ c C)]).
  - destruct (conns st !! c') as [cn|] eqn:Hc; simpl; [|done].
    destruct (c_phase cn); try done.
    destruct (retryPrompt c' answers st) as [st0 a] eqn:E.
    intros [= <-] _ H. destruct (retryPrompt_effect _ _ _ _ _ E) as (_ & _ & D).
    assert (H0 : no_size_recorded st0 c).
    { destruct D as [(nick & _ & _ & C & _)|[_ C]];
        [by apply (no_size_recorded_alter st st0 c c' _ C)
        |by apply (no_size_recorded_same st st0 c C)]. }
    destruct (settle_conns c' a st0) as (p & [C|C]);
      [by apply (no_size_recorded_alter st0 _ c c' _ C)
      |by apply (no_size_recorded_same st0 _ c C)].
  - destruct (conns st !! c') as [cn|] eqn:Hc; simpl; [|done].
    destruct (_ && _); [|done]. intros [= <-] Hne%Nat.eqb_neq H.
    by apply (no_size_recorded_alter st
                (set_conns (alter (set_pty r k t) c') st) c c' (set_pty r k t) eq_refl).
  - destruct (conns st !! c') as [cn|] eqn:Hc; simpl; [|done].
    destruct (is_ready cn); [|done]. intros [= <-] Hne%Nat.eqb_neq H.
    destruct (on_window_change_skeleton c' cn r k st) as (_ & C & _).
    by apply (no_size_recorded_alter st _ c c' _ C).
  - destruct (conns st !! c') as [cn|] eqn:Hc; simpl; [|done].
    destruct (c_stream cn); [done|]. destruct (is_ready cn); [|done].
    intros [= <-] _ H. destruct (on_shell_frame c' cn st) as (_ & C & _).
    by apply (no_size_recorded_alter st _ c c' _ C).
  - destruct (conns st !! c') as [cn|] eqn:Hc; simpl; [|done].
    destruct (c_stream cn) as [stream|]; [|done]. destruct (is_ready cn); [|done].
    intros [= <-] _ H. destruct (on_submit_skeleton stream line st) as (_ & C & _).
    by apply (no_size_recorded_same st _ c C).
  - destruct (conns st !! c') as [cn|] eqn:Hc; simpl; [|done].
    destruct (on_close_skeleton cn st) as (_ & C & _).
    destruct (c_phase cn); [| | |done]; intros [= <-] _ H;
      (apply (no_size_recorded_alter (on_close cn st).1
                (set_conns (alter (set_phase Closed) c') (on_close cn st).1)
                c c' (set_phase Closed) eq_refl);
       [done|by apply (no_size_recorded_same st _ c C)]).
  - intros [= <-] _ H. by apply (no_size_recorded_same st _ c).
Qed.

Lemma no_size_recorded_run evs st st' c :
  run evs st = Some st' -> forallb (fun e => negb (records_size c e)) evs = true ->
  no_size_recorded st c -> no_size_recorded st' c.
Proof.
  revert st. induction evs as [|e evs IH]; intros st; simpl.
  - by intros [= <-].
  - destruct (handle e st) as [st1|] eqn:E; simpl; [|done].
    intros Hr [He Hevs]%andb_true_iff H. apply (IH st1 Hr Hevs).
    apply (no_size_recorded_step e st st1 c E); [by apply negb_true_iff|done].
Qed.

(** A session for which neither a pseudo-terminal request nor a window
    change arrived before its shell gets 24 rows and 80 columns. *)
Lemma default_geometry evs st st' c :
  run evs init = Some st ->
  forallb (fun e => negb (records_size c e)) evs = true ->
  handle (Shell c) st = Some st' ->
  exists s, heap st' !! length (heap st) = Some s /\ rows s = 24%N /\ columns s = 80%N.
Proof.
  intros Hr Hq Hs.
  assert (H : no_size_recorded st c).
  { apply (no_size_recorded_run evs init st c Hr Hq). intros cn Hc. simpl in Hc. by rewrite lookup_nil in Hc. }
  destruct (conns st !! c) as [cn|] eqn:Hc; [|simpl in Hs; by rewrite Hc in Hs].
  destruct (on_shell_geometry st st' c cn Hc Hs) as (s & Hl & _ & R & K).
  destruct (H cn Hc) as [E1 E2]. rewrite E1 in R. rewrite E2 in K. by exists s.
Qed.

(** ** Joining *)

Lemma Inv_valid_member st r : Inv st -> r ∈ users st -> is_Some (heap st !! r).
Proof.
  intros I H%(inv_member st I). apply lookup_lt_is_Some.
  unfold names in H. by rewrite length_fmap in H.
Qed.

Lemma join_body_run cn stream u st :
  accepts_writes st u ->
  exists st', join_body cn stream u st = (st', Normal tt) /\
    forall q, sink st' q = sink st q ++
      (if decide (q = u)
       then (if Nat.eqb u stream then [] else [joined_text (c_name cn) u])
       else []).
Proof.
  intros W. unfold join_body. destruct (Nat.eqb u stream).
  - exists st. split; [done|]. intros q. destruct (decide (q = u)); by rewrite app_nil_r.
  - apply render_then_add; [apply framed_joined| |done].
    intros st0 V. by apply joined_run.
Qed.

(** What the shell handler writes when every sink takes its line. *)
Lemma on_shell_delivers (st : State) (c : nat) (cn : Conn) :
  reachable st ->
  conns st !! c = Some cn -> c_stream cn = None -> c_phase cn = Ready ->
  (forall r, r ∈ users st -> accepts_writes st r) ->
  exists st',
    on_shell c cn st = (st', Normal tt) /\
    handle (Shell c) st = Some st' /\
    users st' = users st ++ [length (heap st)] /\
    length (users st') - 1 = length (users st) /\
    sink st' (length (heap st)) =
      [_parseTags (length (heap st)) (welcome (length (users st') - 1))] /\
    (forall r, r ∈ users st ->
       sink st' r = sink st r ++ [joined_text (c_name cn) r]).
Proof.
  intros R Hc Hs Hp W. pose proof (reachable_Inv st R) as I.
  set (stream := length (heap st)).
  set (st1 := shell_setup c cn st).
  assert (Fresh : stream ∉ users st).
  { intros H%(Inv_valid_member st _ I)%lookup_lt_is_Some. unfold stream in H. lia. }
  assert (ND : NoDup (users st ++ [stream])).
  { apply NoDup_app. split; [apply I|]. split; [|apply NoDup_singleton].
    by intros r Hr ->%list_elem_of_singleton. }
  assert (W1 : forall r, r ∈ users st ++ [stream] -> accepts_writes st1 r).
  { intros r [Hr| ->%list_elem_of_singleton]%elem_of_app.
    - destruct (W r Hr) as (s & Hs' & Hw). exists s. split; [|done].
      simpl. by apply lookup_app_l_Some.
    - exists (new_stream cn). split; [|done]. simpl. by apply list_lookup_middle. }
  assert (S1 : forall r, r ∈ users st -> sink st1 r = sink st r).
  { intros r Hr. destruct (W r Hr) as (s & Hs' & _). unfold sink. simpl.
    by rewrite (lookup_app_l_Some _ _ _ _ Hs'), Hs'. }
  assert (S1' : sink st1 stream = []).
  { unfold sink. simpl. by rewrite list_lookup_middle. }
  destruct (render_then_add
              (formatMessage (welcome (length (users st ++ [stream]) - 1)) stream)
              (_parseTags stream (welcome (length (users st ++ [stream]) - 1)))
              stream st1) as (st2 & E2 & S2).
  { apply framed_formatMessage. }
  { intros st0 V. by apply formatMessage_run. }
  { apply W1, elem_of_app. right. by apply list_elem_of_singleton. }
  assert (F2 : same_frame st1 st2).
  { pose proof (framed_localMessage (welcome (length (users st ++ [stream]) - 1))
                  stream st1) as F. unfold localMessage in F. by rewrite E2 in F. }
  destruct (for_of_delivers (join_body cn stream)
              (fun u => if Nat.eqb u stream then [] else [joined_text (c_name cn) u])
              (users st ++ [stream])) with (st := st2) as (st3 & E3 & S3).
  { intros u. apply framed_join_body. }
  { intros u st0 _ Wu. by apply join_body_run. }
  { done. }
  { intros u Hu. apply (same_frame_accepts st1); [done|by apply W1]. }
  assert (Eq : on_shell c cn st = (st3, Normal tt)).
  { rewrite on_shell_unfold. fold stream. fold st1.
    unfold localMessage. by rewrite (bind_normal _ _ _ _ _ E2). }
  assert (U3 : users st3 = users st ++ [stream]).
  { pose proof (on_shell_frame c cn st) as (U & _). by rewrite Eq in U. }
  exists st3. split; [done|]. split.
  { simpl. rewrite Hc. simpl. rewrite Hs. unfold is_ready. rewrite Hp. by rewrite Eq. }
  split; [done|]. split; [rewrite U3, length_app; simpl; lia|]. split.
  - rewrite S3, S2, S1', U3. rewrite decide_True by done.
    rewrite decide_True by (apply elem_of_app; right; by apply list_elem_of_singleton).
    by rewrite Nat.eqb_refl.
  - intros r Hr. rewrite S3, S2, (S1 r Hr).
    assert (Hne : r <> stream) by congruence.
    rewrite decide_False by done.
    rewrite decide_True by (apply elem_of_app; by left).
    apply Nat.eqb_neq in Hne. rewrite Hne. by rewrite app_nil_r.
Qed.

(** The decimal rendering of a number reads as that number. *)
Lemma digits_value_of_uint (d : Decimal.uint) (acc : nat) :
  digits_value acc (digits_of_uint d) = Some (Nat.of_uint_acc d acc).
Proof.
  revert acc. induction d; intros acc; simpl; [done|..];
    rewrite IHd, Nat.tail_mul_spec; do 2 f_equal; lia.
Qed.

Lemma decimal_reads_as (n : nat) : reads_as (decimal n) n.
Proof.
  split.
  - unfold decimal. destruct (Nat.to_uint n) eqn:E; [|discriminate..]. exfalso.
    pose proof (DecimalNat.Unsigned.of_to n) as H. rewrite E in H.
    cbn in H. subst n. vm_compute in E. discriminate E.
  - unfold decimal. rewrite digits_value_of_uint.
    f_equal. apply DecimalNat.Unsigned.of_to.
Qed.


(** ** Quitting *)

Lemma leave_body_run cn u st :
  accepts_writes st u ->
  exists st', leave_body cn u st = (st', Normal tt) /\
    forall q, sink st' q = sink st q ++
      (if decide (q = u) then [left_text (c_name cn) u] else []).
Proof.
  intros W. unfold leave_body.
  apply render_then_add; [apply framed_left| |done].
  intros st0 V. by apply left_run.
Qed.

(** What a quit line and the close after it do when every sink takes its
    line. *)
Lemma quit_then_close (st : State) (c : nat) (cn : Conn) (stream : ref)
    (line : jsstring) :
  reachable st ->
  conns st !! c = Some cn -> c_stream cn = Some stream -> c_phase cn = Ready ->
  sanitize line = str "/quit" \/ sanitize line = str "/exit" ->
  (forall r, r ∈ users st -> accepts_writes st r) ->
  exists st1 st2 pre post,
    on_submit stream line st = (st1, Normal tt) /\
    handle (Submit c line) st = Some st1 /\
    users st1 = users st /\
    (forall q, sink st1 q = sink st q) /\
    (exists s, heap st1 !! stream = Some s /\ ended s = true) /\
    handle (Close c) st1 = Some st2 /\
    (exists cn2, conns st2 !! c = Some cn2 /\ c_phase cn2 = Closed) /\
    users st = pre ++ stream :: post /\
    users st2 = pre ++ post /\
    (stream ∉ users st2) /\
    sink st2 stream = sink st stream /\
    (forall r, r ∈ users st2 ->
       sink st2 r = sink st r ++ [left_text (c_name cn) r]).
Proof.
  intros R Hc Hs Hp Hq W. pose proof (reachable_Inv st R) as I.
  destruct (inv_stream st I c cn stream Hc Hs) as (Hn & _ & Hm).
  specialize (Hm Hp).
  destruct (Inv_valid_member st stream I Hm) as [s0 Hs0].
  set (st1 := set_heap (alter set_ended stream) st).
  assert (E1 : on_submit stream line st = (st1, Normal tt)).
  { unfold on_submit.
    assert (Q : (0 <? length (sanitize line)) = true /\
                (str_eqb (sanitize line) QUIT || str_eqb (sanitize line) EXIT) = true).
    { destruct Hq as [->| ->]; by vm_compute. }
    destruct Q as [-> ->]. by apply (update_run st stream s0). }
  assert (S1 : forall q, sink st1 q = sink st q).
  { intros q. by apply sink_alter_lines. }
  assert (S1' : forall q,
            sink (set_users (fun us => splice (indexOf stream us) 1 us) st1) q = sink st q).
  { intros q. exact (S1 q). }
  assert (W1 : forall r, r ∈ users st -> accepts_writes st1 r).
  { intros r Hr. destruct (W r Hr) as (s & Hs' & Hw). unfold accepts_writes. simpl.
    destruct (decide (stream = r)) as [<-|Hne].
    - rewrite list_lookup_alter_eq, Hs'. by eexists.
    - rewrite list_lookup_alter_ne by done. by eexists. }
  destruct (close_member (users st) stream (inv_nodup st I) Hm)
    as (pre & post & EU & ES & Hout).
  set (st1' := set_users (fun us => splice (indexOf stream us) 1 us) st1).
  assert (ND : NoDup (pre ++ post)).
  { pose proof (inv_nodup st I) as ND. rewrite EU in ND.
    apply NoDup_app in ND as (N1 & D & [_ N2]%NoDup_cons).
    apply NoDup_app. split; [done|]. split; [|done].
    intros x Hx Hx'. apply (D x Hx). by right. }
  assert (Sub : forall r, r ∈ pre ++ post -> r ∈ users st).
  { intros r. rewrite EU, !elem_of_app, elem_of_cons. tauto. }
  destruct (for_of_delivers (leave_body cn)
              (fun u => [left_text (c_name cn) u]) (pre ++ post))
    with (st := st1') as (st2 & E2 & S2).
  { intros u. apply framed_leave_body. }
  { intros u st0 _ Wu. by apply leave_body_run. }
  { done. }
  { intros u Hu. destruct (W1 u (Sub u Hu)) as (s & Hs' & Hw). by exists s. }
  assert (EC : on_close cn st1 = (st2, Normal tt)).
  { rewrite (on_close_unfold cn stream st1 Hs). fold st1'.
    change (users st1) with (users st). by rewrite ES. }
  assert (U2 : users st2 = pre ++ post).
  { destruct (on_close_skeleton cn st1) as (U & _). rewrite EC, Hs in U.
    simpl in U. by rewrite U, ES. }
  assert (C2 : conns st2 = conns st).
  { destruct (on_close_skeleton cn st1) as (_ & C & _). by rewrite EC in C. }
  exists st1, (set_conns (alter (set_phase Closed) c) st2), pre, post.
  split; [done|]. split.
  { simpl. rewrite Hc. simpl. rewrite Hs. unfold is_ready. rewrite Hp. by rewrite E1. }
  split; [done|]. split; [done|]. split.
  { exists (set_ended s0). split; [|done]. simpl. by rewrite list_lookup_alter_eq, Hs0. }
  split.
  { simpl. change (conns st1) with (conns st). rewrite Hc. simpl. rewrite Hp.
    by rewrite EC. }
  split.
  { exists (set_phase Closed cn). simpl. rewrite C2, list_lookup_alter_eq, Hc. done. }
  split; [done|]. split; [done|]. split; [simpl; by rewrite U2|]. split.
  - change (sink (set_conns (alter (set_phase Closed) c) st2) stream) with (sink st2 stream).
    rewrite S2. rewrite decide_False by done. by rewrite app_nil_r, S1'.
  - simpl. rewrite U2. intros r Hr.
    change (sink (set_conns (alter (set_phase Closed) c) st2) r) with (sink st2 r).
    rewrite S2. rewrite decide_True by done. by rewrite S1'.
Qed.

(** C8, amended: a line that sanitizes to [/quit] or [/exit] ends the
    stream of the session and does nothing else: it is not broadcast, the
    session stays in the registry and its connection stays open. The
    session leaves when the transport reports the close of the connection:
    then it is taken out of the registry, the connection is closed, and
    every member that remains gets the "left" notice with the name of the
    session once. *)
Theorem quit_ends_stream_and_close_unregisters (st : State) (c : nat) (cn : Conn)
    (stream : ref) (line : jsstring) :
  reachable st ->
  conns st !! c = Some cn -> c_stream cn = Some stream -> c_phase cn = Ready ->
  sanitize line = str "/quit" \/ sanitize line = str "/exit" ->
  (forall r, r ∈ users st -> accepts_writes st r) ->
  exists st1 st2 pre post n,
    c_name cn = Some n /\
    handle (Submit c line) st = Some st1 /\
    users st1 = users st /\ conns st1 = conns st /\
    (forall q, sink st1 q = sink st q) /\
    (exists s, heap st1 !! stream = Some s /\ ended s = true) /\
    handle (Close c) st1 = Some st2 /\
    (exists cn2, conns st2 !! c = Some cn2 /\ c_phase cn2 = Closed) /\
    users st = pre ++ stream :: post /\
    users st2 = pre ++ post /\
    (stream ∉ users st2) /\
    sink st2 stream = sink st stream /\
    (forall r, r ∈ users st2 ->
       sink st2 r = sink st r
         ++ [_parseTags r (str "{magenta-fg}*** {bold}") ++ n
             ++ _parseTags r (str "{/bold} has left the chat{/}")]).
Proof.
  intros R Hc Hs Hp Hq W.
  destruct (inv_ready st (reachable_Inv st R) c cn Hc Hp) as [n Hn].
  destruct (quit_then_close st c cn stream line R Hc Hs Hp Hq W)
    as (st1 & st2 & pre & post & E1 & H1 & U1 & S1 & En & H2 & C2 & EU & U2 & Out & S2 & L).
  exists st1, st2, pre, post, n.
  split; [done|]. split; [done|]. split; [done|]. split.
  { destruct (on_submit_skeleton stream line st) as (_ & C & _). by rewrite E1 in C. }
  split; [done|]. split; [done|]. split; [done|]. split; [done|]. split; [done|].
  split; [done|]. split; [done|]. split; [done|].
  intros r Hr. rewrite (L r Hr). unfold left_text. by rewrite Hn.
Qed.

(** ** Broadcast *)

Lemma userBroadcast_unfold msg source src st :
  heap st !! source = Some src ->
  userBroadcast msg source st = for_of (users st) (broadcast_body msg source src) st.
Proof.
  intros H. unfold userBroadcast. rewrite bind_unfold. unfold deref. by rewrite H.
Qed.

Lemma framed_broadcast_body msg source src user : framed (broadcast_body msg source src user).
Proof.
  unfold broadcast_body. destruct (Nat.eqb source user); [apply framed_add|].
  apply framed_bind; [apply framed_formatMessage|]. intros n. apply framed_add.
Qed.

Lemma broadcast_body_run msg source src u st :
  accepts_writes st u ->
  exists st', broadcast_body msg source src u st = (st', Normal tt) /\
    forall q, sink st' q = sink st q ++
      (if decide (q = u) then [broadcast_line msg source src u] else []).
Proof.
  intros W. unfold broadcast_body, broadcast_line. destruct (Nat.eqb source u).
  - by apply add_run.
  - set (nm := str "{cyan-fg}{bold}" ++ to_str (name src) ++ str "{/}").
    destruct (formatMessage_run nm u st (accepts_valid _ _ W)) as (st1 & E1 & S1).
    assert (W1 : accepts_writes st1 u).
    { apply (same_frame_accepts st); [|done].
      pose proof (framed_formatMessage nm u st) as F. by rewrite E1 in F. }
    destruct (add_run st1 u (_parseTags u nm ++ str ": " ++ msg) W1) as (st2 & E2 & S2).
    exists st2. split; [by rewrite (bind_normal _ _ _ _ _ E1)|].
    intros q. by rewrite S2, S1.
Qed.

Lemma broadcast_body_fails msg source src u st :
  refuses_writes st u ->
  exists st', broadcast_body msg source src u st = (st', Throw SinkError) /\
    same_sinks st st'.
Proof.
  intros W. unfold broadcast_body. destruct (Nat.eqb source u).
  - destruct W as (s & Hs & Hw). exists st. split; [by apply (add_fails st u s)|done].
  - set (nm := str "{cyan-fg}{bold}" ++ to_str (name src) ++ str "{/}").
    assert (V : is_Some (heap st !! u)) by (destruct W as (s & -> & _); by eexists).
    destruct (formatMessage_run nm u st V) as (st1 & E1 & S1).
    assert (W1 : refuses_writes st1 u).
    { apply (same_frame_refuses st); [|done].
      pose proof (framed_formatMessage nm u st) as F. by rewrite E1 in F. }
    destruct W1 as (s1 & Hs1 & Hw1). exists st1. split; [|done].
    rewrite (bind_normal _ _ _ _ _ E1). by apply (add_fails st1 u s1).
Qed.

(** C1, amended: the loop of the broadcast has no handler for a failing
    write. The members before the failing one in the order of the registry
    have their line; the exception leaves the broadcast at the failing
    member, and neither that member nor any after it gets a line. *)
Theorem broadcast_stops_at_failing_sink (st : State) (msg : jsstring) (source : ref)
    (src : Stream) (pre post : list ref) (r : ref) :
  reachable st ->
  heap st !! source = Some src ->
  users st = pre ++ r :: post ->
  (forall p, p ∈ pre -> accepts_writes st p) ->
  refuses_writes st r ->
  exists st',
    userBroadcast msg source st = (st', Throw SinkError) /\
    (forall p, p ∈ pre -> sink st' p = sink st p ++ [broadcast_line msg source src p]) /\
    (forall q, q ∉ pre -> sink st' q = sink st q).
Proof.
  intros R Hsrc EU W Wr. pose proof (inv_nodup st (reachable_Inv st R)) as ND.
  rewrite EU in ND. apply NoDup_app in ND as (ND & _ & _).
  destruct (for_of_delivers (broadcast_body msg source src)
              (fun u => [broadcast_line msg source src u]) pre)
    with (st := st) as (st1 & E1 & S1).
  { intros u. apply framed_broadcast_body. }
  { intros u st0 _ Wu. by apply broadcast_body_run. }
  { done. }
  { done. }
  assert (F1 : same_frame st st1).
  { pose proof (framed_for_of pre (broadcast_body msg source src)
                  (framed_broadcast_body msg source src) st) as F. by rewrite E1 in F. }
  destruct (broadcast_body_fails msg source src r st1 (same_frame_refuses _ _ _ F1 Wr))
    as (st2 & E2 & S2).
  exists st2. split; [|split].
  - rewrite (userBroadcast_unfold msg source src st Hsrc), EU, for_of_app.
    rewrite (bind_normal _ _ _ _ _ E1). simpl. by rewrite (bind_throw _ _ _ _ _ E2).
  - intros p Hp. rewrite S2, S1. by rewrite decide_True.
  - intros q Hq. rewrite S2, S1. rewrite decide_False by done. by rewrite app_nil_r.
Qed.

(** ** Uniqueness of nicknames *)

Lemma unraced_reachable st : reachable_unraced st -> reachable st.
Proof.
  induction 1 as [|st e st' _ IH H _]; [apply reachable_init|].
  by apply (reachable_step _ _ st e).
Qed.

Lemma unraced_awaiting st : reachable_unraced st -> awaiting_distinct st.
Proof.
  destruct 1 as [|st e st' _ _ H]; [|done].
  intros c1 c2 cn1 cn2 n1 n2 _ H1. simpl in H1. by rewrite lookup_nil in H1.
Qed.

(** What the loops of the negotiation establish when they find nobody. *)
Lemma name_in_use_false lowered (us : list ref) (h : list Stream) :
  name_in_use lowered us h = Normal false ->
  forall r n, r ∈ us -> h !! r ≫= name = Some n -> toLowerCase n <> lowered.
Proof.
  induction us as [|u us IH]; simpl; [by intros _ r n ?%elem_of_nil|].
  destruct (h !! u) as [s|] eqn:Hu; [|done].
  destruct (name s) as [m|] eqn:Hm; [|done].
  unfold str_eqb. destruct (bool_decide_reflect (toLowerCase m = lowered)) as [|Hne]; [done|].
  intros H r n [->|Hr]%elem_of_cons.
  - rewrite Hu. simpl. rewrite Hm. by intros [= <-].
  - by apply IH.
Qed.

Lemma splice_subseteq a b (l : list ref) x : x ∈ splice a b l -> x ∈ l.
Proof.
  unfold splice. intros [H|H]%elem_of_app.
  - by apply (subseteq_take _ l) in H.
  - by apply (subseteq_drop _ l) in H.
Qed.

Lemma member_name_same st st' r :
  names st' = names st -> member_name st' r = member_name st r.
Proof. intros H. by rewrite !member_name_names, H. Qed.

Lemma distinct_effect st st' :
  Inv st -> names_distinct st -> member_awaiting_distinct st -> awaiting_distinct st ->
  effect st st' ->
  names_distinct st' /\ member_awaiting_distinct st'.
Proof.
  intros I D X P [U N C|c cn f U N Hc C Fs Fn Fp|c cn n U H Hc Hp C V Nu
                  |c cn Hc Hs Hp U N C|c cn Hc Hp U N C|U N C].
  - split.
    + intros r1 r2 n1 n2. rewrite U, !(member_name_same st st') by done. apply D.
    + intros r c cn n1 n2. rewrite U, (member_name_same st st'), C by done.
      intros Hr Hn [[_ Hc]|[_ <-]]%lookup_snoc_Some; [by apply (X r c)|].
      by intros [? _].
  - split.
    + intros r1 r2 n1 n2. rewrite U, !(member_name_same st st') by done. apply D.
    + intros r c0 cn0 n1 n2. rewrite U, (member_name_same st st'), C by done.
      intros Hr Hn [[-> (y & Hy & ->)]|[_ H0]]%lookup_alter_cases; [|by apply (X r c0)].
      assert (y = cn) as -> by congruence.
      intros [A1 A2]. rewrite Fn. apply (X r c cn n1 n2); try done.
      split; [|congruence].
      destruct Fp as [<-|[_ E]]; [done|]. rewrite A1 in E. by destruct negotiating_not_ready.
  - assert (N : names st' = names st) by (unfold names; by rewrite H).
    split.
    + intros r1 r2 n1 n2. rewrite U, !(member_name_same st st') by done. apply D.
    + intros r c0 cn0 n1 n2. rewrite U, (member_name_same st st'), C by done.
      intros Hr Hn [[-> (y & Hy & ->)]|[Hne H0]]%lookup_alter_cases.
      * apply lookup_alter_cases in Hy as [[_ (z & Hz & ->)]|[? _]]; [|done].
        simpl. intros _ [= <-].
        apply (name_in_use_false _ _ _ Nu r n1 Hr). unfold member_name in Hn. done.
      * rewrite list_lookup_alter_ne in H0 by done. by apply (X r c0).
  - assert (Len : length (heap st) = length (names st))
      by (unfold names; by rewrite length_fmap).
    destruct (inv_ready st I c cn Hc Hp) as [n Hn].
    assert (Old : forall r, r ∈ users st -> member_name st' r = member_name st r).
    { intros r Hr%(inv_member st I). rewrite !member_name_names, N.
      by rewrite lookup_app_l. }
    assert (New : member_name st' (length (heap st)) = Some n).
    { rewrite member_name_names, N, Len, list_lookup_middle by done. by rewrite Hn. }
    assert (A : awaiting cn) by done.
    split.
    + intros r1 r2 n1 n2. rewrite U.
      intros [H1| ->%list_elem_of_singleton]%elem_of_app
             [H2| ->%list_elem_of_singleton]%elem_of_app Hne;
        rewrite ?(Old _ H1), ?(Old _ H2), ?New.
      * by apply D.
      * intros M1 [= <-]. by apply (X r1 c cn n1 n).
      * intros [= <-] M2 E. by apply (X r2 c cn n2 n).
      * done.
    + intros r c0 cn0 n1 n2. rewrite U, C.
      intros Hr Hm [[-> (y & Hy & ->)]|[Hne H0]]%lookup_alter_cases; [by intros [_ ?]|].
      intros A0 Hn0. apply elem_of_app in Hr as [Hr| ->%list_elem_of_singleton].
      * rewrite (Old _ Hr) in Hm. by apply (X r c0 cn0).
      * rewrite New in Hm. injection Hm as <-.
        by apply (P c c0 cn cn0 n n2).
  - assert (Sub : forall r, r ∈ users st' -> r ∈ users st).
    { intros r. rewrite U. destruct (c_stream cn); [apply splice_subseteq|done]. }
    split.
    + intros r1 r2 n1 n2 H1%Sub H2%Sub. rewrite !(member_name_same st st') by done.
      by apply D.
    + intros r c0 cn0 n1 n2 Hr%Sub. rewrite (member_name_same st st'), C by done.
      intros Hn [[-> (y & Hy & ->)]|[_ H0]]%lookup_alter_cases; [by intros [? _]|].
      by apply (X r c0).
  - split.
    + intros r1 r2 n1 n2. rewrite U, !(member_name_same st st') by done. apply D.
    + intros r c0 cn0 n1 n2. rewrite U, (member_name_same st st'), C by done.
      apply X.
Qed.

(** C5, amended: the negotiation compares a candidate with the members
    only, so the names of the members are pairwise distinct up to case in
    every state reached without two accepted sessions waiting for their
    shell under names that are equal up to case. *)
Theorem member_names_distinct_without_race (st : State) :
  reachable_unraced st -> names_distinct st.
Proof.
  intros R.
  enough (names_distinct st /\ member_awaiting_distinct st) by tauto.
  induction R as [|st e st' R IH H P].
  - split.
    + by intros r1 r2 n1 n2 ?%elem_of_nil.
    + by intros r c cn n1 n2 ?%elem_of_nil.
  - destruct IH as [D X].
    apply (distinct_effect st st'); try done.
    + by apply reachable_Inv, unraced_reachable.
    + by apply unraced_awaiting.
    + by apply (handle_effect e).
Qed.

(** ** Further properties of the handlers *)

(** What a broadcast does when no sink raises. *)
Lemma userBroadcast_delivers st msg source src :
  NoDup (users st) ->
  heap st !! source = Some src ->
  (forall r, r ∈ users st -> accepts_writes st r) ->
  exists st',
    userBroadcast msg source st = (st', Normal tt) /\
    same_frame st st' /\
    forall q, sink st' q = sink st q ++
      (if decide (q ∈ users st) then [broadcast_line msg source src q] else []).
Proof.
  intros ND Hsrc W.
  destruct (for_of_delivers (broadcast_body msg source src)
              (fun u => [broadcast_line msg source src u]) (users st))
    with (st := st) as (st' & E & S).
  { intros u. apply framed_broadcast_body. }
  { intros u st0 _ Wu. by apply broadcast_body_run. }
  { done. }
  { done. }
  exists st'. rewrite (userBroadcast_unfold msg source src st Hsrc). split; [done|].
  split; [|done].
  pose proof (framed_for_of (users st) (broadcast_body msg source src)
                (framed_broadcast_body msg source src) st) as F. by rewrite E in F.
Qed.

(** X1: a broadcast in a reachable state whose members' sinks all take
    their line ends normally; the author's sink gets ["> " + msg], every
    other member's sink gets the parsed name followed by [": " + msg],
    each exactly once, and nothing else changes: not the registry, not
    the closures, not the sink of a stream that is not a member. *)
Theorem broadcast_reaches_every_member (st : State) (msg : jsstring) (source : ref)
    (src : Stream) :
  reachable st ->
  heap st !! source = Some src ->
  (forall r, r ∈ users st -> accepts_writes st r) ->
  exists st',
    userBroadcast msg source st = (st', Normal tt) /\
    users st' = users st /\ conns st' = conns st /\
    (source ∈ users st -> sink st' source = sink st source ++ [str "> " ++ msg]) /\
    (forall r, r ∈ users st -> r <> source ->
       sink st' r = sink st r
         ++ [_parseTags r (str "{cyan-fg}{bold}" ++ to_str (name src) ++ str "{/}")
             ++ str ": " ++ msg]) /\
    (forall q, q ∉ users st -> sink st' q = sink st q).
Proof.
  intros R Hsrc W.
  destruct (userBroadcast_delivers st msg source src
              (inv_nodup st (reachable_Inv st R)) Hsrc W) as (st' & E & (U & C & _) & S).
  exists st'. split; [done|]. split; [done|]. split; [done|]. split; [|split].
  - intros Hs. rewrite S, decide_True by done. unfold broadcast_line.
    by rewrite Nat.eqb_refl.
  - intros r Hr Hne. rewrite S, decide_True by done. unfold broadcast_line.
    assert (Hb : Nat.eqb source r = false) by (apply Nat.eqb_neq; congruence).
    by rewrite Hb.
  - intros q Hq. rewrite S, decide_False by done. by rewrite app_nil_r.
Qed.

(** X6: a submitted line whose sanitized text is neither empty nor a
    quit command is broadcast as that sanitized text, with the session as
    author: its own sink gets ["> " + text], every other member's sink the
    session's parsed name followed by [": " + text], and the registry
    stays as it is. *)
Theorem submitted_line_is_broadcast_sanitized (st : State) (c : nat) (cn : Conn)
    (stream : ref) (line : jsstring) :
  reachable st ->
  conns st !! c = Some cn -> c_stream cn = Some stream -> c_phase cn = Ready ->
  sanitize line <> [] -> sanitize line <> str "/quit" -> sanitize line <> str "/exit" ->
  (forall r, r ∈ users st -> accepts_writes st r) ->
  exists st',
    handle (Submit c line) st = Some st' /\
    users st' = users st /\
    sink st' stream = sink st stream ++ [str "> " ++ sanitize line] /\
    (forall r, r ∈ users st -> r <> stream ->
       sink st' r = sink st r
         ++ [_parseTags r (str "{cyan-fg}{bold}" ++ to_str (c_name cn) ++ str "{/}")
             ++ str ": " ++ sanitize line]).
Proof.
  intros R Hc Hs Hp N0 Nq Ne W. pose proof (reachable_Inv st R) as I.
  destruct (inv_stream st I c cn stream Hc Hs) as (Hn & _ & Hm). specialize (Hm Hp).
  destruct (Inv_valid_member st stream I Hm) as [src Hsrc].
  assert (Nm : name src = c_name cn).
  { unfold names in Hn. rewrite list_lookup_fmap, Hsrc in Hn. simpl in Hn. congruence. }
  destruct (userBroadcast_delivers st (sanitize line) stream src (inv_nodup st I) Hsrc W)
    as (st' & E & (U & _) & S).
  assert (Es : on_submit stream line st = (st', Normal tt)).
  { unfold on_submit.
    destruct (Nat.ltb_spec 0 (length (sanitize line))) as [_|L].
    - unfold str_eqb, QUIT, EXIT. rewrite !bool_decide_eq_false_2 by done. exact E.
    - destruct (sanitize line); [done|simpl in L; lia]. }
  exists st'. split.
  { simpl. rewrite Hc. simpl. rewrite Hs. unfold is_ready. rewrite Hp. by rewrite Es. }
  split; [done|]. split.
  - rewrite S, decide_True by done. unfold broadcast_line. by rewrite Nat.eqb_refl.
  - intros r Hr Hne. rewrite S, decide_True by done. unfold broadcast_line.
    assert (Hb : Nat.eqb stream r = false) by (apply Nat.eqb_neq; congruence).
    by rewrite Hb, Nm.
Qed.

(** X7: a line made of control units and white space only is
    discarded: the submit handler returns with the state as it found it. *)
Theorem blank_line_is_discarded (st : State) (stream : ref) (line : jsstring) :
  blank line -> on_submit stream line st = (st, Normal tt).
Proof. intros B. unfold on_submit. by rewrite (blank_sanitize line B). Qed.

(** X8: a window change of a session that has its shell stores the
    reported numbers as they are, also a 0, in the closure and in the
    stream; no other stream, no sink and no membership changes. *)
Theorem window_change_resizes_in_place (st st' : State) (c : nat) (cn : Conn)
    (stream : ref) (r k : N) :
  reachable st ->
  conns st !! c = Some cn -> c_stream cn = Some stream ->
  handle (WindowChange c r k) st = Some st' ->
  users st' = users st /\
  (forall q, sink st' q = sink st q) /\
  (exists s, heap st' !! stream = Some s /\ rows s = r /\ columns s = k) /\
  (forall q, q <> stream -> heap st' !! q = heap st !! q) /\
  (exists cn', conns st' !! c = Some cn' /\ c_rows cn' = Some r /\ c_cols cn' = Some k).
Proof.
  intros R Hc Hs. pose proof (reachable_Inv st R) as I.
  destruct (inv_stream st I c cn stream Hc Hs) as (Hn & _).
  assert (V : is_Some (heap st !! stream)).
  { apply lookup_lt_is_Some. apply lookup_lt_Some in Hn. unfold names in Hn.
    by rewrite length_fmap in Hn. }
  destruct V as [s0 Hs0].
  simpl. rewrite Hc. simpl. destruct (is_ready cn); [|done]. intros [= <-].
  unfold on_window_change. rewrite bind_unfold. simpl. rewrite Hs.
  rewrite (update_run _ stream s0) by done. simpl.
  split; [done|]. split; [|split; [|split]].
  - intros q. by apply (sink_alter_lines st).
  - exists (set_geometry r k s0). by rewrite list_lookup_alter_eq, Hs0.
  - intros q Hq. by rewrite list_lookup_alter_ne.
  - exists (set_size r k cn). by rewrite list_lookup_alter_eq, Hc.
Qed.

(** X9: only a shell request and a close change the registry: a
    shell request appends the new stream, a close takes streams out, and
    every other event, whatever it throws, leaves [users] as it is. *)
Theorem registry_changes_only_on_shell_and_close (e : event) (st st' : State) :
  handle e st = Some st' ->
  match e with
  | Shell _ => users st' = users st ++ [length (heap st)]
  | Close _ => forall r, r ∈ users st' -> r ∈ users st
  | _ => users st' = users st
  end.
Proof.
  intros H. pose proof (handle_effect e st st' H) as Ef.
  destruct e as [|c username method|c answers|c r k t|c r k|c|c line|c|r ok];
    simpl in H.
  - by injection H as <-.
  - destruct (conns st !! c) as [cn|]; simpl in H; [|done].
    destruct (c_phase cn); try done;
      destruct (on_authentication c username method st) as [st0 a] eqn:E;
      injection H as <-; destruct (on_authentication_effect _ _ _ _ _ _ E) as (U & _);
      by destruct a as [[| |]|].
  - destruct (conns st !! c) as [cn|]; simpl in H; [|done].
    destruct (c_phase cn); try done.
    destruct (retryPrompt c answers st) as [st0 a] eqn:E.
    injection H as <-. destruct (retryPrompt_effect _ _ _ _ _ E) as (U & _).
    by destruct a as [[| |]|].
  - destruct (conns st !! c) as [cn|]; simpl in H; [|done].
    destruct (_ && _); [|done]. by injection H as <-.
  - destruct (conns st !! c) as [cn|]; simpl in H; [|done].
    destruct (is_ready cn); [|done]. injection H as <-.
    by destruct (on_window_change_skeleton c cn r k st) as (U & _).
  - destruct (conns st !! c) as [cn|]; simpl in H; [|done].
    destruct (c_stream cn); [done|]. destruct (is_ready cn); [|done]. injection H as <-.
    by destruct (on_shell_frame c cn st) as (U & _).
  - destruct (conns st !! c) as [cn|]; simpl in H; [|done].
    destruct (c_stream cn) as [stream|]; [|done]. destruct (is_ready cn); [|done].
    injection H as <-. by destruct (on_submit_skeleton stream line st) as (U & _).
  - destruct (conns st !! c) as [cn|]; simpl in H; [|done].
    destruct (on_close_skeleton cn st) as (U & _).
    assert (Sub : forall r, r ∈ users (on_close cn st).1 -> r ∈ users st).
    { intros r. rewrite U. destruct (c_stream cn); [apply splice_subseteq|done]. }
    destruct (c_phase cn); [| | |done]; injection H as <-; exact Sub.
  - by injection H as <-.
Qed.

(** X10: no event changes the name a stream was registered with, and no
    event takes a stream object away. *)
Theorem member_name_is_stable (e : event) (st st' : State) (r : ref) :
  handle e st = Some st' -> r < length (heap st) ->
  member_name st' r = member_name st r /\ r < length (heap st').
Proof.
  intros H Hr. rewrite !member_name_names.
  assert (L : forall s, length (heap s) = length (names s))
    by (intros s; unfold names; by rewrite length_fmap).
  rewrite L in Hr. rewrite L.
  destruct (handle_effect e st st' H)
    as [U N C|c cn f U N Hc C Fs Fn Fp|c cn n U Hh Hc Hp C V Nu
       |c cn Hc Hs Hp U N C|c cn Hc Hp U N C|U N C];
    try (by rewrite N).
  - unfold names. by rewrite Hh.
  - rewrite N, length_app. split; [by rewrite lookup_app_l|lia].
Qed.

(** X11: a connection that closes while it still negotiates its
    nickname has no stream, so its close leaves the registry and every
    stream, sinks included, as they are. *)
Theorem close_during_negotiation_changes_nothing (st st' : State) (c : nat) (cn : Conn) :
  reachable st ->
  conns st !! c = Some cn -> negotiating (c_phase cn) ->
  handle (Close c) st = Some st' ->
  users st' = users st /\ heap st' = heap st /\
  conns st' = alter (set_phase Closed) c (conns st).
Proof.
  intros R Hc Hp. pose proof (reachable_Inv st R) as I.
  assert (Hs : c_stream cn = None).
  { destruct (c_stream cn) as [r|] eqn:E; [|done].
    by destruct (inv_stream st I c cn r Hc E) as (_ & Hn & _). }
  simpl. rewrite Hc. simpl. rewrite (on_close_without_stream cn st Hs).
  destruct Hp as [-> | ->]; by intros [= <-].
Qed.

(** *** The registry and the open sessions *)

Lemma owned_effect st st' : Inv st -> owned st -> effect st st' -> owned st'.
Proof.
  intros I O [U N C|c cn f U N Hc C Fs Fn Fp|c cn n U H Hc Hp C V Nu
              |c cn Hc Hs Hp U N C|c cn Hc Hp U N C|U N C] r; rewrite ?U.
  - intros (c0 & cn0 & H0 & S0 & P0)%O. exists c0, cn0.
    split; [|done]. rewrite C. by apply lookup_app_l_Some.
  - intros (c0 & cn0 & H0 & S0 & P0)%O. exists c0. unfold owner. rewrite C.
    destruct (decide (c = c0)) as [<-|Hne].
    + assert (cn0 = cn) as -> by congruence.
      exists (f cn). rewrite list_lookup_alter_eq, Hc. split; [done|].
      split; [congruence|].
      destruct Fp as [->|[Ng _]]; [done|]. rewrite P0 in Ng.
      by destruct negotiating_not_ready.
    + exists cn0. by rewrite list_lookup_alter_ne.
  - intros (c0 & cn0 & H0 & S0 & P0)%O. exists c0, cn0. rewrite C.
    destruct (decide (c = c0)) as [<-|Hne].
    + assert (cn0 = cn) as -> by congruence. rewrite P0 in Hp.
      by destruct negotiating_not_ready.
    + by rewrite !list_lookup_alter_ne.
  - intros [(c0 & cn0 & H0 & S0 & P0)%O| ->%list_elem_of_singleton]%elem_of_app.
    + exists c0, cn0. rewrite C. rewrite list_lookup_alter_ne; [done|]. congruence.
    + exists c, (set_stream (length (heap st)) cn). rewrite C, list_lookup_alter_eq, Hc.
      done.
  - intros Hr.
    assert (Hr0 : r ∈ users st).
    { revert Hr. destruct (c_stream cn); [apply splice_subseteq|done]. }
    destruct (O r Hr0) as (c0 & cn0 & H0 & S0 & P0). exists c0, cn0. rewrite C.
    destruct (decide (c = c0)) as [<-|Hne]; [|by rewrite list_lookup_alter_ne].
    assert (cn0 = cn) as -> by congruence. rewrite S0 in Hr.
    destruct (close_member (users st) r (inv_nodup st I) Hr0) as (pre & post & _ & E & Hout).
    by rewrite E in Hr.
  - intros (c0 & cn0 & H0 & S0 & P0)%O. exists c0, cn0. by rewrite C.
Qed.

Lemma reachable_owned st : reachable st -> owned st.
Proof.
  intros R. induction R as [|st e st' R IH H].
  - by intros r ?%elem_of_nil.
  - apply (owned_effect st st'); [by apply reachable_Inv|done|by apply (handle_effect e)].
Qed.

(** X12: in every reachable state the registry holds exactly the
    streams of the connections that have their shell and have not closed,
    each once, and no two connections share a stream. *)
Theorem registry_mirrors_open_sessions (st : State) :
  reachable st ->
  NoDup (users st) /\
  (forall r, r ∈ users st <->
     exists c cn, conns st !! c = Some cn /\ c_stream cn = Some r /\ c_phase cn = Ready) /\
  (forall r c c' cn cn',
     conns st !! c = Some cn -> conns st !! c' = Some cn' ->
     c_stream cn = Some r -> c_stream cn' = Some r -> c = c').
Proof.
  intros R. pose proof (reachable_Inv st R) as I. split; [apply I|]. split.
  - intros r. split.
    + intros (c & cn & H)%(reachable_owned st R). by exists c, cn.
    + intros (c & cn & Hc & Hs & Hp).
      by destruct (inv_stream st I c cn r Hc Hs) as (_ & _ & Hm); apply Hm.
  - intros r c c' cn cn'. apply (inv_stream_inj st I).
Qed.

(** *** The decision of the negotiation *)

Lemma Inv_member_named st r :
  Inv st -> r ∈ users st -> exists n, member_name st r = Some n /\ valid_length n.
Proof.
  intros I Hr. pose proof (inv_member st I r Hr) as Hlt.
  apply lookup_lt_is_Some in Hlt as [o Ho].
  destruct (inv_names st I r o Ho) as (n & -> & V).
  exists n. split; [|done]. by rewrite member_name_names, Ho.
Qed.

Lemma name_in_use_decides lowered (us : list ref) (h : list Stream) :
  (forall r, r ∈ us -> is_Some (h !! r ≫= name)) ->
  exists b, name_in_use lowered us h = Normal b /\
    (b = true <->
     exists r n, r ∈ us /\ h !! r ≫= name = Some n /\ toLowerCase n = lowered).
Proof.
  induction us as [|u us IH]; intros Hn; simpl.
  - exists false. split; [done|]. split; [done|]. by intros (r & n & ?%elem_of_nil & _).
  - destruct (Hn u) as [m Hm]; [by left|].
    destruct (h !! u) as [s|] eqn:Hu; [|done]. simpl in Hm. rewrite Hm.
    unfold str_eqb. destruct (bool_decide_reflect (toLowerCase m = lowered)) as [Heq|Hne].
    + exists true. split; [done|]. split; [|done]. intros _. exists u, m.
      split; [by left|]. by rewrite Hu.
    + destruct IH as (b & E & Hb); [intros r Hr; apply Hn; by right|].
      exists b. split; [done|]. rewrite Hb. split.
      * intros (r & n & Hr & Hrn & Hl). exists r, n. split; [by right|done].
      * intros (r & n & [->|Hr]%elem_of_cons & Hrn & Hl).
        -- rewrite Hu in Hrn. simpl in Hrn. congruence.
        -- by exists r, n.
Qed.

Lemma in_use_reachable st lowered :
  Inv st ->
  exists b, name_in_use lowered (users st) (heap st) = Normal b /\
            (b = true <-> name_taken toLowerCase st lowered).
Proof.
  intros I. apply name_in_use_decides. intros r Hr.
  destruct (Inv_member_named st r I Hr) as (n & Hn & _). by exists n.
Qed.

(** X13: in a reachable state the authentication handler does not
    raise and changes neither registry nor streams. It accepts, and stores
    the name, exactly when the user name has 1 to 10 units and no member
    goes under a name equal to it up to case; otherwise it leaves the
    closures alone and either prompts, with the text for the reason, when
    the method is keyboard-interactive, or rejects with that method as
    the only one to go on with. *)
Theorem authentication_decision (st : State) (c : nat) (username method : jsstring) :
  reachable st ->
  exists st' a,
    on_authentication c username method st = (st', Normal a) /\
    users st' = users st /\ heap st' = heap st /\
    (1 <= length username <= 10 /\ ~ name_taken toLowerCase st (toLowerCase username) ->
       a = Accept /\ conns st' = alter (set_name username) c (conns st)) /\
    (~ (1 <= length username <= 10 /\
        ~ name_taken toLowerCase st (toLowerCase username)) ->
       conns st' = conns st /\
       a = if str_eqb method (str "keyboard-interactive")
           then Prompt (refusal username)
           else Reject [str "keyboard-interactive"]).
Proof.
  intros R. pose proof (reachable_Inv st R) as I.
  destruct (in_use_reachable st (toLowerCase username) I) as (b & E & Hb).
  unfold on_authentication, challenge, refusal, MAX_NAME_LEN.
  change (str "keyboard-interactive") with KEYBOARD_INTERACTIVE.
  destruct (Nat.ltb_spec 0 (length username)) as [L0|L0]; simpl.
  - destruct (Nat.leb_spec (length username) 10) as [L1|L1]; simpl.
    + rewrite bind_unfold, in_use_run, E.
      assert (Z0 : (length username =? 0) = false) by (apply Nat.eqb_neq; lia).
      assert (Z1 : (10 <? length username) = false) by (apply Nat.ltb_ge; lia).
      rewrite Z0, Z1. destruct b; simpl.
      * destruct (str_eqb method KEYBOARD_INTERACTIVE); simpl;
          eexists _, _; (split; [reflexivity|]); (split; [done|]); (split; [done|]);
          (split; [intros [_ Hf]; destruct Hf; by apply Hb|done]).
      * eexists _, _. split; [reflexivity|]. split; [done|]. split; [done|].
        split; [done|]. intros Hf. destruct Hf. split; [lia|].
        intros Ht%Hb. done.
    + assert (Z0 : (length username =? 0) = false) by (apply Nat.eqb_neq; lia).
      assert (Z1 : (10 <? length username) = true) by (apply Nat.ltb_lt; lia).
      rewrite Z0, Z1.
      destruct (str_eqb method KEYBOARD_INTERACTIVE); simpl;
        eexists _, _; (split; [reflexivity|]); (split; [done|]); (split; [done|]);
        (split; [intros [? _]; lia|done]).
  - assert (Z0 : (length username =? 0) = true) by (apply Nat.eqb_eq; lia).
    rewrite Z0.
    destruct (str_eqb method KEYBOARD_INTERACTIVE); simpl;
      eexists _, _; (split; [reflexivity|]); (split; [done|]); (split; [done|]);
      (split; [intros [? _]; lia|done]).
Qed.

(** X14: in a reachable state an answered prompt is never rejected and
    never raises: the first answer is accepted, and stored, exactly when
    it has 1 to 10 units and no member goes under a name equal to it up to
    case; otherwise the prompt is repeated with the text for the reason
    and nothing changes. Answers after the first are not looked at. *)
Theorem retry_decision (st : State) (c : nat) (nick : jsstring) (rest : list jsstring) :
  reachable st ->
  exists st' a,
    retryPrompt c (nick :: rest) st = (st', Normal a) /\
    users st' = users st /\ heap st' = heap st /\
    (1 <= length nick <= 10 /\ ~ name_taken toLowerCase st (toLowerCase nick) ->
       a = Accept /\ conns st' = alter (set_name nick) c (conns st)) /\
    (~ (1 <= length nick <= 10 /\ ~ name_taken toLowerCase st (toLowerCase nick)) ->
       conns st' = conns st /\ a = Prompt (refusal nick)).
Proof.
  intros R. pose proof (reachable_Inv st R) as I.
  destruct (in_use_reachable st (toLowerCase nick) I) as (b & E & Hb).
  unfold retryPrompt, refusal, MAX_NAME_LEN.
  destruct (Nat.ltb_spec 10 (length nick)) as [L1|L1].
  { assert (Z0 : (length nick =? 0) = false) by (apply Nat.eqb_neq; lia).
    rewrite Z0. eexists _, _. split; [reflexivity|]. split; [done|]. split; [done|].
    split; [intros [? _]; lia|done]. }
  destruct (Nat.eqb_spec (length nick) 0) as [L0|L0].
  { eexists _, _. split; [reflexivity|]. split; [done|]. split; [done|].
    split; [intros [? _]; lia|done]. }
  rewrite bind_unfold, in_use_run, E. destruct b; simpl.
  - eexists _, _. split; [reflexivity|]. split; [done|]. split; [done|].
    split; [intros [_ Hf]; destruct Hf; by apply Hb|done].
  - eexists _, _. split; [reflexivity|]. split; [done|]. split; [done|].
    split; [done|]. intros Hf. destruct Hf. split; [lia|]. intros Ht%Hb. done.
Qed.

(** *** A name comes free again *)

Lemma unraced_names_distinct st : reachable_unraced st -> names_distinct st.
Proof.
  intros R.
  enough (names_distinct st /\ member_awaiting_distinct st) by tauto.
  induction R as [|st e st' R IH H P].
  - split.
    + by intros r1 r2 n1 n2 ?%elem_of_nil.
    + by intros r c cn n1 n2 ?%elem_of_nil.
  - destruct IH as [D X].
    apply (distinct_effect st st'); try done.
    + by apply reachable_Inv, unraced_reachable.
    + by apply unraced_awaiting.
    + by apply (handle_effect e).
Qed.

Lemma name_in_use_free lowered (us : list ref) (h : list Stream) :
  (forall r, r ∈ us -> exists m, h !! r ≫= name = Some m /\ toLowerCase m <> lowered) ->
  name_in_use lowered us h = Normal false.
Proof.
  induction us as [|u us IH]; intros Hn; simpl; [done|].
  destruct (Hn u) as (m & Hm & Hne); [by left|].
  destruct (h !! u) as [s|] eqn:Hu; [|done]. simpl in Hm. rewrite Hm.
  unfold str_eqb. rewrite bool_decide_eq_false_2 by done.
  apply IH. intros r Hr. apply Hn. by right.
Qed.

(** X15: once a member has left, its nickname is free again: after
    the close of a session, in a run without the race of the negotiation,
    an authentication under the name the session had is accepted at once,
    whatever the method. *)
Theorem nickname_is_free_after_leaving (st st' : State) (c c2 : nat) (cn : Conn)
    (r : ref) (n method : jsstring) :
  reachable_unraced st ->
  conns st !! c = Some cn -> c_stream cn = Some r -> c_phase cn = Ready ->
  c_name cn = Some n ->
  handle (Close c) st = Some st' ->
  exists st'', on_authentication c2 n method st' = (st'', Normal Accept).
Proof.
  intros R Hc Hs Hp Hn H.
  pose proof (reachable_Inv st (unraced_reachable st R)) as I.
  pose proof (unraced_names_distinct st R) as D.
  destruct (inv_stream st I c cn r Hc Hs) as (Hnm & _ & Hm). specialize (Hm Hp).
  assert (Mr : member_name st r = Some n).
  { by rewrite member_name_names, Hnm, Hn. }
  pose proof (inv_conn_name st I c cn n Hc Hn) as [V1 V2]. unfold MAX_NAME_LEN in V2.
  simpl in H. rewrite Hc in H. simpl in H. rewrite Hp in H. injection H as <-.
  destruct (on_close_skeleton cn st) as (U & _ & Nm). rewrite Hs in U.
  destruct (close_member (users st) r (inv_nodup st I) Hm) as (pre & post & EU & ES & Hout).
  assert (F : name_in_use (toLowerCase n) (users (on_close cn st).1)
                (heap (on_close cn st).1) = Normal false).
  { apply name_in_use_free. intros r' Hr'. rewrite U, ES in Hr'.
    assert (Hr0 : r' ∈ users st).
    { rewrite EU. apply elem_of_app in Hr' as [?|?];
        apply elem_of_app; [by left|right; by right]. }
    assert (Hne : r' <> r) by (intros ->; done).
    destruct (Inv_member_named st r' I Hr0) as (m & Hm' & _).
    exists m. split.
    - rewrite <- Hm'. exact (member_name_same st (on_close cn st).1 r' Nm).
    - by apply (D r' r m n). }
  unfold on_authentication, MAX_NAME_LEN.
  assert (Z0 : (0 <? length n) = true) by (apply Nat.ltb_lt; lia).
  assert (Z1 : (length n <=? 10) = true) by (apply Nat.leb_le; lia).
  rewrite Z0, Z1. simpl. rewrite bind_unfold, in_use_run. simpl. rewrite F. simpl.
  by eexists.
Qed.

(** X16: a session is registered under the name the negotiation
    accepted for its connection, unit for unit: the shell request of an
    accepted connection makes a stream that carries the name in the
    closure, and there is one. *)
Theorem registered_under_accepted_name (st st' : State) (c : nat) (cn : Conn) :
  reachable st ->
  conns st !! c = Some cn -> handle (Shell c) st = Some st' ->
  exists n, c_name cn = Some n /\ member_name st' (length (heap st)) = Some n /\
            length (heap st) ∈ users st'.
Proof.
  intros R Hc. pose proof (reachable_Inv st R) as I.
  simpl. rewrite Hc. simpl.
  destruct (c_stream cn) eqn:Hs; [done|]. destruct (is_ready cn) eqn:Hr; [|done].
  intros [= <-]. destruct (inv_ready st I c cn Hc (is_ready_true cn Hr)) as [n Hn].
  exists n. split; [done|]. split.
  - destruct (on_shell_stream c cn st) as (s & Hl & C). unfold member_name.
    rewrite Hl. simpl. unfold core in C. simpl in C. congruence.
  - destruct (on_shell_frame c cn st) as (-> & _). simpl.
    apply elem_of_app. right. by apply list_elem_of_singleton.
Qed.

(** X17: the close of a member takes its stream out of the registry
    whatever the sinks do: the removal comes before the notices, so an
    exception in the loop of the notices leaves the member removed, the
    others in their order, and the connection closed. *)
Theorem close_always_unregisters (st st' : State) (c : nat) (cn : Conn) (r : ref) :
  reachable st ->
  conns st !! c = Some cn -> c_stream cn = Some r -> c_phase cn = Ready ->
  handle (Close c) st = Some st' ->
  exists pre post,
    users st = pre ++ r :: post /\ users st' = pre ++ post /\ (r ∉ users st') /\
    exists cn', conns st' !! c = Some cn' /\ c_phase cn' = Closed.
Proof.
  intros R Hc Hs Hp. pose proof (reachable_Inv st R) as I.
  destruct (inv_stream st I c cn r Hc Hs) as (_ & _ & Hm). specialize (Hm Hp).
  destruct (close_member (users st) r (inv_nodup st I) Hm) as (pre & post & EU & ES & Hout).
  simpl. rewrite Hc. simpl. rewrite Hp. intros [= <-].
  destruct (on_close_skeleton cn st) as (U & C & _). rewrite Hs, ES in U.
  exists pre, post. split; [done|]. simpl. rewrite U. split; [done|]. split; [done|].
  exists (set_phase Closed cn). by rewrite C, list_lookup_alter_eq, Hc.
Qed.

End ServerFacts.

(** * The properties on concrete runs *)

Section RunChecks.

Variable toLowerCase : jsstring -> jsstring.
Variable _parseTags : ref -> jsstring -> jsstring.

Local Abbreviation run_unraced := (run_unraced toLowerCase _parseTags).

Lemma omap_positions {A B C} (f : A -> option B) (g : B -> C) (l : list A) :
  NoDup (g <$> omap f l) ->
  forall i j x1 x2 y1 y2,
    i <> j -> l !! i = Some x1 -> l !! j = Some x2 ->
    f x1 = Some y1 -> f x2 = Some y2 -> g y1 <> g y2.
Proof.
  induction l as [|x l IH]; intros ND i j x1 x2 y1 y2 Hne Hi Hj F1 F2.
  { by rewrite lookup_nil in Hi. }
  assert (In : forall k z y, l !! k = Some z -> f z = Some y -> g y ∈ g <$> omap f l).
  { intros k z y Hk Hz. apply list_elem_of_fmap_2.
    apply list_elem_of_omap. exists z. split; [|done]. by apply list_elem_of_lookup_2 in Hk. }
  destruct i as [|i], j as [|j]; simpl in *; [done|..].
  - injection Hi as ->. rewrite F1 in ND. simpl in ND.
    apply NoDup_cons in ND as [Hn _]. intros E. apply Hn. rewrite E. by apply (In j x2).
  - injection Hj as ->. rewrite F2 in ND. simpl in ND.
    apply NoDup_cons in ND as [Hn _]. intros E. apply Hn. rewrite <- E. by apply (In i x1).
  - apply (IH) with (i := i) (j := j) (x1 := x1) (x2 := x2); try done; [|congruence].
    destruct (f x); [|done]. simpl in ND. by apply NoDup_cons in ND as [_ ?].
Qed.

Lemma awaiting_names_distinct st :
  NoDup (toLowerCase <$> awaiting_names st) -> awaiting_distinct toLowerCase st.
Proof.
  intros ND c1 c2 cn1 cn2 n1 n2 Hne H1 H2 [P1 S1] [P2 S2] N1 N2.
  apply (omap_positions _ toLowerCase (conns st) ND c1 c2 cn1 cn2 n1 n2); try done.
  - unfold is_ready. rewrite P1, S1. by rewrite bool_decide_eq_true_2.
  - unfold is_ready. rewrite P2, S2. by rewrite bool_decide_eq_true_2.
Qed.

Lemma run_unraced_sound evs st st' :
  reachable_unraced toLowerCase _parseTags st -> run_unraced evs st = Some st' ->
  reachable_unraced toLowerCase _parseTags st'.
Proof.
  revert st. induction evs as [|e evs IH]; intros st R; simpl.
  - by intros [= <-].
  - destruct (handle toLowerCase _parseTags e st) as [st1|] eqn:E; simpl; [|done].
    destruct (bool_decide_reflect (NoDup (toLowerCase <$> awaiting_names st1))) as [ND|];
      [|done].
    apply IH. apply (unraced_step _ _ st e st1); [done..|].
    by apply awaiting_names_distinct.
Qed.

End RunChecks.

Lemma three_members_reachable : reachable ascii_lower plain_tags three_members.
Proof.
  apply (run_reachable _ _ three_join init); [apply reachable_init|reflexivity].
Qed.

Lemma second_sink_broken_reachable : reachable ascii_lower plain_tags second_sink_broken.
Proof.
  apply (run_reachable _ _ (three_join ++ [SinkState 1 false]) init);
    [apply reachable_init|reflexivity].
Qed.

(** C1, as stated, fails: with the second of three sinks raising, the
    broadcast of the first member's line ends in the exception and the
    third member's sink has no new line. *)
Lemma broadcast_aborted_by_failing_sink :
  (userBroadcast plain_tags (str "hi") 0 second_sink_broken).2 = Throw SinkError /\
  sink (userBroadcast plain_tags (str "hi") 0 second_sink_broken).1 2
    = sink second_sink_broken 2.
Proof. split; reflexivity. Qed.

(** C1, amended, on the same state: the first member has the line, the
    second and the third have none. *)
Lemma broadcast_stops_at_failing_sink_witness :
  reachable ascii_lower plain_tags second_sink_broken /\
  users second_sink_broken = [0] ++ 1 :: [2] /\
  refuses_writes second_sink_broken 1 /\
  exists st',
    userBroadcast plain_tags (str "hi") 0 second_sink_broken = (st', Throw SinkError) /\
    (forall p, p ∈ [0] ->
       sink st' p = sink second_sink_broken p
         ++ [broadcast_line plain_tags (str "hi") 0
               (default (new_stream new_conn) (heap second_sink_broken !! 0)) p]) /\
    (forall q, q ∉ [0] -> sink st' q = sink second_sink_broken q).
Proof.
  split; [apply second_sink_broken_reachable|]. split; [reflexivity|].
  split; [eexists; split; reflexivity|].
  apply (broadcast_stops_at_failing_sink ascii_lower plain_tags second_sink_broken
           (str "hi") 0 _ [0] [2] 1).
  - apply second_sink_broken_reachable.
  - reflexivity.
  - reflexivity.
  - intros p ->%list_elem_of_singleton. eexists. split; reflexivity.
  - eexists. split; reflexivity.
Defined.

(** C2 when a session that was accepted, and has no shell yet, closes: the
    one member stays. *)
Lemma close_of_non_member_witness :
  reachable ascii_lower plain_tags bob_waiting /\
  conns bob_waiting !! 1 = Some bob_closure /\
  users bob_waiting = [0] /\
  exists st',
    handle ascii_lower plain_tags (Close 1) bob_waiting = Some st' /\
    users st' = [0] /\ heap st' = heap bob_waiting.
Proof.
  assert (R : reachable ascii_lower plain_tags bob_waiting).
  { apply (run_reachable _ _
             [Connect; Authentication 0 ann none; Shell 0;
              Connect; Authentication 1 bob none] init);
      [apply reachable_init|reflexivity]. }
  split; [exact R|]. split; [reflexivity|]. split; [reflexivity|].
  destruct (handle ascii_lower plain_tags (Close 1) bob_waiting) as [st'|] eqn:E;
    [|discriminate E].
  exists st'. split; [reflexivity|].
  destruct (close_of_non_member_keeps_registry ascii_lower plain_tags bob_waiting st' 1
              bob_closure R eq_refl) as (_ & U & H & _).
  - intros r Hr. discriminate Hr.
  - exact E.
  - split; [exact U|exact H].
Defined.

(** C5, as stated, fails: the run [race] registers two members whose names
    are equal up to case. *)
Lemma race_registers_equal_names :
  reachable ascii_lower plain_tags two_alices /\
  ~ names_distinct ascii_lower two_alices.
Proof.
  split.
  - apply (run_reachable _ _ race init); [apply reachable_init|reflexivity].
  - intros D. apply (D 0 1 (str "Alice") (str "alice")); try reflexivity; try done.
    + simpl. apply elem_of_cons. by left.
    + simpl. apply elem_of_cons. right. apply elem_of_cons. by left.
Qed.

(** C5, amended, on three sessions that join one after the other. *)
Lemma member_names_distinct_witness :
  reachable_unraced ascii_lower plain_tags three_members /\
  names_distinct ascii_lower three_members.
Proof.
  assert (R : reachable_unraced ascii_lower plain_tags three_members).
  { apply (run_unraced_sound _ _ three_join init); [apply unraced_init|reflexivity]. }
  split; [exact R|].
  exact (member_names_distinct_without_race ascii_lower plain_tags three_members R).
Defined.

(** C6 on the registry of three members. *)
Lemma accepted_names_witness :
  reachable ascii_lower plain_tags three_members /\
  exists n, member_name three_members 1 = Some n /\ 1 <= length n <= 10.
Proof.
  split; [apply three_members_reachable|].
  apply (accepted_names_have_valid_length ascii_lower plain_tags three_members
           three_members_reachable).
  simpl. apply elem_of_cons. right. apply elem_of_cons. by left.
Defined.


(** C8, as stated, fails: the quit line of the second of three members
    leaves it in the registry, with its connection open, and gives no
    "left" notice to anyone; a line the first member writes afterwards
    still goes to the sink of the session that has quit. *)
Lemma quit_alone_keeps_member :
  reachable ascii_lower plain_tags three_members /\
  conns three_members !! 1 = Some bob_chatting /\
  sanitize (str "/quit") = str "/quit" /\
  exists st1 st2,
    handle ascii_lower plain_tags (Submit 1 (str "/quit")) three_members = Some st1 /\
    users st1 = [0; 1; 2] /\
    c_phase <$> conns st1 !! 1 = Some Ready /\
    sink st1 0 = sink three_members 0 /\
    sink st1 2 = sink three_members 2 /\
    handle ascii_lower plain_tags (Submit 0 (str "hi")) st1 = Some st2 /\
    users st2 = [0; 1; 2] /\
    sink st2 1 = sink three_members 1 ++ [str "{cyan-fg}{bold}ann{/}: hi"].
Proof.
  split; [apply three_members_reachable|]. split; [reflexivity|]. split; [reflexivity|].
  eexists _, _. split; [reflexivity|]. split; [reflexivity|]. split; [reflexivity|].
  split; [reflexivity|]. split; [reflexivity|]. split; [reflexivity|].
  split; reflexivity.
Qed.

(** C8, amended, when the second of three members quits and its
    connection closes. *)
Lemma quit_witness :
  reachable ascii_lower plain_tags three_members /\
  conns three_members !! 1 = Some bob_chatting /\
  sanitize (str "  /quit ") = str "/quit" /\
  exists st1 st2 pre post n,
    c_name bob_chatting = Some n /\
    handle ascii_lower plain_tags (Submit 1 (str "  /quit ")) three_members = Some st1 /\
    users st1 = users three_members /\ conns st1 = conns three_members /\
    (forall q, sink st1 q = sink three_members q) /\
    (exists s, heap st1 !! 1 = Some s /\ ended s = true) /\
    handle ascii_lower plain_tags (Close 1) st1 = Some st2 /\
    (exists cn2, conns st2 !! 1 = Some cn2 /\ c_phase cn2 = Closed) /\
    users three_members = pre ++ 1 :: post /\
    users st2 = pre ++ post /\
    (1 ∉ users st2) /\
    sink st2 1 = sink three_members 1 /\
    (forall r, r ∈ users st2 ->
       sink st2 r = sink three_members r
         ++ [plain_tags r (str "{magenta-fg}*** {bold}") ++ n
             ++ plain_tags r (str "{/bold} has left the chat{/}")]).
Proof.
  split; [apply three_members_reachable|]. split; [reflexivity|]. split; [reflexivity|].
  apply (quit_ends_stream_and_close_unregisters ascii_lower plain_tags three_members 1
           bob_chatting 1 (str "  /quit ") three_members_reachable); [reflexivity..| |].
  - left. reflexivity.
  - intros r Hr. simpl in Hr.
    repeat (apply elem_of_cons in Hr as [->|Hr]; [eexists; split; reflexivity|]).
    by apply elem_of_nil in Hr.
Defined.

(** C10, as stated, fails: a pseudo-terminal of 0 rows and 100 columns
    gives a stream of 24 rows and 100 columns, not 24 by 80; and without
    any pseudo-terminal request, a window change before the shell decides
    the size. *)
Lemma fallback_is_per_dimension :
  (s ← run ascii_lower plain_tags
         [Connect; Authentication 0 ann none; Pty 0 0%N 100%N (str "xterm"); Shell 0] init;
   geometry s 0) = Some (24%N, 100%N) /\
  (s ← run ascii_lower plain_tags
         [Connect; Authentication 0 ann none; WindowChange 0 50%N 120%N; Shell 0] init;
   geometry s 0) = Some (50%N, 120%N).
Proof. split; reflexivity. Qed.

(** C10, amended, on the pseudo-terminal of 0 rows and 100 columns. *)
Lemma shell_geometry_witness :
  conns zero_rows !! 0 = Some ann_closure /\
  exists st', handle ascii_lower plain_tags (Shell 0) zero_rows = Some st' /\
    exists s, heap st' !! length (heap zero_rows) = Some s /\
      rows s = 24%N /\ columns s = 100%N.
Proof.
  split; [reflexivity|].
  destruct (handle ascii_lower plain_tags (Shell 0) zero_rows) as [st'|] eqn:E;
    [|discriminate E].
  exists st'. split; [reflexivity|].
  destruct (shell_geometry_per_dimension ascii_lower plain_tags zero_rows st' 0 ann_closure
              eq_refl E) as (s & Hs & _ & Hr & Hk).
  exists s. split; [exact Hs|]. split; [exact Hr|exact Hk].
Defined.

(** * Start-up *)

Section StartupFacts.

Variable files : jsstring -> option (list N).
Variable new_Server : list (list N) -> bool.
Variable listen : N -> bool.

Lemma read_keys_all dir keys :
  (forall k, k ∈ keys -> is_Some (files (path_join dir k))) ->
  exists contents,
    read_keys files dir keys = (path_join dir <$> keys, Returned contents) /\
    Forall2 (fun k c => files (path_join dir k) = Some c) keys contents.
Proof.
  induction keys as [|k keys IH]; intros H; simpl.
  - exists []. split; [done|constructor].
  - destruct (H k) as [c Hc]; [by left|]. rewrite Hc.
    destruct IH as (cs & E & F); [intros k' Hk'; apply H; by right|].
    rewrite E. exists (c :: cs). split; [done|]. by constructor.
Qed.

Lemma read_keys_first_missing dir pre k post :
  (forall k', k' ∈ pre -> is_Some (files (path_join dir k'))) ->
  files (path_join dir k) = None ->
  read_keys files dir (pre ++ k :: post)
    = (path_join dir <$> (pre ++ [k]), Raised (ReadFailed (path_join dir k))).
Proof.
  intros H Hk. induction pre as [|p pre IH]; simpl.
  - by rewrite Hk.
  - destruct (H p) as [c Hc]; [by left|]. rewrite Hc.
    rewrite IH; [done|]. intros k' Hk'. apply H. by right.
Qed.

Lemma read_keys_returned dir keys reads contents :
  read_keys files dir keys = (reads, Returned contents) ->
  forall k, k ∈ keys -> is_Some (files (path_join dir k)).
Proof.
  revert reads contents. induction keys as [|k keys IH]; intros reads contents; simpl.
  - by intros _ k ?%elem_of_nil.
  - destruct (files (path_join dir k)) as [c|] eqn:Hc; [|done].
    destruct (read_keys files dir keys) as [rs [cs|e]] eqn:E; [|done].
    intros _ k' [->|Hk']%elem_of_cons; [by rewrite Hc|].
    by apply (IH rs cs).
Qed.

Lemma createServer_root :
  createServer true files new_Server listen =
    match read_keys files HOST_KEY_DIR HOST_KEY_FILES with
    | (reads, Returned hostKeys) =>
        if new_Server hostKeys then
          if listen 8888%N then (reads, Returned (hostKeys, 8888%N))
          else (reads, Raised (ListenFailed 8888%N))
        else (reads, Raised ServerFailed)
    | (reads, Raised e) => (reads, Raised e)
    end.
Proof. reflexivity. Qed.

Lemma read_keys_contents dir keys reads contents contents' :
  read_keys files dir keys = (reads, Returned contents) ->
  Forall2 (fun k c => files (path_join dir k) = Some c) keys contents' ->
  reads = path_join dir <$> keys /\ contents = contents'.
Proof.
  intros E F.
  assert (H : forall k, k ∈ keys -> is_Some (files (path_join dir k))).
  { by apply (read_keys_returned dir keys reads contents). }
  destruct (read_keys_all dir keys H) as (cs & E' & F').
  assert (cs = contents').
  { clear E E' H. revert contents' F. induction F' as [|k c ks cs Hc _ IH];
      intros contents' F; inversion F as [|? c' ? cs' Hc' F0]; subst; [done|].
    f_equal; [congruence|by apply IH]. }
  split; congruence.
Qed.

(** X18: the server is made and listens, on port 8888, exactly when the
    process runs as root, each of the four host key files can be read, the
    constructor of the server takes their contents as host keys, and the
    port can be bound. Its host keys are then the contents of the DSA,
    ECDSA, Ed25519 and RSA key files in this order, each read once. With
    the four files read, a constructor that throws ends the start before
    [listen] is reached, and a port that cannot be bound ends it after. *)
Theorem server_starts_iff_root_and_keys_readable (isRoot : bool) :
  ((exists reads hostKeys port,
      createServer isRoot files new_Server listen = (reads, Returned (hostKeys, port))) <->
   (isRoot = true /\
    exists contents,
      Forall2 (fun k c => files (path_join HOST_KEY_DIR k) = Some c)
              HOST_KEY_FILES contents /\
      new_Server contents = true /\ listen 8888%N = true)) /\
  (forall reads hostKeys port,
      createServer isRoot files new_Server listen = (reads, Returned (hostKeys, port)) ->
      port = 8888%N /\
      reads = [str "/etc/ssh/ssh_host_dsa_key"; str "/etc/ssh/ssh_host_ecdsa_key";
               str "/etc/ssh/ssh_host_ed25519_key"; str "/etc/ssh/ssh_host_rsa_key"] /\
      Forall2 (fun p c => files p = Some c) reads hostKeys) /\
  (forall contents,
      isRoot = true ->
      Forall2 (fun k c => files (path_join HOST_KEY_DIR k) = Some c)
              HOST_KEY_FILES contents ->
      (new_Server contents = false ->
         (createServer isRoot files new_Server listen).2 = Raised ServerFailed) /\
      (new_Server contents = true -> listen 8888%N = false ->
         (createServer isRoot files new_Server listen).2 = Raised (ListenFailed 8888%N))).
Proof.
  split; [split|split].
  - intros (reads & hostKeys & port & H). destruct isRoot; [|done]. split; [done|].
    rewrite createServer_root in H.
    destruct (read_keys files HOST_KEY_DIR HOST_KEY_FILES) as [rs [cs|e]] eqn:E; [|done].
    pose proof (read_keys_returned HOST_KEY_DIR HOST_KEY_FILES rs cs E) as Hk.
    destruct (read_keys_all HOST_KEY_DIR HOST_KEY_FILES Hk) as (cs' & E' & F).
    assert (cs = cs') as <- by congruence.
    exists cs. split; [done|].
    destruct (new_Server cs); [|done]. by destruct (listen 8888%N).
  - intros (-> & contents & F & Hn & Hl). rewrite createServer_root.
    destruct (read_keys files HOST_KEY_DIR HOST_KEY_FILES) as [rs [cs|e]] eqn:E.
    + destruct (read_keys_contents _ _ _ _ _ E F) as [_ ->]. rewrite Hn, Hl.
      by eexists _, _, _.
    + exfalso.
      assert (Hk : forall k, k ∈ HOST_KEY_FILES ->
                             is_Some (files (path_join HOST_KEY_DIR k))).
      { intros k Hk. apply list_elem_of_lookup in Hk as [i Hi].
        destruct (Forall2_lookup_l _ _ _ _ _ F Hi) as (c & _ & Hc). by exists c. }
      destruct (read_keys_all HOST_KEY_DIR HOST_KEY_FILES Hk) as (cs' & E' & _).
      congruence.
  - intros reads hostKeys port. destruct isRoot; [|done]. rewrite createServer_root.
    destruct (read_keys files HOST_KEY_DIR HOST_KEY_FILES) as [rs [cs|e]] eqn:E; [|done].
    destruct (new_Server cs); [|done]. destruct (listen 8888%N); [|done].
    intros [= <- <- <-]. split; [done|].
    pose proof (read_keys_returned HOST_KEY_DIR HOST_KEY_FILES rs cs E) as H.
    destruct (read_keys_all HOST_KEY_DIR HOST_KEY_FILES H) as (cs' & E' & F).
    assert (rs = path_join HOST_KEY_DIR <$> HOST_KEY_FILES /\ cs = cs') as [-> ->]
      by (split; congruence).
    split; [reflexivity|]. by apply Forall2_fmap_l.
  - intros contents -> F. rewrite createServer_root.
    assert (Hk : forall k, k ∈ HOST_KEY_FILES ->
                           is_Some (files (path_join HOST_KEY_DIR k))).
    { intros k Hk. apply list_elem_of_lookup in Hk as [i Hi].
      destruct (Forall2_lookup_l _ _ _ _ _ F Hi) as (c & _ & Hc). by exists c. }
    destruct (read_keys_all HOST_KEY_DIR HOST_KEY_FILES Hk) as (cs' & E' & _).
    destruct (read_keys_contents _ _ _ _ _ E' F) as [_ ->]. rewrite E'.
    split.
    + by intros ->.
    + by intros -> ->.
Qed.

(** X19: without root nothing is read and the start ends in the
    error of [checkAuth]; as root, the first key file that cannot be read
    ends it: the files before it have been read, the files after it are
    not asked for, and no server listens. *)
Theorem startup_stops_at_first_failure (isRoot : bool) :
  (isRoot = false ->
     createServer isRoot files new_Server listen
       = ([], Raised (NotRoot (str "Please try root run app!")))) /\
  (forall pre k post,
     isRoot = true -> HOST_KEY_FILES = pre ++ k :: post ->
     (forall k', k' ∈ pre -> is_Some (files (path_join HOST_KEY_DIR k'))) ->
     files (path_join HOST_KEY_DIR k) = None ->
     createServer isRoot files new_Server listen
       = (path_join HOST_KEY_DIR <$> (pre ++ [k]),
          Raised (ReadFailed (path_join HOST_KEY_DIR k)))).
Proof.
  split.
  - by intros ->.
  - intros pre k post -> E H Hk. rewrite createServer_root.
    by rewrite E, (read_keys_first_missing HOST_KEY_DIR pre k post H Hk).
Qed.

End StartupFacts.

(** * The bootstrap script *)

Section BootstrapFacts.

Variable toString : list N -> jsstring.
Variable cmd : jsstring.
Variable args : jsval.
Variable opts : option StdioOpts.
Variable extra : gmap (list N) jsval.
Variable has_stdout has_stderr : bool.
Variable errors : list (gmap (list N) jsval).

Local Abbreviation on_proc_event :=
  (on_proc_event toString cmd args opts extra has_stdout has_stderr).
Local Abbreviation proc_run :=
  (proc_run toString cmd args opts extra has_stdout has_stderr).
Local Abbreviation closed_result := (closed_result toString cmd args opts extra).
Local Abbreviation described := (described toString cmd args opts extra).
Local Abbreviation reject := (reject toString cmd args opts extra).
Local Abbreviation settles := (settles has_stdout has_stderr).
Local Abbreviation rejects_with := (rejects_with has_stdout has_stderr).
Local Abbreviation stdout_of := (stdout_of has_stdout).
Local Abbreviation stderr_of := (stderr_of has_stderr).
Local Abbreviation spawned := (spawned errors).

Lemma proc_run_cons e evs s : proc_run (e :: evs) s = proc_run evs (on_proc_event e s).
Proof. done. Qed.

Lemma proc_run_app evs1 evs2 s : proc_run (evs1 ++ evs2) s = proc_run evs2 (proc_run evs1 s).
Proof. apply foldl_app. Qed.

(** Events that do not settle only fill the two arrays. *)
Lemma proc_run_data pre s :
  Forall (fun e => settles e = false) pre ->
  proc_run pre s =
    mkSpawned (out_chunks s ++ stdout_of pre) (err_chunks s ++ stderr_of pre)
              (settled s) (objects s).
Proof.
  intros H. revert s. induction H as [|e pre He _ IH]; intros s.
  - unfold stdout_of, stderr_of. destruct s, has_stdout, has_stderr;
      simpl; by rewrite !app_nil_r.
  - rewrite proc_run_cons, IH. unfold stdout_of, stderr_of.
    destruct e; simpl in He |- *; try done;
      destruct has_stdout, has_stderr; simpl; try done; by rewrite <- ?app_assoc.
Qed.

Lemma settle_once_settled p s : settled s <> Pending -> settle_once p s = s.
Proof. intros H. unfold settle_once. by destruct (settled s). Qed.

Lemma settled_reject er s : settled s <> Pending -> settled (reject er s) = settled s.
Proof. intros H. unfold reject. by rewrite settle_once_settled. Qed.

(** Once settled, always settled the same way; the arrays go on growing,
    and the error objects go on being written to. *)
Lemma settled_stays e s :
  settled s <> Pending -> settled (on_proc_event e s) = settled s.
Proof.
  intros H. destruct e; unfold on_proc_event.
  - by apply settled_reject.
  - by destruct has_stdout.
  - destruct has_stdout; [|done]. rewrite !settled_reject; [done..|].
    by rewrite settled_reject.
  - by destruct has_stderr.
  - destruct has_stderr; [|done]. rewrite !settled_reject; [done..|].
    by rewrite settled_reject.
  - destruct (_ || _); by rewrite settle_once_settled.
Qed.

Lemma settled_stays_run evs s :
  settled s <> Pending -> settled (proc_run evs s) = settled s.
Proof.
  revert s. induction evs as [|e evs IH]; intros s H; [done|].
  rewrite proc_run_cons, IH; [by apply settled_stays|].
  by rewrite settled_stays.
Qed.

Lemma settle_once_pending p s : settled s = Pending -> settled (settle_once p s) = p.
Proof. intros H. unfold settle_once. by rewrite H. Qed.

Lemma settles_settles e s : settles e = true -> settled (on_proc_event e s) <> Pending.
Proof.
  assert (K : forall p s, p <> Pending -> settled (settle_once p s) <> Pending).
  { intros p s0 Hp. unfold settle_once. destruct (settled s0) eqn:E; simpl; congruence. }
  destruct e; unfold on_proc_event, reject, settles; intros He; try done.
  - by apply K.
  - rewrite He. by apply K.
  - rewrite He. by apply K.
  - destruct (_ || _); by apply K.
Qed.

(** A run either never settles or has a first event that does. *)
Lemma first_settling evs :
  Forall (fun e => settles e = false) evs \/
  exists pre e post, evs = pre ++ e :: post /\
    Forall (fun e => settles e = false) pre /\ settles e = true.
Proof.
  induction evs as [|e evs IH]; [by left|].
  destruct (settles e) eqn:He.
  - right. exists [], e, evs. by repeat split.
  - destruct IH as [H|(pre & e' & post & -> & H & He')].
    + left. by constructor.
    + right. exists (e :: pre), e', post. split; [done|]. split; [by constructor|done].
Qed.

Lemma decided_by_first pre e post :
  Forall (fun e => settles e = false) pre -> settles e = true ->
  settled (proc_run (pre ++ e :: post) spawned)
    = settled (on_proc_event e (mkSpawned (stdout_of pre) (stderr_of pre) Pending errors)).
Proof.
  intros H He. rewrite proc_run_app, proc_run_cons, (proc_run_data pre spawned H). simpl.
  apply settled_stays_run. by apply settles_settles.
Qed.

(** X21: the promise of [promiseSpawn] resolves exactly when the
    first event that settles it is a close with neither an exit code other
    than 0 nor a signal: no error of the child or of its streams and no
    other close comes before. It resolves with the object built at that
    close from the chunks received until then, in the order in which they
    came. *)
Theorem spawn_resolves_iff_clean_close_first (evs : list proc_event)
    (value : gmap (list N) jsval) :
  settled (proc_run evs spawned) = Resolved value <->
  exists pre code signal post,
    evs = pre ++ ProcClose code signal :: post /\
    Forall (fun e => settles e = false) pre /\
    truthy code = false /\ truthy signal = false /\
    value = closed_result code signal
              (mkSpawned (stdout_of pre) (stderr_of pre) Pending errors).
Proof.
  split.
  - destruct (first_settling evs) as [H|(pre & e & post & -> & H & He)].
    { rewrite (proc_run_data evs spawned H). done. }
    rewrite (decided_by_first pre e post H He).
    destruct e; unfold settles in He; unfold on_proc_event, reject; try done.
    + by rewrite He.
    + by rewrite He.
    + destruct (truthy code) eqn:Tc; [done|]. destruct (truthy signal) eqn:Ts; [done|].
      simpl. intros [= <-]. by exists pre, code, signal, post.
  - intros (pre & code & signal & post & -> & H & Tc & Ts & ->).
    rewrite (decided_by_first pre (ProcClose code signal) post H eq_refl).
    unfold on_proc_event. by rewrite Tc, Ts.
Qed.

(** X22: as long as the child only sends data the promise stays
    pending, and the arrays hold every chunk of a stream the child has, in
    the order of arrival. *)
Theorem spawn_collects_while_pending (evs : list proc_event) :
  Forall (fun e => settles e = false) evs ->
  proc_run evs spawned = mkSpawned (stdout_of evs) (stderr_of evs) Pending errors.
Proof. intros H. by rewrite (proc_run_data evs spawned H). Qed.

(** *** The error objects *)

(** The two arrays after any run, settled or not. *)
Lemma chunks_step e s :
  out_chunks (on_proc_event e s) = out_chunks s ++ stdout_of [e] /\
  err_chunks (on_proc_event e s) = err_chunks s ++ stderr_of [e].
Proof.
  assert (K : forall p s0, out_chunks (settle_once p s0) = out_chunks s0 /\
                           err_chunks (settle_once p s0) = err_chunks s0).
  { intros p s0. unfold settle_once. by destruct (settled s0). }
  unfold stdout_of, stderr_of.
  destruct e; unfold on_proc_event, reject;
    destruct has_stdout, has_stderr; simpl; rewrite ?app_nil_r; try done;
    try (destruct (_ || _)); rewrite ?(proj1 (K _ _)), ?(proj2 (K _ _)); simpl;
    rewrite ?(proj1 (K _ _)), ?(proj2 (K _ _)); done.
Qed.

Lemma chunks_of_cons e evs :
  stdout_of (e :: evs) = stdout_of [e] ++ stdout_of evs /\
  stderr_of (e :: evs) = stderr_of [e] ++ stderr_of evs.
Proof.
  unfold stdout_of, stderr_of. destruct has_stdout, has_stderr, e; done.
Qed.

Lemma chunks_run evs s :
  out_chunks (proc_run evs s) = out_chunks s ++ stdout_of evs /\
  err_chunks (proc_run evs s) = err_chunks s ++ stderr_of evs.
Proof.
  revert s. induction evs as [|e evs IH]; intros s.
  - unfold stdout_of, stderr_of. destruct has_stdout, has_stderr;
      simpl; by rewrite !app_nil_r.
  - rewrite proc_run_cons. destruct (IH (on_proc_event e s)) as [-> ->].
    destruct (chunks_step e s) as [-> ->]. destruct (chunks_of_cons e evs) as [-> ->].
    by rewrite !app_assoc.
Qed.

Lemma described_chunks s s' :
  out_chunks s = out_chunks s' -> err_chunks s = err_chunks s' ->
  described s = described s'.
Proof. unfold described. by intros -> ->. Qed.

(** The names [Object.assign] writes are the same on every call. *)
Lemma described_None s k :
  described s !! k = None <->
  extra !! k = None /\ str "stdout" <> k /\ str "stderr" <> k /\
  str "cmd" <> k /\ str "args" <> k.
Proof.
  unfold described, stdioResult. rewrite !lookup_union_None.
  destruct (truthy _); rewrite !lookup_insert_None, !lookup_empty; tauto.
Qed.

(** A later assignment covers an earlier one. *)
Lemma described_absorbs (s s' : Spawned) (o : gmap (list N) jsval) :
  described s ∪ (described s' ∪ o) = described s ∪ o.
Proof.
  apply map_eq. intros k. rewrite !lookup_union.
  destruct (described s !! k) as [v|] eqn:E; [by destruct (described s' !! k), (o !! k)|].
  apply described_None in E. apply (described_None s') in E. rewrite E.
  by destruct (o !! k).
Qed.

Lemma objects_settle_once p s : objects (settle_once p s) = objects s.
Proof. unfold settle_once. by destruct (settled s). Qed.

Lemma objects_reject er s :
  objects (reject er s) = alter (fun o => described s ∪ o) er (objects s).
Proof. unfold reject. by rewrite objects_settle_once. Qed.

Lemma described_reject er s : described (reject er s) = described s.
Proof.
  apply described_chunks; unfold reject, settle_once; by destruct (settled _).
Qed.

(** An event that does not report the object leaves it as it is. *)
Lemma objects_other e s r :
  rejects_with r e = false -> r < length (objects s) ->
  objects (on_proc_event e s) !! r = objects s !! r.
Proof.
  intros He Hr. destruct e; unfold rejects_with in He; unfold on_proc_event.
  - apply Nat.eqb_neq in He. rewrite objects_reject. by apply list_lookup_alter_ne.
  - by destruct has_stdout.
  - destruct has_stdout; [|done]. apply Nat.eqb_neq in He.
    rewrite !objects_reject. by rewrite !list_lookup_alter_ne.
  - by destruct has_stderr.
  - destruct has_stderr; [|done]. apply Nat.eqb_neq in He.
    rewrite !objects_reject. by rewrite !list_lookup_alter_ne.
  - destruct (_ || _); rewrite objects_settle_once; [|done].
    simpl. by apply lookup_app_l.
Qed.

Lemma objects_grow e s : length (objects s) <= length (objects (on_proc_event e s)).
Proof.
  destruct e; unfold on_proc_event.
  - by rewrite objects_reject, length_alter.
  - by destruct has_stdout.
  - destruct has_stdout; [|done]. by rewrite !objects_reject, !length_alter.
  - by destruct has_stderr.
  - destruct has_stderr; [|done]. by rewrite !objects_reject, !length_alter.
  - destruct (_ || _); rewrite objects_settle_once; [|done].
    simpl. rewrite length_app. lia.
Qed.

Lemma objects_other_run evs s r :
  Forall (fun e => rejects_with r e = false) evs -> r < length (objects s) ->
  objects (proc_run evs s) !! r = objects s !! r.
Proof.
  intros H. revert s. induction H as [|e evs He _ IH]; intros s Hr; [done|].
  rewrite proc_run_cons, IH.
  - by apply objects_other.
  - pose proof (objects_grow e s). lia.
Qed.

(** The object [r], which was [o] at first, is [o] with the properties of
    some call of [reject] assigned to it, if any. *)
Lemma reject_assigns (r : nat) (o : gmap (list N) jsval) (s : Spawned) :
  (objects s !! r = Some o \/ exists s', objects s !! r = Some (described s' ∪ o)) ->
  objects (reject r s) !! r = Some (described s ∪ o).
Proof.
  intros H. rewrite objects_reject, list_lookup_alter_eq.
  destruct H as [->|[s' ->]]; simpl; [done|]. by rewrite described_absorbs.
Qed.

Lemma report_assigns (r : nat) (o : gmap (list N) jsval) (e : proc_event) (s : Spawned) :
  rejects_with r e = true ->
  (objects s !! r = Some o \/ exists s', objects s !! r = Some (described s' ∪ o)) ->
  objects (on_proc_event e s) !! r = Some (described s ∪ o).
Proof.
  intros He H. destruct e; unfold rejects_with in He; unfold on_proc_event; try done.
  - apply Nat.eqb_eq in He as ->. by apply reject_assigns.
  - apply andb_true_iff in He as [-> ->%Nat.eqb_eq].
    rewrite <- (described_reject r s). apply reject_assigns.
    right. exists s. by apply reject_assigns.
  - apply andb_true_iff in He as [-> ->%Nat.eqb_eq].
    rewrite <- (described_reject r s). apply reject_assigns.
    right. exists s. by apply reject_assigns.
Qed.

Lemma assigned_step (r : nat) (o : gmap (list N) jsval) (e : proc_event) (s : Spawned) :
  (objects s !! r = Some o \/ exists s', objects s !! r = Some (described s' ∪ o)) ->
  objects (on_proc_event e s) !! r = Some o \/
  exists s', objects (on_proc_event e s) !! r = Some (described s' ∪ o).
Proof.
  intros H. destruct (rejects_with r e) eqn:He.
  - right. exists s. by apply report_assigns.
  - rewrite (objects_other e s r He); [done|].
    apply lookup_lt_is_Some. destruct H as [->|[s' ->]]; by eexists.
Qed.

Lemma assigned_run (r : nat) (o : gmap (list N) jsval) (evs : list proc_event)
    (s : Spawned) :
  (objects s !! r = Some o \/ exists s', objects s !! r = Some (described s' ∪ o)) ->
  objects (proc_run evs s) !! r = Some o \/
  exists s', objects (proc_run evs s) !! r = Some (described s' ∪ o).
Proof.
  revert s. induction evs as [|e evs IH]; intros s H; [done|].
  rewrite proc_run_cons. by apply IH, assigned_step.
Qed.

(** What an error object holds at the end of a run: the properties
    assigned by the last event that reported it, from the output received
    until that event. *)
Lemma object_after_last_report (before : list proc_event) (e : proc_event)
    (after : list proc_event) (r : nat) (o : gmap (list N) jsval) :
  errors !! r = Some o -> rejects_with r e = true ->
  Forall (fun e' => rejects_with r e' = false) after ->
  objects (proc_run (before ++ e :: after) spawned) !! r
    = Some (described (mkSpawned (stdout_of before) (stderr_of before) Pending errors)
            ∪ o).
Proof.
  intros Ho He Ha. rewrite proc_run_app, proc_run_cons.
  assert (E : objects (on_proc_event e (proc_run before spawned)) !! r
              = Some (described (proc_run before spawned) ∪ o)).
  { apply report_assigns; [done|]. apply assigned_run. by left. }
  rewrite objects_other_run; [|done|by apply lookup_lt_is_Some; eexists].
  rewrite E. do 2 f_equal. apply described_chunks; simpl.
  - by rewrite (proj1 (chunks_run before spawned)).
  - by rewrite (proj2 (chunks_run before spawned)).
Qed.

(** X23: when the first event that settles is an error, of the child or
    of one of its streams, the promise is rejected with the error object
    of that event, by reference, whatever comes later. The command, its
    arguments, the output and [extra] are assigned to that object at the
    event, from the output received until then, and again at every later
    event that reports the same object, settled or not: at the end of the
    run the object holds what the last such event assigned. When the
    first event that settles is a close with an exit code other than 0 or
    with a signal, the promise is rejected with a new object, which holds
    the result of the close and the message "command failed". *)
Theorem spawn_rejects_on_first_failure (pre post : list proc_event) (e : proc_event) :
  Forall (fun e => settles e = false) pre -> settles e = true ->
  let s := mkSpawned (stdout_of pre) (stderr_of pre) Pending errors in
  let final := proc_run (pre ++ e :: post) spawned in
  match e with
  | ProcError er | StdoutError er | StderrError er =>
      forall o, errors !! er = Some o ->
      settled final = Rejected er /\
      (Forall (fun e' => rejects_with er e' = false) post ->
         objects final !! er = Some (described s ∪ o)) /\
      (forall mid e' rest,
         post = mid ++ e' :: rest -> rejects_with er e' = true ->
         Forall (fun e' => rejects_with er e' = false) rest ->
         objects final !! er
           = Some (described (mkSpawned (stdout_of (pre ++ e :: mid))
                                        (stderr_of (pre ++ e :: mid)) Pending errors)
                   ∪ o))
  | ProcClose code signal =>
      truthy code || truthy signal = true ->
      settled final = Rejected (length errors) /\
      (Forall (fun e' => rejects_with (length errors) e' = false) post ->
         objects final !! length errors
           = Some (closed_result code signal s ∪ COMMAND_FAILED))
  | _ => True
  end.
Proof.
  intros H He s final.
  assert (Again : forall er o mid e' rest,
            errors !! er = Some o -> post = mid ++ e' :: rest ->
            rejects_with er e' = true ->
            Forall (fun e' => rejects_with er e' = false) rest ->
            objects final !! er
              = Some (described (mkSpawned (stdout_of (pre ++ e :: mid))
                                           (stderr_of (pre ++ e :: mid)) Pending errors)
                      ∪ o)).
  { intros er o mid e' rest Ho -> He' Hr. subst final.
    replace (pre ++ e :: mid ++ e' :: rest) with ((pre ++ e :: mid) ++ e' :: rest)
      by (by rewrite <- app_assoc).
    by apply object_after_last_report. }
  destruct e; try done; unfold settles in He.
  - intros o Ho. split; [|split].
    + subst final. rewrite (decided_by_first pre (ProcError er) post H eq_refl).
      unfold on_proc_event, reject. by apply settle_once_pending.
    + intros Hp. apply object_after_last_report; [done| |done].
      unfold rejects_with. apply Nat.eqb_refl.
    + intros mid e' rest. by apply Again.
  - intros o Ho. split; [|split].
    + subst final. rewrite (decided_by_first pre (StdoutError er) post H He).
      unfold on_proc_event. rewrite He. rewrite settled_reject.
      * unfold reject. by apply settle_once_pending.
      * unfold reject. by rewrite settle_once_pending.
    + intros Hp. apply object_after_last_report; [done| |done].
      unfold rejects_with. by rewrite He, Nat.eqb_refl.
    + intros mid e' rest. by apply Again.
  - intros o Ho. split; [|split].
    + subst final. rewrite (decided_by_first pre (StderrError er) post H He).
      unfold on_proc_event. rewrite He. rewrite settled_reject.
      * unfold reject. by apply settle_once_pending.
      * unfold reject. by rewrite settle_once_pending.
    + intros Hp. apply object_after_last_report; [done| |done].
      unfold rejects_with. by rewrite He, Nat.eqb_refl.
    + intros mid e' rest. by apply Again.
  - intros Hf. split.
    + subst final. rewrite (decided_by_first pre (ProcClose code signal) post H He).
      unfold on_proc_event. rewrite Hf. by apply settle_once_pending.
    + intros Hp. subst final.
      rewrite proc_run_app, proc_run_cons, (proc_run_data pre spawned H).
      rewrite objects_other_run; [|done|].
      * unfold on_proc_event. rewrite Hf, objects_settle_once. simpl.
        by rewrite list_lookup_middle.
      * unfold on_proc_event. rewrite Hf, objects_settle_once. simpl.
        rewrite length_app. simpl. lia.
Qed.

(** X24: what the object built at the close holds under the names
    [code], [signal], [stdout] and [stderr], as long as [extra] does not
    define the name: the code and the signal as reported, and for each
    output null when its descriptor is not a pipe, else everything
    received on it, joined in order, as a string when [stdioString] is
    set and as a buffer when not. A name [extra] defines holds what
    [extra] gives it. *)
Theorem closed_result_fields (code signal : jsval) (s : Spawned) :
  let stdioString := match opts with Some o => stdioString o | None => VUndefined end in
  let stdio := match opts with Some o => stdio o | None => VUndefined end in
  let output fd chunks :=
    if isPipe stdio fd
    then (if truthy stdioString then VString (toString (List.concat chunks))
          else VBuffer (List.concat chunks))
    else VNull in
  (forall k v, extra !! k = Some v -> closed_result code signal s !! k = Some v) /\
  (extra !! str "code" = None -> closed_result code signal s !! str "code" = Some code) /\
  (extra !! str "signal" = None ->
     closed_result code signal s !! str "signal" = Some signal) /\
  (extra !! str "stdout" = None ->
     closed_result code signal s !! str "stdout" = Some (output 1 (out_chunks s))) /\
  (extra !! str "stderr" = None ->
     closed_result code signal s !! str "stderr" = Some (output 2 (err_chunks s))).
Proof.
  intros stdioString stdio output. unfold closed_result, stdioResult.
  fold stdioString. fold stdio. subst output. cbv beta.
  split; [|split; [|split; [|split]]].
  - intros k v Hk. rewrite <- !(assoc_L (∪)). by apply lookup_union_Some_l.
  - intros Hk. rewrite <- !(assoc_L (∪)). rewrite (lookup_union_r _ _ _ Hk).
    destruct (truthy stdioString); by rewrite lookup_union_r.
  - intros Hk. rewrite <- !(assoc_L (∪)). rewrite (lookup_union_r _ _ _ Hk).
    destruct (truthy stdioString); by rewrite lookup_union_r.
  - intros Hk. rewrite <- !(assoc_L (∪)). rewrite (lookup_union_r _ _ _ Hk).
    destruct (truthy stdioString), (isPipe stdio 1);
      by erewrite lookup_union_Some_l.
  - intros Hk. rewrite <- !(assoc_L (∪)). rewrite (lookup_union_r _ _ _ Hk).
    destruct (truthy stdioString), (isPipe stdio 2);
      by erewrite lookup_union_Some_l.
Qed.

End BootstrapFacts.

(** * The further properties on concrete runs *)

(** X4 on the word "hello". *)
Lemma sanitize_keeps_clean_text_witness :
  ends_in_space (str "hello") = false /\ sanitize (str "hello") = str "hello".
Proof.
  split; [reflexivity|].
  apply (sanitize_keeps_clean_text (str "hello")).
  - repeat constructor.
  - reflexivity.
  - reflexivity.
  - simpl. lia.
Defined.

Lemma three_members_accept r : r ∈ users three_members -> accepts_writes three_members r.
Proof.
  intros Hr. simpl in Hr.
  repeat (apply elem_of_cons in Hr as [->|Hr]; [eexists; split; reflexivity|]).
  by apply elem_of_nil in Hr.
Qed.

Lemma three_members_unraced : reachable_unraced ascii_lower plain_tags three_members.
Proof.
  apply (run_unraced_sound _ _ three_join init); [apply unraced_init|reflexivity].
Qed.

Lemma one_negotiating_reachable : reachable ascii_lower plain_tags one_negotiating.
Proof.
  apply (run_reachable _ _ (three_join ++ [Connect]) init);
    [apply reachable_init|reflexivity].
Qed.

Lemma bob_waiting_reachable : reachable ascii_lower plain_tags bob_waiting.
Proof.
  apply (run_reachable _ _
           [Connect; Authentication 0 ann none; Shell 0;
            Connect; Authentication 1 bob none] init);
    [apply reachable_init|reflexivity].
Qed.

(** X1 when the first of three members writes "hi". *)
Lemma broadcast_reaches_every_member_witness :
  reachable ascii_lower plain_tags three_members /\
  exists src st',
    heap three_members !! 0 = Some src /\
    userBroadcast plain_tags (str "hi") 0 three_members = (st', Normal tt) /\
    users st' = users three_members /\
    sink st' 0 = sink three_members 0 ++ [str "> hi"].
Proof.
  split; [apply three_members_reachable|].
  destruct (heap three_members !! 0) as [src|] eqn:Hsrc; [|discriminate Hsrc].
  destruct (broadcast_reaches_every_member ascii_lower plain_tags three_members
              (str "hi") 0 src three_members_reachable Hsrc three_members_accept)
    as (st' & E & U & _ & S & _).
  exists src, st'. split; [reflexivity|]. split; [exact E|]. split; [exact U|].
  apply S. simpl. apply elem_of_cons. by left.
Defined.

(** X6 when the second of three members submits " hi ". *)
Lemma submitted_line_witness :
  reachable ascii_lower plain_tags three_members /\
  sanitize (str " hi ") = str "hi" /\
  exists st',
    handle ascii_lower plain_tags (Submit 1 (str " hi ")) three_members = Some st' /\
    users st' = users three_members /\
    sink st' 1 = sink three_members 1 ++ [str "> " ++ sanitize (str " hi ")].
Proof.
  split; [apply three_members_reachable|]. split; [reflexivity|].
  destruct (submitted_line_is_broadcast_sanitized ascii_lower plain_tags three_members
              1 bob_chatting 1 (str " hi ") three_members_reachable)
    as (st' & H & U & S & _); try reflexivity; try (vm_compute; discriminate).
  - apply three_members_accept.
  - exists st'. split; [exact H|]. split; [exact U|exact S].
Defined.

(** X7 on a line of a tab, a blank and an ESC. *)
Lemma blank_line_witness :
  blank [9%N; 32%N; 27%N] /\
  on_submit plain_tags 1 [9%N; 32%N; 27%N] three_members = (three_members, Normal tt).
Proof.
  assert (B : blank [9%N; 32%N; 27%N]) by (repeat constructor).
  split; [exact B|].
  exact (blank_line_is_discarded plain_tags three_members 1 [9%N; 32%N; 27%N] B).
Defined.

(** X8 when the second of three members reports 0 rows and 132 columns. *)
Lemma window_change_witness :
  reachable ascii_lower plain_tags three_members /\
  exists st',
    handle ascii_lower plain_tags (WindowChange 1 0%N 132%N) three_members = Some st' /\
    users st' = users three_members /\
    exists s, heap st' !! 1 = Some s /\ rows s = 0%N /\ columns s = 132%N.
Proof.
  split; [apply three_members_reachable|].
  destruct (handle ascii_lower plain_tags (WindowChange 1 0%N 132%N) three_members)
    as [st'|] eqn:E; [|discriminate E].
  exists st'. split; [reflexivity|].
  destruct (window_change_resizes_in_place ascii_lower plain_tags three_members st'
              1 bob_chatting 1 0%N 132%N three_members_reachable eq_refl eq_refl E)
    as (U & _ & S & _).
  split; [exact U|exact S].
Defined.

(** X9 on the shell request of the waiting session. *)
Lemma registry_changes_witness :
  exists st',
    handle ascii_lower plain_tags (Shell 1) bob_waiting = Some st' /\
    users st' = users bob_waiting ++ [length (heap bob_waiting)].
Proof.
  destruct (handle ascii_lower plain_tags (Shell 1) bob_waiting) as [st'|] eqn:E;
    [|discriminate E].
  exists st'. split; [reflexivity|].
  exact (registry_changes_only_on_shell_and_close ascii_lower plain_tags
           (Shell 1) bob_waiting st' E).
Defined.

(** X10 on the name of the second member when the third closes. *)
Lemma member_name_is_stable_witness :
  exists st',
    handle ascii_lower plain_tags (Close 2) three_members = Some st' /\
    member_name st' 1 = member_name three_members 1 /\ 1 < length (heap st').
Proof.
  destruct (handle ascii_lower plain_tags (Close 2) three_members) as [st'|] eqn:E;
    [|discriminate E].
  exists st'. split; [reflexivity|].
  apply (member_name_is_stable ascii_lower plain_tags (Close 2) three_members st' 1 E).
  simpl. lia.
Defined.

(** X11 on the connection that has not authenticated. *)
Lemma close_during_negotiation_witness :
  reachable ascii_lower plain_tags one_negotiating /\
  conns one_negotiating !! 3 = Some stranger /\
  exists st',
    handle ascii_lower plain_tags (Close 3) one_negotiating = Some st' /\
    users st' = users one_negotiating /\ heap st' = heap one_negotiating.
Proof.
  split; [apply one_negotiating_reachable|]. split; [reflexivity|].
  destruct (handle ascii_lower plain_tags (Close 3) one_negotiating) as [st'|] eqn:E;
    [|discriminate E].
  exists st'. split; [reflexivity|].
  destruct (close_during_negotiation_changes_nothing ascii_lower plain_tags
              one_negotiating st' 3 stranger one_negotiating_reachable eq_refl
              (or_introl eq_refl) E) as (U & H & _).
  split; [exact U|exact H].
Defined.

(** X12 on the registry of three members. *)
Lemma registry_mirrors_witness :
  reachable ascii_lower plain_tags three_members /\
  exists c cn, conns three_members !! c = Some cn /\ c_stream cn = Some 2 /\
               c_phase cn = Ready.
Proof.
  split; [apply three_members_reachable|].
  apply (registry_mirrors_open_sessions ascii_lower plain_tags three_members
           three_members_reachable).
  simpl. apply elem_of_cons. right. apply elem_of_cons. right. apply elem_of_cons. by left.
Defined.

(** X13 on an attempt as "dave" with three members present. *)
Lemma authentication_decision_witness :
  reachable ascii_lower plain_tags one_negotiating /\
  exists st' a,
    on_authentication ascii_lower 3 (str "dave") none one_negotiating = (st', Normal a) /\
    users st' = users one_negotiating /\ heap st' = heap one_negotiating.
Proof.
  split; [apply one_negotiating_reachable|].
  destruct (authentication_decision ascii_lower plain_tags one_negotiating 3
              (str "dave") none one_negotiating_reachable) as (st' & a & E & U & H & _).
  exists st', a. split; [exact E|]. split; [exact U|exact H].
Defined.

(** X14 on the answer "Bob" with a member "bob" present. *)
Lemma retry_decision_witness :
  reachable ascii_lower plain_tags one_negotiating /\
  exists st' a,
    retryPrompt ascii_lower 3 [str "Bob"] one_negotiating = (st', Normal a) /\
    users st' = users one_negotiating /\ heap st' = heap one_negotiating.
Proof.
  split; [apply one_negotiating_reachable|].
  destruct (retry_decision ascii_lower plain_tags one_negotiating 3
              (str "Bob") [] one_negotiating_reachable) as (st' & a & E & U & H & _).
  exists st', a. split; [exact E|]. split; [exact U|exact H].
Defined.

(** X15 when the second of three members has left and "bob" is asked for
    again. *)
Lemma nickname_is_free_witness :
  reachable_unraced ascii_lower plain_tags three_members /\
  exists st' st'',
    handle ascii_lower plain_tags (Close 1) three_members = Some st' /\
    on_authentication ascii_lower 2 bob none st' = (st'', Normal Accept).
Proof.
  split; [apply three_members_unraced|].
  destruct (handle ascii_lower plain_tags (Close 1) three_members) as [st'|] eqn:E;
    [|discriminate E].
  destruct (nickname_is_free_after_leaving ascii_lower plain_tags three_members st'
              1 2 bob_chatting 1 bob none three_members_unraced
              eq_refl eq_refl eq_refl eq_refl E) as (st'' & A).
  exists st', st''. split; [reflexivity|exact A].
Defined.

(** X16 on the shell request of the waiting session. *)
Lemma registered_name_witness :
  reachable ascii_lower plain_tags bob_waiting /\
  exists st' n,
    handle ascii_lower plain_tags (Shell 1) bob_waiting = Some st' /\
    c_name bob_closure = Some n /\
    member_name st' (length (heap bob_waiting)) = Some n.
Proof.
  split; [apply bob_waiting_reachable|].
  destruct (handle ascii_lower plain_tags (Shell 1) bob_waiting) as [st'|] eqn:E;
    [|discriminate E].
  destruct (registered_under_accepted_name ascii_lower plain_tags bob_waiting st'
              1 bob_closure bob_waiting_reachable eq_refl E) as (n & Hn & Hm & _).
  exists st', n. split; [reflexivity|]. split; [exact Hn|exact Hm].
Defined.

(** X18 as root with every key file in place, each taken by the
    constructor, and the port free; and with a constructor that throws. *)
Lemma server_starts_witness :
  (exists reads hostKeys port,
     createServer true all_readable any_keys free_port
       = (reads, Returned (hostKeys, port))) /\
  (createServer true all_readable no_keys free_port).2 = Raised ServerFailed.
Proof.
  split.
  - apply (server_starts_iff_root_and_keys_readable all_readable any_keys free_port true).
    split; [reflexivity|]. exists [[1%N]; [1%N]; [1%N]; [1%N]].
    split; [repeat constructor|]. split; reflexivity.
  - apply (proj2 (proj2 (server_starts_iff_root_and_keys_readable
                           all_readable no_keys free_port true))
             [[1%N]; [1%N]; [1%N]; [1%N]]).
    + reflexivity.
    + repeat constructor.
    + reflexivity.
Defined.

(** X19 as root without any key file: the first read ends the start. *)
Lemma startup_failure_witness :
  none_readable (path_join HOST_KEY_DIR (str "ssh_host_dsa_key")) = None /\
  createServer true none_readable any_keys free_port
    = ([str "/etc/ssh/ssh_host_dsa_key"],
       Raised (ReadFailed (str "/etc/ssh/ssh_host_dsa_key"))).
Proof.
  split; [reflexivity|].
  apply (proj2 (startup_stops_at_first_failure none_readable any_keys free_port true)
           [] (str "ssh_host_dsa_key")
           [str "ssh_host_ecdsa_key"; str "ssh_host_ed25519_key"; str "ssh_host_rsa_key"]).
  - reflexivity.
  - reflexivity.
  - by intros k' ?%elem_of_nil.
  - reflexivity.
Defined.

(** X21 on a child that writes to both streams and exits with code 0. *)
Lemma spawn_resolves_witness :
  truthy (VNumber 0) = false /\
  exists value,
    settled (proc_run latin1 sudo node_app None ∅ true true chatty_then_clean
               (spawned [boom]))
      = Resolved value.
Proof.
  split; [reflexivity|].
  eexists.
  apply (spawn_resolves_iff_clean_close_first latin1 sudo node_app None ∅ true true
           [boom] chatty_then_clean).
  exists [StdoutData [104%N; 105%N]; StderrData [33%N]], (VNumber 0), VNull, [].
  split; [reflexivity|]. split; [repeat constructor|].
  split; [reflexivity|]. split; reflexivity.
Defined.

(** X22 on the two chunks before the close. *)
Lemma spawn_collects_witness :
  proc_run latin1 sudo node_app None ∅ true true
      [StdoutData [104%N; 105%N]; StderrData [33%N]] (spawned [boom])
    = mkSpawned [[104%N; 105%N]] [[33%N]] Pending [boom].
Proof.
  apply (spawn_collects_while_pending latin1 sudo node_app None ∅ true true [boom]
           [StdoutData [104%N; 105%N]; StderrData [33%N]]).
  repeat constructor.
Defined.

(** X23 on a child whose stdout reports the same error object twice, with
    a chunk before each report: the promise is rejected with that object,
    which holds the output of both chunks at the end; and on a child that
    exits with code 1 after one chunk. *)
Lemma spawn_rejects_witness :
  ([boom] !! 0 = Some boom /\
   settled (proc_run latin1 sudo node_app None ∅ true true fails_twice (spawned [boom]))
     = Rejected 0 /\
   objects (proc_run latin1 sudo node_app None ∅ true true fails_twice (spawned [boom]))
       !! 0
     = Some (described latin1 sudo node_app None ∅
               (mkSpawned [[104%N]; [120%N]] [] Pending [boom]) ∪ boom)) /\
  (truthy (VNumber 1) || truthy VNull = true /\
   settled (proc_run latin1 sudo node_app None ∅ true true
              ([StdoutData [104%N]] ++ ProcClose (VNumber 1) VNull :: [])
              (spawned [boom]))
     = Rejected 1).
Proof.
  split.
  - split; [reflexivity|].
    destruct (spawn_rejects_on_first_failure latin1 sudo node_app None ∅ true true [boom]
                [StdoutData [104%N]] [StdoutData [120%N]; StdoutError 0] (StdoutError 0))
      with (o := boom) as (A & _ & C).
    + repeat constructor.
    + reflexivity.
    + reflexivity.
    + split; [exact A|].
      apply (C [StdoutData [120%N]] (StdoutError 0) []);
        [reflexivity|reflexivity|constructor].
  - split; [reflexivity|].
    apply (spawn_rejects_on_first_failure latin1 sudo node_app None ∅ true true [boom]
             [StdoutData [104%N]] [] (ProcClose (VNumber 1) VNull)).
    + repeat constructor.
    + reflexivity.
    + reflexivity.
Defined.

(** X17 on the close of the first member while the sink of the second
    raises. *)
Lemma close_always_unregisters_witness :
  reachable ascii_lower plain_tags second_sink_broken /\
  refuses_writes second_sink_broken 1 /\
  exists st' pre post,
    handle ascii_lower plain_tags (Close 0) second_sink_broken = Some st' /\
    users second_sink_broken = pre ++ 0 :: post /\ users st' = pre ++ post /\
    (0 ∉ users st').
Proof.
  split; [apply second_sink_broken_reachable|].
  split; [eexists; split; reflexivity|].
  destruct (handle ascii_lower plain_tags (Close 0) second_sink_broken) as [st'|] eqn:E;
    [|discriminate E].
  destruct (close_always_unregisters ascii_lower plain_tags second_sink_broken st' 0
              (mkConn Ready (Some 0) (Some ann) None None None false) 0
              second_sink_broken_reachable eq_refl eq_refl eq_refl E)
    as (pre & post & EU & U & Hout & _).
  exists st', pre, post. split; [reflexivity|]. split; [exact EU|]. split; [exact U|exact Hout].
Defined.

(** X24 on a clean close after "hi" on stdout, without options. *)
Lemma closed_result_fields_witness :
  (∅ : gmap (list N) jsval) !! str "stdout" = None /\
  closed_result latin1 sudo node_app None ∅ (VNumber 0) VNull
      (mkSpawned [[104%N]; [105%N]] [] Pending []) !! str "stdout"
    = Some (VBuffer [104%N; 105%N]).
Proof.
  split; [reflexivity|].
  apply (closed_result_fields latin1 sudo node_app None ∅ (VNumber 0) VNull
           (mkSpawned [[104%N]; [105%N]] [] Pending [])).
  reflexivity.
Defined.
